(** * quantecon.markov.approximation: Rouwenhorst, Tauchen and the VAR discretizer

    A shallow embedding of [quantecon/markov/approximation.py].

    Conventions of the embedding.
    - A Python or NumPy float is a real number ([R]): no rounding, no
      overflow.  Where the code can leave the finite reals this is written
      out: a Python float division by zero raises [ZeroDivisionError],
      [math.sqrt] of a negative number raises [ValueError], a NumPy
      operation that yields inf or NaN (a warning, not an exception) ends
      the run of the model with the outcome [NonFinite], and the final
      row normalisation of [discrete_var] returns [npfloat] entries, which
      can be NaN or infinite.
    - What is proved over [R] is a statement about the exact values of the
      expressions the code evaluates.  It carries over to the floats the
      code computes where no rounding is involved (integer counts, errors,
      shapes, orders, which cell is written) and up to rounding otherwise;
      an equality between two cells that the code computes along different
      paths need not survive rounding.  The module [Binary64] embeds the
      transition matrix of [rouwenhorst], which needs only [+], [-], [*]
      and [/] on floats, bit for bit on the kernel's binary64 numbers, and
      the statements that depend on rounding are settled there.
    - Scalar arguments are Python floats, as the docstrings say, so
      [sigma**2 / (1 - rho**2)] and [b / (1 - rho)] are Python divisions.
    - An array is a list, a 2-D array a list of rows.
    - Exceptions are the constructor [Raise] of [outcome].
    - The generator behind [np.random] is state that outlives a call: inside
      [@njit] code, as in [_run_sim], it is the generator Numba keeps for
      the calling thread (NumPy's own global generator is another object and
      is not touched).  It is passed explicitly as an [rng_state]. *)

From Stdlib Require Import PrimFloat FloatAxioms.
From Stdlib Require Import String.
From Stdlib Require Import Reals Lra Lia ZArith Bool List Permutation Sorted.
Import ListNotations.
Open Scope R_scope.

(** ** Outcomes of a run *)

Inductive exn : Type :=
| ZeroDivisionError
| ValueError (msg : string)
| TypeError (msg : string)
| IndexError.

Inductive outcome (A : Type) : Type :=
| Return (a : A)
| Raise (e : exn)
| NonFinite.

Arguments Return {A} a.
Arguments Raise {A} e.
Arguments NonFinite {A}.

Definition bind {A B : Type} (c : outcome A) (k : A -> outcome B) : outcome B :=
  match c with
  | Return a => k a
  | Raise e => Raise e
  | NonFinite => NonFinite
  end.

Notation "x <- c ;; k" := (bind c (fun x => k))
  (at level 61, c at next level, right associativity).

(** ** Float primitives *)

(** Python's [a / b] on floats. *)
Definition py_div (a b : R) : outcome R :=
  if Req_dec_T b 0 then Raise ZeroDivisionError else Return (a / b).

(** [math.sqrt]. *)
Definition math_sqrt (a : R) : outcome R :=
  if Rlt_dec a 0 then Raise (ValueError "math domain error") else Return (sqrt a).

(** [np.sqrt]: NaN on a negative argument. *)
Definition np_sqrt (a : R) : outcome R :=
  if Rlt_dec a 0 then NonFinite else Return (sqrt a).

(** NumPy's [a / b] on a float64: inf or NaN on a zero divisor. *)
Definition np_div (a b : R) : outcome R :=
  if Req_dec_T b 0 then NonFinite else Return (a / b).

(** ** Arrays *)

Abbreviation vector := (list R) (only parsing).
Abbreviation matrix := (list (list R)) (only parsing).

Definition get (M : matrix) (i j : nat) : R := nth j (nth i M []) 0.

(** [M] has [n] rows of [m] entries. *)
Definition shape (M : matrix) (n m : nat) : Prop :=
  length M = n /\ forall i, (i < n)%nat -> length (nth i M []) = m.

Definition mk_vector (n : nat) (f : nat -> R) : vector := map f (seq 0 n).

Definition mk_matrix (n m : nat) (f : nat -> nat -> R) : matrix :=
  map (fun i => mk_vector m (f i)) (seq 0 n).

(** [np.zeros((n, m))]. *)
Definition zeros (n m : nat) : matrix := mk_matrix n m (fun _ _ => 0).

(** [np.sum] of a 1-D array. *)
Definition vsum (v : vector) : R := fold_right Rplus 0 v.

(** [np.linspace(start, stop, num)]. *)
Definition linspace (start stop : R) (num : nat) : vector :=
  mk_vector num (fun j => start + INR j * ((stop - start) / (INR num - 1))).

(** [c * M]. *)
Definition mat_scale (c : R) (M : matrix) : matrix := map (map (Rmult c)) M.

Fixpoint map2 {A B C : Type} (f : A -> B -> C) (l : list A) (l' : list B) : list C :=
  match l, l' with
  | a :: t, b :: t' => f a b :: map2 f t t'
  | _, _ => []
  end.

(** [M + N] on arrays of one shape. *)
Definition mat_add (M N : matrix) : matrix := map2 (map2 Rplus) M N.

(** [M[r0:r0+h, c0:c0+w] = B] for a block [B] of [h] rows and [w] columns. *)
Definition set_block (r0 c0 : nat) (B M : matrix) : matrix :=
  mk_matrix (length M) (length (nth 0 M []))
    (fun i j =>
       if (r0 <=? i)%nat && (i <? r0 + length B)%nat
          && (c0 <=? j)%nat && (j <? c0 + length (nth (i - r0) B []))%nat
       then get B (i - r0) (j - c0)
       else get M i j).

(** [M[lo:hi, :] = M[lo:hi, :] / c]. *)
Definition div_rows (lo hi : nat) (c : R) (M : matrix) : matrix :=
  map (fun '(i, row) =>
         if (lo <=? i)%nat && (i <? hi)%nat then map (fun v => v / c) row else row)
      (combine (seq 0 (length M)) M).

(** ** Rouwenhorst *)

(** Modelled from the spec: the class [MarkovChain] of [quantecon/markov/core.py]
    is not part of the sources; the spec describes it as a container that
    accepts a transition matrix and state values. *)
Record MarkovChain : Type := mkMarkovChain {
  mc_P : matrix;
  state_values : vector
}.

Definition states_msg : string :=
  "The number of states must be positive and greater than or equal to 2".

(** The branch [n > 2] of [row_build_mat], given [new_mat]. *)
Definition row_build_step (n : nat) (p q : R) (new_mat : matrix) : matrix :=
  let p1 := set_block 0 0 (mat_scale p new_mat) (zeros n n) in
  let p2 := set_block 0 1 (mat_scale (1 - p) new_mat) (zeros n n) in
  let p3 := set_block 1 0 (mat_scale (1 - q) new_mat) (zeros n n) in
  let p4 := set_block 1 1 (mat_scale q new_mat) (zeros n n) in
  let theta := mat_add (mat_add (mat_add p1 p2) p3) p4 in
  div_rows 1 (n - 1) 2 theta.

Fixpoint row_build_mat (n : nat) (p q : R) : outcome matrix :=
  match n with
  | 2%nat => Return [[p; 1 - p]; [1 - q; q]]
  | S ((S (S _)) as n1) =>
      new_mat <- row_build_mat n1 p q ;;
      Return (row_build_step n p q new_mat)
  | _ => Raise (ValueError states_msg)
  end.

(** [rouwenhorst(n, ybar, sigma, rho)].  For [n < 2] [row_build_mat] raises,
    so [psi] and [bar] are used only for [n >= 2], where [n - 1 >= 1]. *)
Definition rouwenhorst (n : nat) (ybar sigma rho : R) : outcome MarkovChain :=
  v <- py_div (sigma ^ 2) (1 - rho ^ 2) ;;
  y_sd <- math_sqrt v ;;
  let p := (1 + rho) / 2 in
  let q := p in
  let psi := y_sd * sqrt (INR n - 1) in
  let ubar := psi in
  let lbar := - ubar in
  let bar := linspace lbar ubar n in
  theta <- row_build_mat n p q ;;
  shift <- py_div ybar (1 - rho) ;;
  Return (mkMarkovChain theta (map (fun y => y + shift) bar)).

(** ** Tauchen *)

(** In-place updates [l[i] = v] and [M[i, j] = v].  Inside [@njit] code no
    bounds are checked; the indices the callers below use are in range
    (in [discrete_var], when [grid_sizes] has one entry per dimension), and
    the model leaves the array unchanged otherwise. *)
Fixpoint upd {A : Type} (i : nat) (v : A) (l : list A) : list A :=
  match l, i with
  | [], _ => []
  | _ :: t, O => v :: t
  | a :: t, S i' => a :: upd i' v t
  end.

Definition set_entry (M : matrix) (i j : nat) (v : R) : matrix :=
  upd i (upd j v (nth i M [])) M.

(** A [for] loop whose body can raise. *)
Fixpoint foldM {A St : Type} (body : St -> A -> outcome St) (l : list A) (s : St)
  : outcome St :=
  match l with
  | [] => Return s
  | a :: t => s' <- body s a ;; foldM body t s'
  end.

(** [np.empty((n, m))]: the contents are unspecified; [_fill_tauchen]
    overwrites every cell (lemma [fill_tauchen_any_P]). *)
Definition np_empty (n m : nat) : matrix := zeros n m.

Section Tauchen.

(** [math.erfc], the complementary error function. *)
Variable erfc : R -> R.

Definition std_norm_cdf (x : R) : R := 0.5 * erfc (- x / sqrt 2).

(** The divisions by [sigma] are compiled by numba with Python's error
    model: a zero divisor raises [ZeroDivisionError]. *)
Definition _fill_tauchen (x : vector) (P : matrix) (n : nat)
    (rho sigma half_step : R) : outcome matrix :=
  foldM (fun P i =>
      a <- py_div (nth 0 x 0 - rho * nth i x 0 + half_step) sigma ;;
      let P := set_entry P i 0 (std_norm_cdf a) in
      b <- py_div (nth (n - 1) x 0 - rho * nth i x 0 - half_step) sigma ;;
      let P := set_entry P i (n - 1) (1 - std_norm_cdf b) in
      foldM (fun P j =>
          let z := nth j x 0 - rho * nth i x 0 in
          c <- py_div (z + half_step) sigma ;;
          d <- py_div (z - half_step) sigma ;;
          Return (set_entry P i j (std_norm_cdf c - std_norm_cdf d)))
        (seq 1 (n - 2)) P)
    (seq 0 n) P.

(** [tauchen(rho, sigma_u, b, m, n)].  [std_y] is a NumPy float, so the
    division that gives [step] does not raise: for [n = 1] it yields inf or
    NaN. *)
Definition tauchen (rho sigma_u b m : R) (n : nat) : outcome MarkovChain :=
  v <- py_div (sigma_u ^ 2) (1 - rho ^ 2) ;;
  std_y <- np_sqrt v ;;
  let x_max := m * std_y in
  let x_min := - x_max in
  let x := linspace x_min x_max n in
  step <- np_div (x_max - x_min) (INR n - 1) ;;
  let half_step := 0.5 * step in
  let P := np_empty n n in
  P <- _fill_tauchen x P n rho sigma_u half_step ;;
  mu <- py_div b (1 - rho) ;;
  Return (mkMarkovChain P (map (fun y => y + mu) x)).

End Tauchen.

(** ** Cartesian product *)

(** [np.prod] of a list of sizes; 1 on the empty list. *)
Definition prod (gs : list nat) : nat := fold_right Nat.mul 1%nat gs.

(** [np.ravel(np.tile(v, [k, 1]))]: [k] copies of [v] one after the other. *)
Definition tile (v : vector) (k : nat) : vector := concat (repeat v k).

Fixpoint insert_sorted (a : R) (l : vector) : vector :=
  match l with
  | [] => [a]
  | b :: t => if Rle_dec a b then a :: l else b :: insert_sorted a t
  end.

(** [np.sort] of a 1-D array. *)
Definition np_sort (l : vector) : vector := fold_right insert_sorted [] l.

(** [S[:, i] = col]. *)
Definition set_col (M : matrix) (i : nat) (col : vector) : matrix :=
  map (fun '(r, row) => upd i (nth r col 0) row) (combine (seq 0 (length M)) M).

(** [np.meshgrid] of the grids with [indexing='ij'], stacked along the
    last axis and reshaped to [m] columns: the rows [(arrays[0][i0], ..., arrays[m-1][i_{m-1}])], the index tuples
    in C order (last index fastest). *)
Fixpoint meshgrid_ij (arrays : list vector) : matrix :=
  match arrays with
  | [] => [[]]
  | a :: rest => flat_map (fun v => map (cons v) (meshgrid_ij rest)) a
  end.

(** Column [i] of the column-major product. *)
Definition col_major_column (V : list vector) (gs : list nat) (i : nat) : vector :=
  match i with
  | O =>
      let S0 := nth i V [] in
      tile S0 (prod (skipn (i + 1) gs))
  | _ =>
      let S0 := np_sort (tile (nth i V []) (prod (firstn i gs))) in
      tile S0 (prod (skipn (i + 1) gs))
  end.

(** [cartesian_product(arrays, row_major)].  On an empty list of grids
    [np.stack] raises, and in the other branch [np.prod([])] is the float
    1.0, which [np.zeros] refuses as a dimension. *)
Definition cartesian_product (arrays : list vector) (row_major : bool)
  : outcome matrix :=
  let m := length arrays in
  if row_major then
    match arrays with
    | [] => Raise (ValueError "need at least one array to stack")
    | _ => Return (meshgrid_ij arrays)
    end
  else
    let V := arrays in
    let gs := map (@length R) V in
    match gs with
    | [] => Raise (TypeError "'numpy.float64' object cannot be interpreted as an integer")
    | _ =>
        let n := prod gs in
        let S := zeros n m in
        Return (fold_left (fun S i => set_col S i (col_major_column V gs i)) (seq 0 m) S)
    end.

(** ** The VAR discretizer *)

(** A float64 cell after a NumPy division. *)
Inductive npfloat : Type :=
| Finite (r : R)
| PosInf
| NegInf
| NaN.

(** NumPy's elementwise [a / b] inside an array: no exception on a zero
    divisor. *)
Definition np_divide (a b : R) : npfloat :=
  if Req_dec_T b 0 then
    (if Req_dec_T a 0 then NaN else if Rlt_dec 0 a then PosInf else NegInf)
  else Finite (a / b).

(** The state of the generator that [np.random] uses inside [@njit] code
    (Numba's, one per thread, shared by all compiled functions the thread
    runs): the stream started by [rng_seed], of which [rng_pos]
    standard-normal draws are consumed. *)
Record rng_state : Type := mkRng {
  rng_seed : Z;
  rng_pos : nat
}.

(** Computations that read and write the generator and can raise. *)
Definition sim (A : Type) : Type := rng_state -> outcome A * rng_state.

Definition sim_ret {A : Type} (a : A) : sim A := fun g => (Return a, g).

Definition sim_bind {A B : Type} (c : sim A) (k : A -> sim B) : sim B :=
  fun g =>
    match c g with
    | (Return a, g') => k a g'
    | (Raise e, g') => (Raise e, g')
    | (NonFinite, g') => (NonFinite, g')
    end.

Definition lift {A : Type} (c : outcome A) : sim A := fun g => (c, g).

Notation "x <~ c ;; k" := (sim_bind c (fun x => k))
  (at level 61, c at next level, right associativity).

Fixpoint foldS {A St : Type} (body : St -> A -> sim St) (l : list A) (s : St)
  : sim St :=
  match l with
  | [] => sim_ret s
  | a :: t => s' <~ body s a ;; foldS body t s'
  end.

Fixpoint mapM {A B : Type} (f : A -> outcome B) (l : list A) : outcome (list B) :=
  match l with
  | [] => Return []
  | a :: t => b <- f a ;; bs <- mapM f t ;; Return (b :: bs)
  end.

(** [l[i]] on a Python list or a 1-D array. *)
Definition py_index {A : Type} (l : list A) (i : nat) : outcome A :=
  match nth_error l i with
  | Some a => Return a
  | None => Raise IndexError
  end.

(** [A @ x] for a column vector [x]. *)
Definition matvec (A : matrix) (x : vector) : vector :=
  map (fun row => vsum (map2 Rmult row x)) A.

Definition vec_add (x y : vector) : vector := map2 Rplus x y.

(** [np.sum((S - xx)**2, axis=1)]. *)
Definition sq_dists (S : matrix) (xx : vector) : vector :=
  map (fun s => vsum (map2 (fun a b => (a - b) ^ 2) s xx)) S.

(** [np.argmin]: a left-to-right scan that moves only on a strictly smaller
    value. *)
Fixpoint argmin_from (best : R) (best_i i : nat) (d : vector) : nat :=
  match d with
  | [] => best_i
  | v :: t =>
      if Rlt_dec v best then argmin_from v i (S i) t
      else argmin_from best best_i (S i) t
  end.

Definition argmin (d : vector) : outcome nat :=
  match d with
  | [] => Raise (ValueError "attempt to get argmin of an empty sequence")
  | v :: t => Return (argmin_from v 0 1 t)
  end.

(** [np.sum(M, axis=0)] and [np.sum(M, axis=1)] of an array with [n]
    columns. *)
Definition col_sums (M : matrix) (n : nat) : vector :=
  mk_vector n (fun j => vsum (map (fun row => nth j row 0) M)).

Definition row_sums (M : matrix) : vector := map vsum M.

(** [np.where(v > 0)[0]]. *)
Definition where_pos (v : vector) : list nat :=
  filter (fun i => if Rlt_dec 0 (nth i v 0) then true else false) (seq 0 (length v)).

(** [M[indx, :]] and [M[:, indx]]. *)
Definition take_rows (M : matrix) (indx : list nat) : matrix :=
  map (fun i => nth i M []) indx.

Definition take_cols (M : matrix) (indx : list nat) : matrix :=
  map (fun row => map (fun j => nth j row 0) indx) M.

(** The normalisation loop of [discrete_var]:
    [sum_row = np.sum(Pi, axis=1)], then [Pi[i, :] = Pi[i, :] / sum_row[i]]
    for every row. *)
Definition normalize_rows (Pi : matrix) : list (list npfloat) :=
  let sum_row := row_sums Pi in
  map2 (fun row s => map (fun v => np_divide v s) row) Pi sum_row.

(** The local variables of [_run_sim] that the loop carries. *)
Record sim_vars : Type := mkVars {
  sv_x0 : vector;
  sv_ind_i : nat;
  sv_Pi : matrix;
  sv_Xvec : matrix
}.

Record var_result : Type := mkResult {
  res_Pi : list (list npfloat);
  res_S : matrix;
  res_Xvec : option matrix
}.

Section VAR.

(** [quantecon.matrix_eqn.solve_discrete_lyapunov] and
    [scipy.linalg.sqrtm], external to the module. *)
Variable solve_discrete_lyapunov : matrix -> matrix -> outcome matrix.
Variable sqrtm : matrix -> outcome matrix.

(** [gauss s k]: draw number [k] of the standard-normal stream that
    [np.random.seed(s)] starts. *)
Variable gauss : Z -> nat -> R.

Definition np_random_seed (seed : Z) : sim unit :=
  fun _ => (Return tt, mkRng seed 0).

(** [np.random.randn(m, 1)]. *)
Definition np_random_randn (m : nat) : sim vector :=
  fun g =>
    (Return (mk_vector m (fun k => gauss (rng_seed g) (rng_pos g + k))),
     mkRng (rng_seed g) (rng_pos g + m)).

(** One iteration of the loop of [_run_sim]. *)
Definition run_sim_body (A C S : matrix) (burn_in m : nat)
    (st : sim_vars) (t : nat) : sim sim_vars :=
  z <~ np_random_randn m ;;
  let drw := matvec C z in
  let x := vec_add (matvec A (sv_x0 st)) drw in
  let xx := x in
  let d := sq_dists S xx in
  ind_j <~ lift (argmin d) ;;
  let ind_i := sv_ind_i st in
  let Pi := sv_Pi st in
  let Xvec := sv_Xvec st in
  if (burn_in <? t)%nat then
    sim_ret (mkVars x ind_j
               (set_entry Pi ind_i ind_j (get Pi ind_i ind_j + 1))
               (set_col Xvec (t - burn_in) x))
  else
    sim_ret (mkVars x ind_j Pi Xvec).

(** [_run_sim]; the arrays [Pi] and [Xvec] it mutates are returned. *)
Definition _run_sim (A C Pi Xvec S : matrix) (sim_length burn_in : nat) (seed : Z)
  : sim (matrix * matrix) :=
  let m := length A in
  _ <~ np_random_seed seed ;;
  let x0 := repeat 0 m in
  let d := row_sums (map (map (fun a => a ^ 2)) S) in
  ind_i <~ lift (argmin d) ;;
  st <~ foldS (run_sim_body A C S burn_in m) (seq 0 (sim_length + burn_in))
         (mkVars x0 ind_i Pi Xvec) ;;
  sim_ret (sv_Pi st, sv_Xvec st).

Definition default_grid_size : nat := 10.

Definition discrete_var (A Omega : matrix) (grid_sizes : option (list nat))
    (std_devs : R) (seed : Z) (sim_length burn_in : nat)
    (row_major return_sim : bool) : sim var_result :=
  let m := length A in
  let grid_sizes :=
    match grid_sizes with
    | None => repeat default_grid_size m
    | Some gs => gs
    end in
  let n := prod grid_sizes in
  Sigma <~ lift (solve_discrete_lyapunov A Omega) ;;
  sigma_vector <~ lift (mapM np_sqrt (mk_vector (length Sigma) (fun i => get Sigma i i))) ;;
  let upper_bounds := map (Rmult std_devs) sigma_vector in
  V <~ lift (mapM (fun i =>
               ub <- py_index upper_bounds i ;;
               gsz <- py_index grid_sizes i ;;
               Return (linspace (- ub) ub gsz)) (seq 0 m)) ;;
  S <~ lift (cartesian_product V row_major) ;;
  let Pi := zeros n n in
  let Xvec := zeros m sim_length in
  C <~ lift (sqrtm Omega) ;;
  arrays <~ _run_sim A C Pi Xvec S sim_length burn_in seed ;;
  let Pi := fst arrays in
  let Xvec := snd arrays in
  let indx := where_pos (col_sums Pi n) in
  let Pi := take_rows Pi indx in
  let Pi := take_cols Pi indx in
  let S := take_rows S indx in
  let Pi := normalize_rows Pi in
  if return_sim then sim_ret (mkResult Pi S (Some Xvec))
  else sim_ret (mkResult Pi S None).

End VAR.

(** ** The Rouwenhorst matrix in binary64 *)

(** [row_build_mat] and the two lines of [rouwenhorst] that compute [p] and
    [q], on binary64 numbers: every [+], [-], [*] and [/] below is the
    IEEE 754 operation, rounded to nearest, as Python and NumPy perform it
    on float64.  The arrays are the lists of rows used above. *)
Module Binary64.

Local Open Scope float_scope.

Definition get (M : list (list float)) (i j : nat) : float :=
  nth j (nth i M []) 0.

Definition mk_vector (n : nat) (f : nat -> float) : list float :=
  map f (seq 0 n).

Definition mk_matrix (n m : nat) (f : nat -> nat -> float) : list (list float) :=
  map (fun i => mk_vector m (f i)) (seq 0 n).

(** [np.zeros((n, m))]. *)
Definition zeros (n m : nat) : list (list float) := mk_matrix n m (fun _ _ => 0).

(** [c * M]. *)
Definition mat_scale (c : float) (M : list (list float)) : list (list float) :=
  map (map (PrimFloat.mul c)) M.

(** [M + N] on arrays of one shape. *)
Definition mat_add (M N : list (list float)) : list (list float) :=
  map2 (map2 PrimFloat.add) M N.

(** [M[r0:r0+h, c0:c0+w] = B]. *)
Definition set_block (r0 c0 : nat) (B M : list (list float)) : list (list float) :=
  mk_matrix (length M) (length (nth 0 M []))
    (fun i j =>
       if (r0 <=? i)%nat && (i <? r0 + length B)%nat
          && (c0 <=? j)%nat && (j <? c0 + length (nth (i - r0) B []))%nat
       then get B (i - r0) (j - c0)
       else get M i j).

(** [M[lo:hi, :] = M[lo:hi, :] / c]. *)
Definition div_rows (lo hi : nat) (c : float) (M : list (list float))
  : list (list float) :=
  map (fun '(i, row) =>
         if (lo <=? i)%nat && (i <? hi)%nat then map (fun v => v / c) row else row)
      (combine (seq 0 (length M)) M).

(** The branch [n > 2] of [row_build_mat]: [p1 + p2 + p3 + p4] is added
    from left to right, cell by cell. *)
Definition row_build_step (n : nat) (p q : float) (new_mat : list (list float))
  : list (list float) :=
  let p1 := set_block 0 0 (mat_scale p new_mat) (zeros n n) in
  let p2 := set_block 0 1 (mat_scale (1 - p) new_mat) (zeros n n) in
  let p3 := set_block 1 0 (mat_scale (1 - q) new_mat) (zeros n n) in
  let p4 := set_block 1 1 (mat_scale q new_mat) (zeros n n) in
  let theta := mat_add (mat_add (mat_add p1 p2) p3) p4 in
  div_rows 1 (n - 1) 2 theta.

Fixpoint row_build_mat (n : nat) (p q : float) : outcome (list (list float)) :=
  match n with
  | 2%nat => Return [[p; 1 - p]; [1 - q; q]]
  | S ((S (S _)) as n1) =>
      new_mat <- row_build_mat n1 p q ;;
      Return (row_build_step n p q new_mat)
  | _ => Raise (ValueError states_msg)
  end.

(** The matrix [theta] of [rouwenhorst(n, ybar, sigma, rho)]:
    [p = (1 + rho) / 2], [q = p], [theta = row_build_mat(n, p, q)].  The
    state values do not enter it. *)
Definition rouwenhorst_theta (n : nat) (rho : float) : outcome (list (list float)) :=
  let p := (1 + rho) / 2 in
  let q := p in
  row_build_mat n p q.

End Binary64.

(** ** Notions used in the statements *)

(** [M] with a row and a column of zeros put in front: [pad M (S i) (S j)]
    is [M[i, j]]. *)
Definition pad (M : matrix) (a b : nat) : R :=
  match a, b with
  | S i, S j => get M i j
  | _, _ => 0
  end.

(** [f 0 + ... + f (n - 1)]. *)
Fixpoint sumn (f : nat -> R) (n : nat) : R :=
  match n with
  | O => 0
  | S k => sumn f k + f k
  end.

(** An [n] by [n] matrix of non-negative entries whose rows sum to 1. *)
Definition stochastic (M : matrix) (n : nat) : Prop :=
  shape M n n /\
  (forall i j, (i < n)%nat -> (j < n)%nat -> 0 <= get M i j) /\
  (forall i, (i < n)%nat -> vsum (nth i M []) = 1).

(** [M[i, j] = M[n-1-i, n-1-j]] throughout an [n] by [n] matrix. *)
Definition centrally_symmetric (M : matrix) (n : nat) : Prop :=
  forall i j, (i < n)%nat -> (j < n)%nat ->
    get M i j = get M (n - 1 - i) (n - 1 - j).

(** The closed form of the transition probabilities in the spec of the
    Tauchen constructor (leftmost column, rightmost column, interior). *)
Definition tauchen_closed_form (erfc : R -> R) (x : vector) (n : nat)
    (rho sigma half_step : R) (i j : nat) : R :=
  let Phi := fun t => 0.5 * erfc (- t / sqrt 2) in
  if (j =? 0)%nat then
    Phi ((nth 0 x 0 - rho * nth i x 0 + half_step) / sigma)
  else if (j =? n - 1)%nat then
    1 - Phi ((nth (n - 1) x 0 - rho * nth i x 0 - half_step) / sigma)
  else
    let z := nth j x 0 - rho * nth i x 0 in
    Phi ((z + half_step) / sigma) - Phi ((z - half_step) / sigma).

(** The body of the outer loop of [_fill_tauchen] when no division raises. *)
Definition fill_tauchen_row (erfc : R -> R) (x : vector) (n : nat)
    (rho sigma half_step : R) (P : matrix) (i : nat) : matrix :=
  let P := set_entry P i 0
             (std_norm_cdf erfc ((nth 0 x 0 - rho * nth i x 0 + half_step) / sigma)) in
  let P := set_entry P i (n - 1)
             (1 - std_norm_cdf erfc
                    ((nth (n - 1) x 0 - rho * nth i x 0 - half_step) / sigma)) in
  fold_left (fun P j =>
      let z := nth j x 0 - rho * nth i x 0 in
      set_entry P i j (std_norm_cdf erfc ((z + half_step) / sigma)
                       - std_norm_cdf erfc ((z - half_step) / sigma)))
    (seq 1 (n - 2)) P.

(** The grid and the half step that [tauchen] hands to [_fill_tauchen]. *)
Definition tauchen_std_y (rho sigma_u : R) : R := sqrt (sigma_u ^ 2 / (1 - rho ^ 2)).

Definition tauchen_grid (rho sigma_u m : R) (n : nat) : vector :=
  linspace (- (m * tauchen_std_y rho sigma_u)) (m * tauchen_std_y rho sigma_u) n.

Definition tauchen_half_step (rho sigma_u m : R) (n : nat) : R :=
  0.5 * ((m * tauchen_std_y rho sigma_u - - (m * tauchen_std_y rho sigma_u))
         / (INR n - 1)).

(** An [n] by [n] transition matrix: every row sums to 1 and every entry
    lies in [0, 1]. *)
Definition is_transition_matrix (M : matrix) (n : nat) : Prop :=
  shape M n n /\
  (forall i, (i < n)%nat -> vsum (nth i M []) = 1) /\
  (forall i j, (i < n)%nat -> (j < n)%nat -> 0 <= get M i j <= 1).

(** A piecewise-linear function with the range and the monotonicity of
    [erfc], on which the statements about [tauchen] can be instantiated. *)
Definition erfc_like (t : R) : R := Rmin 2 (Rmax 0 (1 - t)).

(** The run ends with a [ValueError], the exception class the module uses
    for a violated precondition (see [row_build_mat]). *)
Definition raises_DomainError {A : Type} (o : outcome A) : Prop :=
  exists msg, o = Raise (ValueError msg).

(** A strictly increasing grid. *)
Definition strictly_increasing (v : vector) : Prop := StronglySorted Rlt v.

(** [row] takes one value from each grid, in the order of the grids. *)
Definition combination (row : vector) (arrays : list vector) : Prop :=
  Forall2 (fun v a => In v a) row arrays.

(** The enumeration in which the first grid varies fastest. *)
Fixpoint first_fastest (arrays : list vector) : matrix :=
  match arrays with
  | [] => [[]]
  | a :: rest => flat_map (fun row => map (fun v => v :: row) a) (first_fastest rest)
  end.

(** Column [i] of an array, every row of an array written [p] times in a
    row, and every point of a grid written [p] times in a row. *)
Definition column (i : nat) (M : matrix) : vector := map (fun row => nth i row 0) M.

Definition stretch (p : nat) (M : matrix) : matrix :=
  flat_map (fun row => repeat row p) M.

Definition repeated (v : vector) (p : nat) : vector :=
  flat_map (fun a => repeat a p) v.

(** The sum of all cells of an array: the number of transitions counted
    so far when the array is the count matrix. *)
Definition total (M : matrix) : R := vsum (map vsum M).

(** What holds of the count matrix before iteration [t] of the loop of
    [_run_sim], [Pi0] being the array handed to [_run_sim]. *)
Definition count_invariant (n burn_in : nat) (Pi0 : matrix)
    (t : nat) (st : sim_vars) (g : rng_state) : Prop :=
  shape (sv_Pi st) n n
  /\ (sv_ind_i st < n)%nat
  /\ total (sv_Pi st) = total Pi0 + INR (t - S burn_in).

(** What holds of the trace and of the generator before iteration [t]. *)
Definition trace_invariant (seed : Z) (m : nat) (Xvec0 : matrix)
    (t : nat) (st : sim_vars) (g : rng_state) : Prop :=
  (forall r, get (sv_Xvec st) r 0 = get Xvec0 r 0)
  /\ g = mkRng seed (m * t).

(** Externals for a one-dimensional example: with [A = 0] the Lyapunov
    equation is solved by [Omega], and the identity is its own square
    root. *)
Definition lyapunov_of_zero_A (A Omega : matrix) : outcome matrix := Return Omega.

Definition sqrtm_of_identity (Omega : matrix) : outcome matrix := Return Omega.

(** A stream of draws for the example: it starts with the values that
    [np.random.randn] gives after [np.random.seed(1234)] (the Mersenne
    Twister stream, the same in Numba as in NumPy's legacy generator), to
    eight digits, and stays at the fourth of them. *)
Definition draws_1234 (s : Z) (k : nat) : R :=
  match k with
  | 0%nat => 0.47143516
  | 1%nat => - 1.19097569
  | 2%nat => 1.43270697
  | _ => - 0.3126519
  end.

(** Lexicographic order on rows, first entry most significant, and its
    mirror image, last entry most significant (rows of one length). *)
Inductive lex_lt : list R -> list R -> Prop :=
| lex_lt_head (a b : R) (l l' : list R) : a < b -> lex_lt (a :: l) (b :: l')
| lex_lt_tail (a : R) (l l' : list R) : lex_lt l l' -> lex_lt (a :: l) (a :: l').

Inductive colex_lt : list R -> list R -> Prop :=
| colex_lt_tail (a b : R) (l l' : list R) :
    colex_lt l l' -> colex_lt (a :: l) (b :: l')
| colex_lt_head (a b : R) (l : list R) : a < b -> colex_lt (a :: l) (b :: l).

(** Row and column sums of the count matrix: how often state [k] was the
    source, and how often the destination, of a counted transition. *)
Definition row_sum (M : matrix) (k : nat) : R := vsum (nth k M []).

Definition col_sum (M : matrix) (k : nat) : R :=
  vsum (map (fun row => nth k row 0) M).

Definition delta (a b : nat) : R := if (a =? b)%nat then 1 else 0.

(** The counted transitions form one path: before iteration [t] every state
    has left as often as it was entered, except that the state the path is
    in ([sv_ind_i]) was entered once more and the state it started from
    ([i0]) left once more; nothing is counted up to iteration [burn_in]. *)
Definition path_invariant (n burn_in : nat)
    (t : nat) (st : sim_vars) (g : rng_state) : Prop :=
  shape (sv_Pi st) n n
  /\ (sv_ind_i st < n)%nat
  /\ (forall i j, 0 <= get (sv_Pi st) i j)
  /\ ((t <= S burn_in)%nat ->
      forall k, row_sum (sv_Pi st) k = 0 /\ col_sum (sv_Pi st) k = 0)
  /\ exists i0, forall k, (k < n)%nat ->
       row_sum (sv_Pi st) k + delta k (sv_ind_i st)
       = col_sum (sv_Pi st) k + delta k i0.

(** The grid sizes [discrete_var] works with: the argument, or ten points
    per dimension. *)
Definition grid_sizes_or_default (grid_sizes : option (list nat)) (m : nat)
  : list nat :=
  match grid_sizes with
  | None => repeat default_grid_size m
  | Some gs => gs
  end.

(** The indices [discrete_var] keeps, and the count matrix cut down to
    them. *)
Definition kept_states (Pi : matrix) (n : nat) : list nat :=
  where_pos (col_sums Pi n).

Definition pruned_counts (Pi : matrix) (n : nat) : matrix :=
  take_cols (take_rows Pi (kept_states Pi n)) (kept_states Pi n).

(** Equality of rows of floats, decided bit for bit. *)
Fixpoint row_eqb (r r' : list float) : bool :=
  match r, r' with
  | [], [] => true
  | a :: t, b :: t' => PrimFloat.Leibniz.eqb a b && row_eqb t t'
  | _, _ => false
  end.

(** All rows of the binary64 matrix of [rouwenhorst(n, ., ., rho)] are
    equal. *)
Definition equal_rows_check (n : nat) (rho : float) : bool :=
  match Binary64.rouwenhorst_theta n rho with
  | Return theta =>
      (length theta =? n)%nat && forallb (row_eqb (nth 0 theta [])) theta
  | _ => false
  end.

(** [k] is the lowest index at which the array [d] takes its minimum. *)
Definition lowest_argmin (d : vector) (k : nat) : Prop :=
  (k < length d)%nat
  /\ (forall j, (j < length d)%nat -> nth k d 0 <= nth j d 0)
  /\ (forall j, (j < k)%nat -> nth k d 0 < nth j d 0).





(** * Properties *)

(** Settles the comparisons of concrete reals that a run branches on. *)
Ltac decide_reals :=
  repeat match goal with
    | |- context [Rlt_dec ?a ?b] =>
        destruct (Rlt_dec a b); [try (exfalso; lra)|try (exfalso; lra)]
    | |- context [Req_dec_T ?a ?b] =>
        destruct (Req_dec_T a b); [try (exfalso; lra)|try (exfalso; lra)]
    end.

(** Settles an equation between lists of concrete reals, cell by cell. *)
Ltac reals_lists :=
  repeat match goal with
    | |- (_ :: _) = (_ :: _) => apply f_equal2
    | |- @eq R _ _ => lra
    | |- _ => reflexivity
    end.

(** ** Lists and arrays *)

Lemma length_mk_vector (n : nat) (f : nat -> R) : length (mk_vector n f) = n.
Proof. unfold mk_vector. now rewrite length_map, length_seq. Qed.

Lemma nth_mk_vector (n : nat) (f : nat -> R) (j : nat) (d : R) :
  (j < n)%nat -> nth j (mk_vector n f) d = f j.
Proof.
  intros Hj. unfold mk_vector.
  rewrite (nth_indep _ d (f 0%nat)) by now rewrite length_map, length_seq.
  rewrite map_nth, seq_nth by assumption. reflexivity.
Qed.

Lemma length_mk_matrix (n m : nat) (f : nat -> nat -> R) :
  length (mk_matrix n m f) = n.
Proof. unfold mk_matrix. now rewrite length_map, length_seq. Qed.

Lemma nth_mk_matrix (n m : nat) (f : nat -> nat -> R) (i : nat) :
  (i < n)%nat -> nth i (mk_matrix n m f) [] = mk_vector m (f i).
Proof.
  intros Hi. unfold mk_matrix.
  rewrite (nth_indep _ [] (mk_vector m (f 0%nat))) by now rewrite length_map, length_seq.
  rewrite (map_nth (fun i => mk_vector m (f i))), seq_nth by assumption. reflexivity.
Qed.

Lemma shape_mk_matrix (n m : nat) (f : nat -> nat -> R) :
  shape (mk_matrix n m f) n m.
Proof.
  split; [apply length_mk_matrix|].
  intros i Hi. now rewrite nth_mk_matrix, length_mk_vector.
Qed.

Lemma get_mk_matrix (n m : nat) (f : nat -> nat -> R) (i j : nat) :
  (i < n)%nat -> (j < m)%nat -> get (mk_matrix n m f) i j = f i j.
Proof.
  intros Hi Hj. unfold get. now rewrite nth_mk_matrix, nth_mk_vector.
Qed.

Lemma get_zeros (n m i j : nat) : get (zeros n m) i j = 0.
Proof.
  destruct (lt_dec i n) as [Hi|Hi].
  - destruct (lt_dec j m) as [Hj|Hj].
    + unfold zeros. now rewrite get_mk_matrix.
    + unfold get, zeros. rewrite nth_mk_matrix by assumption.
      apply nth_overflow. rewrite length_mk_vector. lia.
  - unfold get. rewrite (nth_overflow (zeros n m)).
    + now destruct j.
    + unfold zeros. rewrite length_mk_matrix. lia.
Qed.

Lemma get_overflow_row (M : matrix) (i j : nat) :
  (length M <= i)%nat -> get M i j = 0.
Proof.
  intros H. unfold get. rewrite (nth_overflow M) by assumption. now destruct j.
Qed.

Lemma get_overflow_col (M : matrix) (n m i j : nat) :
  shape M n m -> (m <= j)%nat -> get M i j = 0.
Proof.
  intros [Hn Hm] Hj. destruct (lt_dec i n) as [Hi|Hi].
  - unfold get. apply nth_overflow. rewrite Hm by assumption. lia.
  - apply get_overflow_row. lia.
Qed.

Lemma length_map2 {A B C : Type} (f : A -> B -> C) (l : list A) (l' : list B) :
  length (map2 f l l') = Nat.min (length l) (length l').
Proof.
  revert l'. induction l as [|a l IH]; intros [|b l']; simpl; auto.
Qed.

Lemma nth_map2 {A B C : Type} (f : A -> B -> C) (l : list A) (l' : list B)
    (i : nat) (da : A) (db : B) (dc : C) :
  (i < length l)%nat -> (i < length l')%nat ->
  nth i (map2 f l l') dc = f (nth i l da) (nth i l' db).
Proof.
  revert l' i. induction l as [|a l IH]; intros [|b l'] i Hl Hl'; simpl in *; try lia.
  destruct i as [|i]; [reflexivity|]. apply IH; lia.
Qed.

Lemma shape_mat_add (M N : matrix) (n m : nat) :
  shape M n m -> shape N n m -> shape (mat_add M N) n m.
Proof.
  intros [HM1 HM2] [HN1 HN2]. unfold mat_add. split.
  - rewrite length_map2. lia.
  - intros i Hi.
    rewrite (nth_map2 _ _ _ _ [] []) by lia.
    rewrite length_map2, HM2, HN2 by assumption. lia.
Qed.

Lemma get_mat_add (M N : matrix) (n m i j : nat) :
  shape M n m -> shape N n m -> (i < n)%nat -> (j < m)%nat ->
  get (mat_add M N) i j = get M i j + get N i j.
Proof.
  intros [HM1 HM2] [HN1 HN2] Hi Hj. unfold get, mat_add.
  rewrite (nth_map2 _ _ _ _ [] []) by lia.
  apply nth_map2; [rewrite HM2|rewrite HN2]; assumption.
Qed.

Lemma get_mat_scale (c : R) (M : matrix) (i j : nat) :
  get (mat_scale c M) i j = c * get M i j.
Proof.
  unfold get, mat_scale.
  change (@nil R) with (map (Rmult c) []) at 1. rewrite map_nth.
  set (row := nth i M []).
  destruct (lt_dec j (length row)) as [Hj|Hj].
  - rewrite (nth_indep _ 0 (c * 0)) by now rewrite length_map.
    now rewrite map_nth.
  - rewrite !nth_overflow; try rewrite length_map; try lia. ring.
Qed.

Lemma shape_mat_scale (c : R) (M : matrix) (n m : nat) :
  shape M n m -> shape (mat_scale c M) n m.
Proof.
  intros [H1 H2]. unfold mat_scale. split.
  - now rewrite length_map.
  - intros i Hi. change (@nil R) with (map (Rmult c) []). rewrite map_nth.
    rewrite length_map. now apply H2.
Qed.

Lemma shape_zeros (n m : nat) : shape (zeros n m) n m.
Proof. apply shape_mk_matrix. Qed.

Lemma shape_set_block (r0 c0 : nat) (B M : matrix) (n m : nat) :
  (0 < n)%nat -> shape M n m -> shape (set_block r0 c0 B M) n m.
Proof.
  intros Hn [H1 H2]. unfold set_block. rewrite H1, H2 by assumption.
  apply shape_mk_matrix.
Qed.

Lemma nth_combine_seq {A : Type} (l : list A) (i : nat) (d : A) :
  (i < length l)%nat ->
  nth i (combine (seq 0 (length l)) l) (0%nat, d) = (i, nth i l d).
Proof.
  intros Hi. rewrite combine_nth by now rewrite length_seq.
  now rewrite seq_nth.
Qed.

Lemma nth_div_rows (lo hi : nat) (c : R) (M : matrix) (i : nat) :
  (i < length M)%nat ->
  nth i (div_rows lo hi c M) [] =
  if (lo <=? i)%nat && (i <? hi)%nat then map (fun v => v / c) (nth i M [])
  else nth i M [].
Proof.
  intros Hi. unfold div_rows.
  set (f := fun '(i, row) => _).
  rewrite (nth_indep _ [] (f (0%nat, []))).
  - rewrite map_nth, nth_combine_seq by assumption. reflexivity.
  - rewrite length_map, length_combine, length_seq. lia.
Qed.

Lemma length_div_rows (lo hi : nat) (c : R) (M : matrix) :
  length (div_rows lo hi c M) = length M.
Proof.
  unfold div_rows. rewrite length_map, length_combine, length_seq. lia.
Qed.

Lemma shape_div_rows (lo hi : nat) (c : R) (M : matrix) (n m : nat) :
  shape M n m -> shape (div_rows lo hi c M) n m.
Proof.
  intros [H1 H2]. split.
  - now rewrite length_div_rows.
  - intros i Hi. rewrite nth_div_rows by lia.
    destruct (_ && _); [rewrite length_map|]; now apply H2.
Qed.

Lemma get_div_rows (lo hi : nat) (c : R) (M : matrix) (n m i j : nat) :
  shape M n m -> (i < n)%nat -> (j < m)%nat ->
  get (div_rows lo hi c M) i j =
  if (lo <=? i)%nat && (i <? hi)%nat then get M i j / c else get M i j.
Proof.
  intros [H1 H2] Hi Hj. unfold get. rewrite nth_div_rows by lia.
  destruct (_ && _); [|reflexivity].
  rewrite (nth_indep _ 0 (0 / c)) by (rewrite length_map, H2; assumption).
  now rewrite (map_nth (fun v => v / c)).
Qed.

(** ** Rouwenhorst: the recursive construction *)

Lemma pad_zero_col (M : matrix) (a : nat) : pad M a 0 = 0.
Proof. now destruct a. Qed.

Lemma get_block_in_zeros (r0 c0 : nat) (c : R) (M : matrix) (k i j : nat) :
  (r0 <= 1)%nat -> (c0 <= 1)%nat -> shape M k k ->
  (i < S k)%nat -> (j < S k)%nat ->
  get (set_block r0 c0 (mat_scale c M) (zeros (S k) (S k))) i j
  = c * pad M (S i - r0) (S j - c0).
Proof.
  intros Hr Hc HM Hi Hj.
  pose proof (shape_mat_scale c M k k HM) as [HB1 HB2].
  unfold set_block.
  assert (Hz : shape (zeros (S k) (S k)) (S k) (S k)) by apply shape_zeros.
  destruct Hz as [Hz1 Hz2]. rewrite Hz1, Hz2 by lia.
  rewrite get_mk_matrix by assumption. rewrite HB1.
  destruct (Nat.leb_spec r0 i) as [Hri|Hri]; cbn [andb].
  2:{ rewrite get_zeros. replace (S i - r0)%nat with 0%nat by lia. cbn [pad]. ring. }
  replace (S i - r0)%nat with (S (i - r0)) by lia.
  destruct (Nat.ltb_spec i (r0 + k)) as [Hik|Hik]; cbn [andb].
  2:{ rewrite get_zeros. destruct (S j - c0)%nat; cbn [pad]; [ring|].
      rewrite get_overflow_row; [ring|]. destruct HM. lia. }
  rewrite HB2 by lia.
  destruct (Nat.leb_spec c0 j) as [Hcj|Hcj]; cbn [andb].
  2:{ rewrite get_zeros. replace (S j - c0)%nat with 0%nat by lia. rewrite pad_zero_col. ring. }
  replace (S j - c0)%nat with (S (j - c0)) by lia.
  destruct (Nat.ltb_spec j (c0 + k)) as [Hjk|Hjk]; cbn [andb].
  - cbn [pad]. apply get_mat_scale.
  - cbn [pad]. rewrite get_zeros, (get_overflow_col M k k) by (assumption || lia). ring.
Qed.

Lemma shape_block_in_zeros (r0 c0 : nat) (B : matrix) (n : nat) :
  (0 < n)%nat -> shape (set_block r0 c0 B (zeros n n)) n n.
Proof. intros Hn. apply shape_set_block; [assumption|apply shape_zeros]. Qed.

Lemma shape_row_build_step (n : nat) (p q : R) (M : matrix) :
  (0 < n)%nat -> shape (row_build_step n p q M) n n.
Proof.
  intros Hn. unfold row_build_step. apply shape_div_rows.
  repeat apply shape_mat_add; now apply shape_block_in_zeros.
Qed.

(** The entry of the enlarged matrix, from the four shifted copies. *)
Lemma get_row_build_step (k : nat) (p q : R) (M : matrix) (i j : nat) :
  shape M k k -> (i < S k)%nat -> (j < S k)%nat ->
  get (row_build_step (S k) p q M) i j =
  let s := p * pad M (S i) (S j) + (1 - p) * pad M (S i) j
           + (1 - q) * pad M i (S j) + q * pad M i j in
  if (1 <=? i)%nat && (i <? k)%nat then s / 2 else s.
Proof.
  intros HM Hi Hj. unfold row_build_step.
  assert (H0 : (0 < S k)%nat) by lia.
  rewrite (get_div_rows _ _ _ _ (S k) (S k)); try assumption.
  2:{ repeat apply shape_mat_add; now apply shape_block_in_zeros. }
  rewrite !(get_mat_add _ _ (S k) (S k)); try assumption;
    repeat apply shape_mat_add; try now apply shape_block_in_zeros.
  rewrite !get_block_in_zeros by (assumption || lia).
  replace (S k - 1)%nat with k by lia.
  replace (S i - 0)%nat with (S i) by lia.
  replace (S j - 0)%nat with (S j) by lia.
  replace (S i - 1)%nat with i by lia.
  replace (S j - 1)%nat with j by lia.
  reflexivity.
Qed.

(** ** Finite sums *)

Lemma sumn_ext (f g : nat -> R) (n : nat) :
  (forall j, (j < n)%nat -> f j = g j) -> sumn f n = sumn g n.
Proof.
  induction n as [|n IH]; intros H; simpl; [reflexivity|].
  rewrite IH, H by (intros; try apply H; lia). reflexivity.
Qed.

Lemma sumn_plus (f g : nat -> R) (n : nat) :
  sumn (fun j => f j + g j) n = sumn f n + sumn g n.
Proof. induction n as [|n IH]; simpl; [ring|]. rewrite IH. ring. Qed.

Lemma sumn_scale (c : R) (f : nat -> R) (n : nat) :
  sumn (fun j => c * f j) n = c * sumn f n.
Proof. induction n as [|n IH]; simpl; [ring|]. rewrite IH. ring. Qed.

Lemma sumn_shift (f : nat -> R) (n : nat) :
  sumn f (S n) = f 0%nat + sumn (fun j => f (S j)) n.
Proof.
  induction n as [|n IH]; [simpl; ring|].
  change (sumn f (S (S n))) with (sumn f (S n) + f (S n)).
  rewrite IH. simpl. ring.
Qed.

Lemma vsum_sumn (l : vector) : vsum l = sumn (fun j => nth j l 0) (length l).
Proof.
  induction l as [|a l IH]; [reflexivity|].
  cbn [length]. rewrite sumn_shift. simpl. now rewrite IH.
Qed.

Lemma sumn_nonneg (f : nat -> R) (n : nat) :
  (forall j, (j < n)%nat -> 0 <= f j) -> 0 <= sumn f n.
Proof.
  induction n as [|n IH]; intros H; simpl; [lra|].
  assert (0 <= sumn f n) by (apply IH; intros; apply H; lia).
  assert (0 <= f n) by (apply H; lia). lra.
Qed.

Lemma sumn_ge_term (f : nat -> R) (n j : nat) :
  (forall i, (i < n)%nat -> 0 <= f i) -> (j < n)%nat -> f j <= sumn f n.
Proof.
  induction n as [|n IH]; intros H Hj; [lia|]. simpl.
  assert (0 <= sumn f n) by (apply sumn_nonneg; intros; apply H; lia).
  assert (0 <= f n) by (apply H; lia).
  destruct (Nat.eq_dec j n) as [->|Hne]; [lra|].
  assert (f j <= sumn f n) by (apply IH; [intros; apply H|]; lia). lra.
Qed.

Lemma row_sum_get (M : matrix) (n m i : nat) :
  shape M n m -> (i < n)%nat -> vsum (nth i M []) = sumn (get M i) m.
Proof.
  intros [H1 H2] Hi. rewrite vsum_sumn, H2 by assumption. reflexivity.
Qed.

(** ** Rouwenhorst: the matrix is stochastic *)

Lemma stochastic_le_1 (M : matrix) (n i j : nat) :
  stochastic M n -> (i < n)%nat -> (j < n)%nat -> get M i j <= 1.
Proof.
  intros (Hs & Hpos & Hsum) Hi Hj.
  rewrite <- (Hsum i Hi), (row_sum_get M n n) by assumption.
  apply sumn_ge_term; [|assumption]. intros; now apply Hpos.
Qed.

Lemma pad_nonneg (M : matrix) (k a b : nat) :
  stochastic M k -> 0 <= pad M a b.
Proof.
  intros (Hs & Hpos & _). destruct a as [|i], b as [|j]; simpl; try lra.
  destruct (lt_dec i k) as [Hi|Hi].
  - destruct (lt_dec j k) as [Hj|Hj]; [now apply Hpos|].
    rewrite (get_overflow_col M k k) by (assumption || lia). lra.
  - rewrite get_overflow_row by (destruct Hs; lia). lra.
Qed.

(** The sum of row [a] of the padded matrix. *)
Lemma pad_row_sum (M : matrix) (k a : nat) :
  stochastic M k ->
  sumn (fun j => pad M a (S j)) k =
  if (1 <=? a)%nat && (a <=? k)%nat then 1 else 0.
Proof.
  intros (Hs & Hpos & Hsum). destruct a as [|i].
  - simpl. clear. induction k; simpl; lra.
  - cbn [pad]. destruct (Nat.leb_spec (S i) k) as [Hi|Hi]; simpl.
    + rewrite <- (Hsum i) by lia. symmetry. now apply (row_sum_get M k k).
    + rewrite (sumn_ext _ (fun _ => 0)).
      * clear. induction k; simpl; lra.
      * intros j _. apply get_overflow_row. destruct Hs. lia.
Qed.

Lemma pad_row_sum_shifted (M : matrix) (k a : nat) :
  stochastic M k ->
  sumn (fun j => pad M a j) (S k) = sumn (fun j => pad M a (S j)) k.
Proof. intros _. rewrite sumn_shift, pad_zero_col. ring. Qed.

Lemma pad_row_sum_wide (M : matrix) (k a : nat) :
  stochastic M k ->
  sumn (fun j => pad M a (S j)) (S k) = sumn (fun j => pad M a (S j)) k.
Proof.
  intros (Hs & _). simpl. destruct a as [|i]; simpl; [ring|].
  rewrite (get_overflow_col M k k) by (assumption || lia). ring.
Qed.

Lemma stochastic_row_build_step (k : nat) (p q : R) (M : matrix) :
  (1 <= k)%nat -> 0 <= p <= 1 -> 0 <= q <= 1 -> stochastic M k ->
  stochastic (row_build_step (S k) p q M) (S k).
Proof.
  intros Hk Hp Hq HM. pose proof HM as (Hs & Hpos & Hsum).
  assert (Hshape : shape (row_build_step (S k) p q M) (S k) (S k))
    by (apply shape_row_build_step; lia).
  split; [assumption|]. split.
  - intros i j Hi Hj. rewrite get_row_build_step by assumption. cbv zeta.
    pose proof (pad_nonneg M k (S i) (S j) HM).
    pose proof (pad_nonneg M k (S i) j HM).
    pose proof (pad_nonneg M k i (S j) HM).
    pose proof (pad_nonneg M k i j HM).
    assert (0 <= p * pad M (S i) (S j) + (1 - p) * pad M (S i) j
                 + (1 - q) * pad M i (S j) + q * pad M i j) by nra.
    destruct (_ && _); lra.
  - intros i Hi. rewrite (row_sum_get _ (S k) (S k)) by assumption.
    rewrite (sumn_ext _ (fun j =>
       (if (1 <=? i)%nat && (i <? k)%nat then / 2 else 1) *
       (p * pad M (S i) (S j) + (1 - p) * pad M (S i) j
        + (1 - q) * pad M i (S j) + q * pad M i j))).
    2:{ intros j Hj. rewrite get_row_build_step by assumption. cbv zeta.
        destruct (_ && _); lra. }
    rewrite sumn_scale, !sumn_plus, !sumn_scale.
    rewrite !pad_row_sum_shifted, !pad_row_sum_wide, !(pad_row_sum M k) by assumption.
    destruct (Nat.leb_spec 1 i), (Nat.ltb_spec i k), (Nat.leb_spec (S i) k),
      (Nat.leb_spec 1 (S i)), (Nat.leb_spec i k); simpl; try lia; lra.
Qed.

Lemma stochastic_base (p q : R) :
  0 <= p <= 1 -> 0 <= q <= 1 -> stochastic [[p; 1 - p]; [1 - q; q]] 2.
Proof.
  intros Hp Hq. split; [|split].
  - split; [reflexivity|]. intros [|[|i]] Hi; simpl; lia || reflexivity.
  - intros [|[|i]] [|[|j]] Hi Hj; unfold get; simpl; lia || lra.
  - intros [|[|i]] Hi; unfold vsum; simpl; lia || lra.
Qed.

(** For [n >= 2] the recursion returns, and what it returns is stochastic. *)
Lemma row_build_mat_stochastic (k : nat) (p q : R) :
  0 <= p <= 1 -> 0 <= q <= 1 ->
  exists theta, row_build_mat (S (S k)) p q = Return theta
                /\ stochastic theta (S (S k)).
Proof.
  intros Hp Hq. induction k as [|k (theta & Hrun & Hst)].
  - eexists. split; [reflexivity|]. now apply stochastic_base.
  - exists (row_build_step (S (S (S k))) p q theta). split.
    + change (row_build_mat (S (S (S k))) p q)
        with (bind (row_build_mat (S (S k)) p q)
                (fun new_mat => Return (row_build_step (S (S (S k))) p q new_mat))).
      rewrite Hrun. reflexivity.
    + apply stochastic_row_build_step; (lia || assumption).
Qed.

(** ** Rouwenhorst: central symmetry *)

Lemma pad_overflow_row (M : matrix) (k b : nat) :
  shape M k k -> pad M (S k) b = 0.
Proof.
  intros [H1 _]. destruct b; simpl; [reflexivity|].
  apply get_overflow_row. lia.
Qed.

Lemma pad_overflow_col (M : matrix) (k a : nat) :
  shape M k k -> pad M a (S k) = 0.
Proof.
  intros Hs. destruct a; simpl; [reflexivity|].
  apply (get_overflow_col M k k); [assumption|lia].
Qed.

Lemma pad_symmetric (M : matrix) (k a b : nat) :
  shape M k k -> centrally_symmetric M k ->
  (a <= S k)%nat -> (b <= S k)%nat ->
  pad M a b = pad M (S k - a) (S k - b).
Proof.
  intros Hs Hsym Ha Hb.
  destruct a as [|i].
  { rewrite Nat.sub_0_r, pad_overflow_row by assumption. reflexivity. }
  destruct b as [|j].
  { rewrite Nat.sub_0_r, pad_overflow_col, pad_zero_col by assumption. reflexivity. }
  destruct (Nat.eq_dec i k) as [->|Hi].
  { rewrite Nat.sub_diag, pad_overflow_row by assumption. reflexivity. }
  destruct (Nat.eq_dec j k) as [->|Hj].
  { rewrite Nat.sub_diag, pad_overflow_col, pad_zero_col by assumption. reflexivity. }
  replace (S k - S i)%nat with (S (k - 1 - i)) by lia.
  replace (S k - S j)%nat with (S (k - 1 - j)) by lia.
  cbn [pad]. apply Hsym; lia.
Qed.

Lemma centrally_symmetric_step (k : nat) (p : R) (M : matrix) :
  shape M k k -> centrally_symmetric M k ->
  centrally_symmetric (row_build_step (S k) p p M) (S k).
Proof.
  intros Hs Hsym i j Hi Hj.
  rewrite !get_row_build_step by (assumption || lia). cbv zeta.
  replace (S (S k - 1 - i)) with (S k - i)%nat by lia.
  replace (S (S k - 1 - j)) with (S k - j)%nat by lia.
  replace (S k - 1 - i)%nat with (S k - S i)%nat by lia.
  replace (S k - 1 - j)%nat with (S k - S j)%nat by lia.
  rewrite <- !(pad_symmetric M k) by (assumption || lia).
  replace ((1 <=? S k - S i)%nat && (S k - S i <? k)%nat)
    with ((1 <=? i)%nat && (i <? k)%nat).
  - destruct (_ && _); lra.
  - destruct (Nat.leb_spec 1 i), (Nat.ltb_spec i k),
      (Nat.leb_spec 1 (S k - S i)), (Nat.ltb_spec (S k - S i) k);
      simpl; lia || reflexivity.
Qed.

Lemma centrally_symmetric_base (p : R) :
  centrally_symmetric [[p; 1 - p]; [1 - p; p]] 2.
Proof.
  intros [|[|i]] [|[|j]] Hi Hj; unfold get; simpl; lia || reflexivity.
Qed.

Lemma row_build_mat_shape (k : nat) (p q : R) (theta : matrix) :
  row_build_mat (S (S k)) p q = Return theta -> shape theta (S (S k)) (S (S k)).
Proof.
  destruct k as [|k]; simpl.
  - intros [= <-]. split; [reflexivity|].
    intros [|[|i]] Hi; simpl; lia || reflexivity.
  - destruct (match k with O => _ | S _ => _ end); simpl; try discriminate.
    intros [= <-]. apply shape_row_build_step. lia.
Qed.

Lemma row_build_mat_symmetric (k : nat) (p : R) (theta : matrix) :
  row_build_mat (S (S k)) p p = Return theta ->
  centrally_symmetric theta (S (S k)).
Proof.
  revert theta. induction k as [|k IH]; intros theta.
  - simpl. intros [= <-]. apply centrally_symmetric_base.
  - change (row_build_mat (S (S (S k))) p p)
      with (bind (row_build_mat (S (S k)) p p)
              (fun new_mat => Return (row_build_step (S (S (S k))) p p new_mat))).
    destruct (row_build_mat (S (S k)) p p) as [M| |] eqn:E; simpl; try discriminate.
    intros [= <-]. apply centrally_symmetric_step.
    + now apply (row_build_mat_shape k p p).
    + now apply IH.
Qed.

(** ** Rouwenhorst: the run on a stable process *)

Lemma py_div_ok (a b : R) : b <> 0 -> py_div a b = Return (a / b).
Proof. intros H. unfold py_div. now destruct (Req_dec_T b 0). Qed.

Lemma math_sqrt_ok (a : R) : 0 <= a -> math_sqrt a = Return (sqrt a).
Proof. intros H. unfold math_sqrt. destruct (Rlt_dec a 0); [lra|reflexivity]. Qed.

Lemma variance_nonneg (sigma rho : R) :
  -1 < rho < 1 -> 0 <= sigma ^ 2 / (1 - rho ^ 2).
Proof.
  intros H. apply Rmult_le_pos; [nra|].
  apply Rlt_le, Rinv_0_lt_compat. nra.
Qed.

(** With [|rho| < 1] no arithmetic step of [rouwenhorst] raises: the call
    reduces to the recursive construction. *)
Lemma rouwenhorst_stable (n : nat) (ybar sigma rho : R) :
  -1 < rho < 1 ->
  rouwenhorst n ybar sigma rho =
  (theta <- row_build_mat n ((1 + rho) / 2) ((1 + rho) / 2) ;;
   Return (mkMarkovChain theta
     (map (fun y => y + ybar / (1 - rho))
        (linspace (- (sqrt (sigma ^ 2 / (1 - rho ^ 2)) * sqrt (INR n - 1)))
           (sqrt (sigma ^ 2 / (1 - rho ^ 2)) * sqrt (INR n - 1)) n)))).
Proof.
  intros H. unfold rouwenhorst.
  rewrite py_div_ok by nra. cbn [bind].
  rewrite math_sqrt_ok by now apply variance_nonneg. cbn [bind].
  destruct (row_build_mat n _ _); cbn [bind]; try reflexivity.
  rewrite py_div_ok by lra. reflexivity.
Qed.

(** ** In-place updates *)

Lemma length_upd {A : Type} (i : nat) (v : A) (l : list A) :
  length (upd i v l) = length l.
Proof.
  revert i. induction l as [|a l IH]; intros [|i]; simpl; auto.
Qed.

Lemma nth_upd {A : Type} (i i' : nat) (v d : A) (l : list A) :
  (i < length l)%nat ->
  nth i' (upd i v l) d = if (i' =? i)%nat then v else nth i' l d.
Proof.
  revert i i'. induction l as [|a l IH]; intros i i' Hi; simpl in Hi; [lia|].
  destruct i as [|i], i' as [|i']; simpl; try reflexivity.
  apply IH. lia.
Qed.

Lemma shape_set_entry (M : matrix) (n m i j : nat) (v : R) :
  shape M n m -> (i < n)%nat -> shape (set_entry M i j v) n m.
Proof.
  intros [H1 H2] Hi. unfold set_entry. split.
  - now rewrite length_upd.
  - intros i' Hi'. rewrite nth_upd by lia.
    destruct (Nat.eqb_spec i' i); [rewrite length_upd|]; now apply H2.
Qed.

Lemma get_set_entry (M : matrix) (n m i j i' j' : nat) (v : R) :
  shape M n m -> (i < n)%nat -> (j < m)%nat ->
  get (set_entry M i j v) i' j' =
  if (i' =? i)%nat && (j' =? j)%nat then v else get M i' j'.
Proof.
  intros [H1 H2] Hi Hj. unfold get, set_entry.
  rewrite nth_upd by lia.
  destruct (Nat.eqb_spec i' i) as [->|Hne]; [|reflexivity].
  rewrite nth_upd by (rewrite H2; assumption). reflexivity.
Qed.

(** A loop that writes one cell of row [i] per iteration. *)
Lemma fill_cells (e : nat -> R) (n m i : nat) (js : list nat) (P : matrix) :
  shape P n m -> (i < n)%nat -> (forall j, In j js -> (j < m)%nat) ->
  let P' := fold_left (fun P j => set_entry P i j (e j)) js P in
  shape P' n m /\
  forall i' j', get P' i' j' =
    if (i' =? i)%nat && existsb (Nat.eqb j') js then e j' else get P i' j'.
Proof.
  revert P. induction js as [|j js IH]; intros P HP Hi Hjs; cbn zeta.
  - split; [assumption|]. intros i' j'. simpl. now rewrite andb_false_r.
  - cbn [fold_left].
    destruct (IH (set_entry P i j (e j))) as [Hs Hg].
    + now apply shape_set_entry.
    + assumption.
    + intros; apply Hjs; now right.
    + split; [exact Hs|]. intros i' j'. rewrite Hg.
      rewrite (get_set_entry P n m) by (try assumption; apply Hjs; now left).
      cbn [existsb].
      destruct (Nat.eqb_spec i' i), (Nat.eqb_spec j' j), (existsb (Nat.eqb j') js);
        subst; simpl; reflexivity.
Qed.

(** A loop that rewrites row [i] in iteration [i] and leaves the others. *)
Lemma fill_rows (step : matrix -> nat -> matrix) (r : nat -> nat -> R)
    (n m : nat) (rows : list nat) (P : matrix) :
  (forall P i, shape P n m -> (i < n)%nat ->
     shape (step P i) n m /\
     forall i' j', (j' < m)%nat ->
       get (step P i) i' j' = if (i' =? i)%nat then r i j' else get P i' j') ->
  shape P n m -> (forall i, In i rows -> (i < n)%nat) ->
  shape (fold_left step rows P) n m /\
  forall i' j', (j' < m)%nat ->
    get (fold_left step rows P) i' j' =
    if existsb (Nat.eqb i') rows then r i' j' else get P i' j'.
Proof.
  intros Hstep. revert P. induction rows as [|i rows IH]; intros P HP Hrows.
  - split; [assumption|]. reflexivity.
  - cbn [fold_left]. destruct (Hstep P i HP) as [Hs Hg]; [apply Hrows; now left|].
    destruct (IH (step P i) Hs) as [Hs' Hg']; [intros; apply Hrows; now right|].
    split; [exact Hs'|]. intros i' j' Hj'. rewrite Hg', Hg by assumption.
    cbn [existsb].
    destruct (Nat.eqb_spec i' i), (existsb (Nat.eqb i') rows); subst; reflexivity.
Qed.

Lemma existsb_eqb_seq (j lo len : nat) :
  existsb (Nat.eqb j) (seq lo len) = (lo <=? j)%nat && (j <? lo + len)%nat.
Proof.
  revert lo. induction len as [|len IH]; intros lo; simpl.
  - destruct (Nat.leb_spec lo j), (Nat.ltb_spec j (lo + 0)); simpl; lia || reflexivity.
  - rewrite IH.
    destruct (Nat.eqb_spec j lo), (Nat.leb_spec (S lo) j), (Nat.leb_spec lo j),
      (Nat.ltb_spec j (S lo + len)), (Nat.ltb_spec j (lo + S len));
      simpl; lia || reflexivity.
Qed.

Lemma foldM_pure {A St : Type} (body : St -> A -> outcome St) (f : St -> A -> St)
    (l : list A) (s : St) :
  (forall s a, In a l -> body s a = Return (f s a)) ->
  foldM body l s = Return (fold_left f l s).
Proof.
  revert s. induction l as [|a l IH]; intros s H; simpl; [reflexivity|].
  rewrite H by now left. simpl. apply IH. intros; apply H; now right.
Qed.

(** ** Tauchen: the fill kernel *)

Lemma INR_minus_1_pos (n : nat) : (2 <= n)%nat -> 1 <= INR n - 1.
Proof.
  intros H. apply le_INR in H. change (INR 2) with (1 + 1) in H. lra.
Qed.

Section TauchenFacts.

Variable erfc : R -> R.

Lemma fill_tauchen_returns (x : vector) (P : matrix) (n : nat)
    (rho sigma half_step : R) :
  sigma <> 0 ->
  _fill_tauchen erfc x P n rho sigma half_step =
  Return (fold_left (fill_tauchen_row erfc x n rho sigma half_step) (seq 0 n) P).
Proof.
  intros Hs. unfold _fill_tauchen. apply foldM_pure. intros Q i _.
  rewrite !py_div_ok by assumption. cbn [bind].
  unfold fill_tauchen_row. apply foldM_pure. intros Q' j _.
  cbv zeta. rewrite !py_div_ok by assumption. reflexivity.
Qed.

Lemma fill_tauchen_row_spec (x : vector) (n : nat) (rho sigma half_step : R)
    (P : matrix) (i : nat) :
  (2 <= n)%nat -> shape P n n -> (i < n)%nat ->
  shape (fill_tauchen_row erfc x n rho sigma half_step P i) n n /\
  forall i' j', (j' < n)%nat ->
    get (fill_tauchen_row erfc x n rho sigma half_step P i) i' j' =
    if (i' =? i)%nat then tauchen_closed_form erfc x n rho sigma half_step i j'
    else get P i' j'.
Proof.
  intros Hn HP Hi. unfold fill_tauchen_row.
  set (a := std_norm_cdf erfc _). set (b := 1 - _).
  set (P1 := set_entry P i 0 a). set (P2 := set_entry P1 i (n - 1) b).
  assert (HP1 : shape P1 n n) by now apply shape_set_entry.
  assert (HP2 : shape P2 n n) by now apply shape_set_entry.
  destruct (fill_cells
    (fun j => std_norm_cdf erfc ((nth j x 0 - rho * nth i x 0 + half_step) / sigma)
              - std_norm_cdf erfc ((nth j x 0 - rho * nth i x 0 - half_step) / sigma))
    n n i (seq 1 (n - 2)) P2 HP2 Hi) as [Hs Hg].
  { intros j Hj. apply in_seq in Hj. lia. }
  split; [exact Hs|]. intros i' j' Hj'.
  cbv zeta in Hg. rewrite Hg, existsb_eqb_seq.
  unfold P2. rewrite (get_set_entry P1 n n) by (assumption || lia).
  unfold P1. rewrite (get_set_entry P n n) by (assumption || lia).
  unfold tauchen_closed_form, a, b, std_norm_cdf.
  destruct (Nat.eqb_spec i' i) as [->|Hne]; cbn [andb]; [|reflexivity].
  destruct (Nat.eqb_spec j' 0), (Nat.eqb_spec j' (n - 1)), (Nat.leb_spec 1 j'),
    (Nat.ltb_spec j' (1 + (n - 2))); subst; cbn [andb]; try lia; reflexivity.
Qed.

Lemma fill_tauchen_spec (x : vector) (n : nat) (rho sigma half_step : R)
    (P : matrix) :
  (2 <= n)%nat -> shape P n n ->
  let P' := fold_left (fill_tauchen_row erfc x n rho sigma half_step) (seq 0 n) P in
  shape P' n n /\
  forall i j, (i < n)%nat -> (j < n)%nat ->
    get P' i j = tauchen_closed_form erfc x n rho sigma half_step i j.
Proof.
  intros Hn HP.
  destruct (fill_rows (fill_tauchen_row erfc x n rho sigma half_step)
              (tauchen_closed_form erfc x n rho sigma half_step)
              n n (seq 0 n) P) as [Hs Hg].
  - intros Q i HQ Hi. now apply fill_tauchen_row_spec.
  - assumption.
  - intros i Hi. apply in_seq in Hi. lia.
  - split; [exact Hs|]. intros i j Hi Hj. rewrite Hg, existsb_eqb_seq by assumption.
    destruct (Nat.leb_spec 0 i), (Nat.ltb_spec i (0 + n)); cbn [andb]; try lia.
    reflexivity.
Qed.

Lemma np_sqrt_ok (a : R) : 0 <= a -> np_sqrt a = Return (sqrt a).
Proof. intros H. unfold np_sqrt. destruct (Rlt_dec a 0); [lra|reflexivity]. Qed.

Lemma np_div_ok (a b : R) : b <> 0 -> np_div a b = Return (a / b).
Proof. intros H. unfold np_div. now destruct (Req_dec_T b 0). Qed.

(** On a stable process with a grid of at least two points, nothing in
    [tauchen] raises or leaves the finite reals. *)
Lemma tauchen_stable (rho sigma_u b m : R) (n : nat) :
  -1 < rho < 1 -> sigma_u <> 0 -> (2 <= n)%nat ->
  tauchen erfc rho sigma_u b m n =
  Return (mkMarkovChain
    (fold_left (fill_tauchen_row erfc (tauchen_grid rho sigma_u m n) n rho sigma_u
                  (tauchen_half_step rho sigma_u m n))
       (seq 0 n) (np_empty n n))
    (map (fun y => y + b / (1 - rho)) (tauchen_grid rho sigma_u m n))).
Proof.
  intros Hrho Hs Hn. unfold tauchen.
  rewrite py_div_ok by nra. cbn [bind].
  rewrite np_sqrt_ok by now apply variance_nonneg. cbn [bind].
  rewrite np_div_ok by (pose proof (INR_minus_1_pos n Hn); lra). cbn [bind].
  rewrite fill_tauchen_returns by assumption. cbn [bind].
  rewrite py_div_ok by lra. reflexivity.
Qed.

(** *** Rows of the closed form sum to 1 on an evenly spaced grid *)

Lemma sumn_telescope (F : nat -> R) (k : nat) :
  sumn (fun j => F (S j) - F j) k = F k - F 0%nat.
Proof. induction k as [|k IH]; simpl; [ring|]. rewrite IH. ring. Qed.

Lemma closed_form_row_sum (x : vector) (n : nat) (rho sigma h : R) (i : nat) :
  (2 <= n)%nat ->
  (forall j, (S j < n)%nat -> nth (S j) x 0 - h = nth j x 0 + h) ->
  sumn (tauchen_closed_form erfc x n rho sigma h i) n = 1.
Proof.
  intros Hn Hgrid. destruct n as [|[|k]]; try lia.
  set (F := fun j => 0.5 * erfc (- ((nth j x 0 - rho * nth i x 0 + h) / sigma) / sqrt 2)).
  change (sumn (tauchen_closed_form erfc x (S (S k)) rho sigma h i) (S (S k)))
    with (sumn (tauchen_closed_form erfc x (S (S k)) rho sigma h i) (S k)
          + tauchen_closed_form erfc x (S (S k)) rho sigma h i (S k)).
  rewrite sumn_shift.
  rewrite (sumn_ext _ (fun j => F (S j) - F j)).
  - rewrite sumn_telescope.
    unfold tauchen_closed_form. cbn [Nat.eqb].
    replace (S (S k) - 1)%nat with (S k) by lia. rewrite Nat.eqb_refl.
    replace (nth (S k) x 0 - rho * nth i x 0 - h)
      with (nth k x 0 - rho * nth i x 0 + h)
      by (pose proof (Hgrid k ltac:(lia)); lra).
    unfold F. ring.
  - intros j Hj. unfold tauchen_closed_form. cbn [Nat.eqb].
    replace (S (S k) - 1)%nat with (S k) by lia.
    destruct (Nat.eqb_spec j k); [lia|]. cbv zeta.
    replace (nth (S j) x 0 - rho * nth i x 0 - h)
      with (nth j x 0 - rho * nth i x 0 + h)
      by (pose proof (Hgrid j ltac:(lia)); lra).
    reflexivity.
Qed.

Lemma tauchen_grid_spacing (rho sigma_u m : R) (n j : nat) :
  (S j < n)%nat ->
  nth (S j) (tauchen_grid rho sigma_u m n) 0 - tauchen_half_step rho sigma_u m n
  = nth j (tauchen_grid rho sigma_u m n) 0 + tauchen_half_step rho sigma_u m n.
Proof.
  intros Hj. unfold tauchen_grid, linspace, tauchen_half_step.
  rewrite !nth_mk_vector by lia. rewrite S_INR. lra.
Qed.

(** *** Entries of the closed form lie in [0, 1] *)

Hypothesis erfc_range : forall t, 0 <= erfc t <= 2.
Hypothesis erfc_antitone : forall s t, s <= t -> erfc t <= erfc s.

Lemma closed_form_range (x : vector) (n : nat) (rho sigma h : R) (i j : nat) :
  0 < sigma -> 0 <= h ->
  0 <= tauchen_closed_form erfc x n rho sigma h i j <= 1.
Proof.
  intros Hs Hh. unfold tauchen_closed_form. cbv zeta.
  destruct (j =? 0)%nat; [|destruct (j =? n - 1)%nat].
  - pose proof (erfc_range (- ((nth 0 x 0 - rho * nth i x 0 + h) / sigma) / sqrt 2)). lra.
  - pose proof (erfc_range
      (- ((nth (n - 1) x 0 - rho * nth i x 0 - h) / sigma) / sqrt 2)). lra.
  - set (z := nth j x 0 - rho * nth i x 0).
    pose proof (erfc_range (- ((z + h) / sigma) / sqrt 2)).
    pose proof (erfc_range (- ((z - h) / sigma) / sqrt 2)).
    assert (Hmono : erfc (- ((z - h) / sigma) / sqrt 2)
                    <= erfc (- ((z + h) / sigma) / sqrt 2)).
    { apply erfc_antitone.
      assert (0 < / sigma) by now apply Rinv_0_lt_compat.
      assert (0 < / sqrt 2) by (apply Rinv_0_lt_compat, sqrt_lt_R0; lra).
      unfold Rdiv. apply Rmult_le_compat_r; [lra|]. nra. }
    lra.
Qed.

End TauchenFacts.

Lemma matrix_ext (M N : matrix) (n m : nat) :
  shape M n m -> shape N n m ->
  (forall i j, (i < n)%nat -> (j < m)%nat -> get M i j = get N i j) -> M = N.
Proof.
  intros [HM1 HM2] [HN1 HN2] H.
  apply (nth_ext _ _ [] []); [congruence|].
  intros i Hi. apply (nth_ext _ _ 0 0).
  - rewrite HM2, HN2 by lia. reflexivity.
  - intros j Hj. apply H; [lia|]. rewrite HM2 in Hj by lia. exact Hj.
Qed.

(** The cells that [np.empty] leaves unspecified do not reach the result. *)
Lemma fill_tauchen_any_P (erfc : R -> R) (x : vector) (n : nat)
    (rho sigma h : R) (P Q : matrix) :
  (2 <= n)%nat -> shape P n n -> shape Q n n ->
  fold_left (fill_tauchen_row erfc x n rho sigma h) (seq 0 n) P
  = fold_left (fill_tauchen_row erfc x n rho sigma h) (seq 0 n) Q.
Proof.
  intros Hn HP HQ.
  destruct (fill_tauchen_spec erfc x n rho sigma h P Hn HP) as [HsP HgP].
  destruct (fill_tauchen_spec erfc x n rho sigma h Q Hn HQ) as [HsQ HgQ].
  apply (matrix_ext _ _ n n); try assumption.
  intros i j Hi Hj. now rewrite HgP, HgQ.
Qed.

Lemma erfc_like_range (t : R) : 0 <= erfc_like t <= 2.
Proof.
  unfold erfc_like, Rmin, Rmax.
  destruct (Rle_dec 0 (1 - t)); destruct (Rle_dec 2 _); lra.
Qed.

Lemma erfc_like_antitone (s t : R) : s <= t -> erfc_like t <= erfc_like s.
Proof.
  intros H. unfold erfc_like, Rmin, Rmax.
  destruct (Rle_dec 0 (1 - t)), (Rle_dec 0 (1 - s));
    repeat match goal with |- context [Rle_dec ?a ?b] => destruct (Rle_dec a b) end;
    lra.
Qed.

(** ** Rouwenhorst and Tauchen: the transition matrices *)

(** In exact arithmetic: for [n >= 2], [|rho| < 1] and [sigma > 0] the
    matrix of [rouwenhorst] has every row summing to 1 and every entry in
    [0, 1]; so has the matrix of [tauchen] for [n >= 2], [m > 0],
    [sigma_u > 0], [|rho| < 1].  Of [erfc] only its range [0, 2] and its
    monotonicity are used.  The Tauchen sum telescopes because the upper
    edge of a cell is the lower edge of the next one; the code computes the
    two edges separately, so this says nothing about how far the rounded
    sums are from 1. *)
Theorem transition_matrices_stochastic (erfc : R -> R) (n : nat)
    (ybar sigma rho sigma_u b m : R) :
  (forall t, 0 <= erfc t <= 2) ->
  (forall s t, s <= t -> erfc t <= erfc s) ->
  (2 <= n)%nat -> -1 < rho < 1 -> 0 < sigma -> 0 < m -> 0 < sigma_u ->
  (exists mc, rouwenhorst n ybar sigma rho = Return mc
              /\ is_transition_matrix (mc_P mc) n)
  /\ (exists mc, tauchen erfc rho sigma_u b m n = Return mc
                 /\ is_transition_matrix (mc_P mc) n).
Proof.
  intros Hrange Hanti Hn Hrho Hsigma Hm Hsu. split.
  - rewrite rouwenhorst_stable by assumption.
    destruct n as [|[|k]]; try lia.
    destruct (row_build_mat_stochastic k ((1 + rho) / 2) ((1 + rho) / 2))
      as (theta & Hrun & Hst); try lra.
    rewrite Hrun. cbn [bind]. eexists. split; [reflexivity|]. cbn [mc_P].
    pose proof Hst as (Hs & Hpos & Hsum).
    repeat split; try assumption; try (now apply Hs); try (now apply Hpos).
    now apply (stochastic_le_1 theta (S (S k))).
  - rewrite tauchen_stable by (assumption || lra).
    eexists. split; [reflexivity|]. cbn [mc_P].
    destruct (fill_tauchen_spec erfc (tauchen_grid rho sigma_u m n) n rho sigma_u
                (tauchen_half_step rho sigma_u m n) (np_empty n n) Hn)
      as [Hs Hg]; [apply shape_zeros|].
    split; [exact Hs|]. split.
    + intros i Hi. rewrite (row_sum_get _ n n) by assumption.
      rewrite (sumn_ext _ (tauchen_closed_form erfc (tauchen_grid rho sigma_u m n) n
                             rho sigma_u (tauchen_half_step rho sigma_u m n) i))
        by (intros j Hj; now apply Hg).
      apply closed_form_row_sum; [assumption|].
      intros j Hj. now apply tauchen_grid_spacing.
    + intros i j Hi Hj. rewrite Hg by assumption.
      apply closed_form_range; try assumption.
      unfold tauchen_half_step.
      pose proof (sqrt_pos (sigma_u ^ 2 / (1 - rho ^ 2))) as Hsq.
      fold (tauchen_std_y rho sigma_u) in Hsq.
      pose proof (INR_minus_1_pos n Hn).
      assert (0 <= (m * tauchen_std_y rho sigma_u - - (m * tauchen_std_y rho sigma_u))
                   / (INR n - 1)).
      { apply Rmult_le_pos; [nra|]. apply Rlt_le, Rinv_0_lt_compat. lra. }
      lra.
Qed.

Lemma transition_matrices_stochastic_witness :
  (exists mc, rouwenhorst 3 0 1 (1 / 2) = Return mc
              /\ is_transition_matrix (mc_P mc) 3)
  /\ (exists mc, tauchen erfc_like (1 / 2) 1 0 3 3 = Return mc
                 /\ is_transition_matrix (mc_P mc) 3).
Proof.
  apply (transition_matrices_stochastic erfc_like 3 0 1 (1 / 2) 1 0 3).
  - exact erfc_like_range.
  - exact erfc_like_antitone.
  - lia.
  - lra.
  - lra.
  - lra.
  - lra.
Defined.

(** C2: when no division raises ([sigma <> 0]) and the grid has at least two
    points, [_fill_tauchen] returns a matrix whose entry [(i, j)] is the
    closed form of the spec: the leftmost, the rightmost and the interior
    formula, with [Phi(t) = 0.5 * erfc(-t / sqrt 2)]; [tauchen] returns this
    matrix for its grid and half step. *)
Theorem tauchen_entries_closed_form (erfc : R -> R) (x : vector) (P0 : matrix)
    (n : nat) (rho sigma half_step b m : R) :
  (2 <= n)%nat -> sigma <> 0 -> shape P0 n n ->
  (exists P, _fill_tauchen erfc x P0 n rho sigma half_step = Return P
             /\ forall i j, (i < n)%nat -> (j < n)%nat ->
                  get P i j = tauchen_closed_form erfc x n rho sigma half_step i j)
  /\ (forall t, std_norm_cdf erfc t = 0.5 * erfc (- t / sqrt 2))
  /\ (-1 < rho < 1 ->
      exists mc, tauchen erfc rho sigma b m n = Return mc
        /\ forall i j, (i < n)%nat -> (j < n)%nat ->
             get (mc_P mc) i j =
             tauchen_closed_form erfc (tauchen_grid rho sigma m n) n rho sigma
               (tauchen_half_step rho sigma m n) i j).
Proof.
  intros Hn Hs HP. split; [|split].
  - rewrite fill_tauchen_returns by assumption. eexists. split; [reflexivity|].
    now apply fill_tauchen_spec.
  - reflexivity.
  - intros Hrho. rewrite tauchen_stable by assumption.
    eexists. split; [reflexivity|]. cbn [mc_P].
    apply fill_tauchen_spec; [assumption|apply shape_zeros].
Qed.

Lemma tauchen_entries_closed_form_witness :
  (exists P, _fill_tauchen erfc_like [-1; 0; 1] (zeros 3 3) 3 (1 / 2) 1 (1 / 2)
             = Return P
             /\ forall i j, (i < 3)%nat -> (j < 3)%nat ->
                  get P i j
                  = tauchen_closed_form erfc_like [-1; 0; 1] 3 (1 / 2) 1 (1 / 2) i j)
  /\ (forall t, std_norm_cdf erfc_like t = 0.5 * erfc_like (- t / sqrt 2))
  /\ (-1 < 1 / 2 < 1 ->
      exists mc, tauchen erfc_like (1 / 2) 1 0 3 3 = Return mc
        /\ forall i j, (i < 3)%nat -> (j < 3)%nat ->
             get (mc_P mc) i j =
             tauchen_closed_form erfc_like (tauchen_grid (1 / 2) 1 3 3) 3 (1 / 2) 1
               (tauchen_half_step (1 / 2) 1 3 3) i j).
Proof.
  apply (tauchen_entries_closed_form erfc_like [-1; 0; 1] (zeros 3 3) 3 (1 / 2) 1
           (1 / 2) 0 3).
  - lia.
  - lra.
  - apply shape_zeros.
Defined.

(** C10, amended: for [n >= 2] and [|rho| < 1], with the sums and products
    of [row_build_mat] evaluated exactly, the matrix [theta] of
    [rouwenhorst] is centrally symmetric,
    [theta[i, j] = theta[n-1-i, n-1-j]].  The floats the code stores are
    roundings of these values along different addition orders; see
    [Binary64] for what rounding does to the equality. *)
Theorem rouwenhorst_centrally_symmetric (n : nat) (ybar sigma rho : R) :
  (2 <= n)%nat -> -1 < rho < 1 ->
  exists mc, rouwenhorst n ybar sigma rho = Return mc
             /\ forall i j, (i < n)%nat -> (j < n)%nat ->
                  get (mc_P mc) i j = get (mc_P mc) (n - 1 - i) (n - 1 - j).
Proof.
  intros Hn Hrho. rewrite rouwenhorst_stable by assumption.
  destruct n as [|[|k]]; try lia.
  destruct (row_build_mat_stochastic k ((1 + rho) / 2) ((1 + rho) / 2))
    as (theta & Hrun & _); try lra.
  rewrite Hrun. cbn [bind]. eexists. split; [reflexivity|]. cbn [mc_P].
  now apply (row_build_mat_symmetric k ((1 + rho) / 2)).
Qed.

Lemma rouwenhorst_centrally_symmetric_witness :
  exists mc, rouwenhorst 4 1 2 (1 / 3) = Return mc
             /\ forall i j, (i < 4)%nat -> (j < 4)%nat ->
                  get (mc_P mc) i j = get (mc_P mc) (4 - 1 - i) (4 - 1 - j).
Proof.
  apply (rouwenhorst_centrally_symmetric 4 1 2 (1 / 3)).
  - lia.
  - lra.
Defined.

(** The two-state chain of a white-noise process, as in the spec:
    [theta = [[0.5, 0.5], [0.5, 0.5]]] on the states [-1, 1]. *)
Example rouwenhorst_two_states :
  rouwenhorst 2 0 1 0
  = Return (mkMarkovChain [[1 / 2; 1 / 2]; [1 / 2; 1 / 2]] [-1; 1]).
Proof.
  rewrite rouwenhorst_stable by lra. cbn [row_build_mat bind].
  replace (1 ^ 2 / (1 - 0 ^ 2)) with 1 by field.
  replace (INR 2 - 1) with 1 by (simpl; ring).
  rewrite sqrt_1. unfold linspace, mk_vector. cbn [seq map INR].
  replace ((1 + 0) / 2) with (1 / 2) by field.
  replace (1 - 1 / 2) with (1 / 2) by field.
  replace (- (1 * 1) + 0 * ((1 * 1 - - (1 * 1)) / (1 + 1 - 1)) + 0 / (1 - 0))
    with (-1) by field.
  replace (- (1 * 1) + 1 * ((1 * 1 - - (1 * 1)) / (1 + 1 - 1)) + 0 / (1 - 0))
    with 1 by field.
  reflexivity.
Qed.

(** ** Unstable processes *)

Lemma py_div_zero (a b : R) : b = 0 -> py_div a b = Raise ZeroDivisionError.
Proof. intros H. unfold py_div. now destruct (Req_dec_T b 0). Qed.

Lemma variance_negative (sigma rho : R) :
  1 < Rabs rho -> sigma <> 0 -> sigma ^ 2 / (1 - rho ^ 2) < 0.
Proof.
  intros Hrho Hs.
  assert (H1 : 1 - rho ^ 2 < 0)
    by (unfold Rabs in Hrho; destruct (Rcase_abs rho); nra).
  assert (H2 : 0 < sigma ^ 2) by nra.
  assert (H3 : / (1 - rho ^ 2) < 0) by now apply Rinv_lt_0_compat.
  unfold Rdiv. nra.
Qed.

Lemma unit_root (rho : R) : Rabs rho = 1 -> 1 - rho ^ 2 = 0.
Proof. unfold Rabs. destruct (Rcase_abs rho); intros; nra. Qed.

(** C7, as stated, fails: at [rho = 1] both constructors stop with the
    [ZeroDivisionError] of the division by [1 - rho**2], which is not a
    [ValueError] naming a precondition. *)
Lemma unit_root_raises_zero_division :
  rouwenhorst 2 0 1 1 = Raise ZeroDivisionError
  /\ tauchen erfc_like 1 1 0 3 7 = Raise ZeroDivisionError
  /\ ~ raises_DomainError (rouwenhorst 2 0 1 1)
  /\ ~ raises_DomainError (tauchen erfc_like 1 1 0 3 7).
Proof.
  assert (H1 : rouwenhorst 2 0 1 1 = Raise ZeroDivisionError).
  { unfold rouwenhorst. rewrite py_div_zero by ring. reflexivity. }
  assert (H2 : tauchen erfc_like 1 1 0 3 7 = Raise ZeroDivisionError).
  { unfold tauchen. rewrite py_div_zero by ring. reflexivity. }
  repeat split; try assumption.
  - intros [msg Hmsg]. rewrite H1 in Hmsg. discriminate.
  - intros [msg Hmsg]. rewrite H2 in Hmsg. discriminate.
Qed.

(** C7, amended: neither constructor checks [rho].  For [|rho| = 1] both
    raise the [ZeroDivisionError] of the division by [1 - rho**2]; for
    [|rho| > 1] and [sigma <> 0], [rouwenhorst] raises the [ValueError] of
    [math.sqrt] and [tauchen] raises nothing at the variance: [np.sqrt]
    yields NaN. *)
Theorem unstable_rho_outcomes (erfc : R -> R) (n : nat)
    (ybar sigma rho sigma_u b m : R) :
  1 <= Rabs rho ->
  (Rabs rho = 1 ->
     rouwenhorst n ybar sigma rho = Raise ZeroDivisionError
     /\ tauchen erfc rho sigma_u b m n = Raise ZeroDivisionError)
  /\ (1 < Rabs rho -> sigma <> 0 ->
      rouwenhorst n ybar sigma rho = Raise (ValueError "math domain error"))
  /\ (1 < Rabs rho -> sigma_u <> 0 ->
      tauchen erfc rho sigma_u b m n = NonFinite).
Proof.
  intros _. split; [|split].
  - intros H1. apply unit_root in H1.
    split; [unfold rouwenhorst|unfold tauchen];
      rewrite py_div_zero by assumption; reflexivity.
  - intros H1 Hs. unfold rouwenhorst.
    assert (Hd : 1 - rho ^ 2 <> 0)
      by (unfold Rabs in H1; destruct (Rcase_abs rho); nra).
    rewrite py_div_ok by assumption. cbn [bind]. unfold math_sqrt.
    destruct (Rlt_dec _ 0) as [_|Hn]; [reflexivity|].
    exfalso. apply Hn. now apply variance_negative.
  - intros H1 Hs. unfold tauchen.
    assert (Hd : 1 - rho ^ 2 <> 0)
      by (unfold Rabs in H1; destruct (Rcase_abs rho); nra).
    rewrite py_div_ok by assumption. cbn [bind]. unfold np_sqrt.
    destruct (Rlt_dec _ 0) as [_|Hn]; [reflexivity|].
    exfalso. apply Hn. now apply variance_negative.
Qed.

Lemma unstable_rho_outcomes_witness :
  (Rabs 2 = 1 ->
     rouwenhorst 5 0 1 2 = Raise ZeroDivisionError
     /\ tauchen erfc_like 2 1 0 3 5 = Raise ZeroDivisionError)
  /\ (1 < Rabs 2 -> 1 <> 0 ->
      rouwenhorst 5 0 1 2 = Raise (ValueError "math domain error"))
  /\ (1 < Rabs 2 -> 1 <> 0 ->
      tauchen erfc_like 2 1 0 3 5 = NonFinite).
Proof.
  apply (unstable_rho_outcomes erfc_like 5 0 1 2 1 0 3).
  rewrite Rabs_right; lra.
Defined.

(** ** Cartesian product: sorting a tiled grid *)

Lemma insert_sorted_perm (a : R) (l : vector) :
  Permutation (insert_sorted a l) (a :: l).
Proof.
  induction l as [|b l IH]; simpl; [reflexivity|].
  destruct (Rle_dec a b); [reflexivity|].
  rewrite IH. apply perm_swap.
Qed.

Lemma np_sort_perm (l : vector) : Permutation (np_sort l) l.
Proof.
  induction l as [|a l IH]; simpl; [reflexivity|].
  rewrite insert_sorted_perm. now constructor.
Qed.

Lemma insert_sorted_sorted (a : R) (l : vector) :
  StronglySorted Rle l -> StronglySorted Rle (insert_sorted a l).
Proof.
  induction l as [|b l IH]; intros Hl; simpl.
  - constructor; constructor.
  - apply StronglySorted_inv in Hl as [Hl Hb].
    destruct (Rle_dec a b) as [Hab|Hab].
    + constructor; [now constructor|].
      constructor; [assumption|].
      eapply Forall_impl; [|exact Hb]. intros c Hc. simpl in Hc. lra.
    + constructor; [now apply IH|].
      eapply Permutation_Forall; [symmetry; apply insert_sorted_perm|].
      constructor; [lra|assumption].
Qed.

Lemma np_sort_sorted (l : vector) : StronglySorted Rle (np_sort l).
Proof.
  induction l as [|a l IH]; simpl; [constructor|].
  now apply insert_sorted_sorted.
Qed.

Lemma sorted_perm_unique (l l' : vector) :
  StronglySorted Rle l -> StronglySorted Rle l' -> Permutation l l' -> l = l'.
Proof.
  revert l'. induction l as [|a l IH]; intros l' Hl Hl' Hp.
  - apply Permutation_nil in Hp. now subst.
  - destruct l' as [|b l'].
    { symmetry in Hp. now apply Permutation_nil in Hp. }
    apply StronglySorted_inv in Hl as [Hl Ha].
    apply StronglySorted_inv in Hl' as [Hl' Hb].
    assert (Hab : a = b).
    { assert (In b (a :: l)) as [Hin|Hin]
        by (eapply Permutation_in; [symmetry; exact Hp|now left]);
        [assumption|].
      assert (In a (b :: l')) as [Hin'|Hin']
        by (eapply Permutation_in; [exact Hp|now left]); [now symmetry|].
      rewrite Forall_forall in Ha, Hb.
      pose proof (Ha b Hin). pose proof (Hb a Hin'). lra. }
    subst b. f_equal. apply IH; try assumption.
    now apply Permutation_cons_inv in Hp.
Qed.

Lemma flat_map_cons_perm {A : Type} (f : A -> list A) (l : list A) :
  Permutation (flat_map (fun v => v :: f v) l) (l ++ flat_map f l).
Proof.
  induction l as [|v l IH]; simpl; [reflexivity|].
  constructor. rewrite IH. apply Permutation_app_swap_app.
Qed.

Lemma tile_perm (v : vector) (p : nat) :
  Permutation (tile v p) (flat_map (fun a => repeat a p) v).
Proof.
  unfold tile. induction p as [|p IH]; simpl.
  - induction v; simpl; auto.
  - rewrite IH. symmetry. apply (flat_map_cons_perm (fun a => repeat a p)).
Qed.

Lemma strictly_increasing_sorted (v : vector) :
  strictly_increasing v -> StronglySorted Rle v.
Proof.
  induction 1 as [|a l Hl IH Ha]; constructor; [assumption|].
  eapply Forall_impl; [|exact Ha]. intros b Hb. simpl in Hb. lra.
Qed.

Lemma strictly_increasing_NoDup (v : vector) :
  strictly_increasing v -> NoDup v.
Proof.
  induction 1 as [|a l Hl IH Ha]; constructor; [|assumption].
  intros Hin. rewrite Forall_forall in Ha. specialize (Ha a Hin). lra.
Qed.

Lemma repeat_app_sorted (a : R) (k : nat) (rest : vector) :
  StronglySorted Rle rest -> Forall (Rle a) rest ->
  StronglySorted Rle (repeat a k ++ rest).
Proof.
  intros Hs Hall. induction k as [|k IH]; simpl; [assumption|].
  constructor; [assumption|].
  apply Forall_app. split; [|assumption].
  rewrite Forall_forall. intros b Hb. apply repeat_spec in Hb. lra.
Qed.

Lemma repeated_sorted (v : vector) (p : nat) :
  StronglySorted Rle v -> StronglySorted Rle (flat_map (fun a => repeat a p) v).
Proof.
  induction 1 as [|a l Hl IH Ha]; simpl; [constructor|].
  apply repeat_app_sorted; [assumption|].
  rewrite Forall_forall in *. intros b Hb.
  apply in_flat_map in Hb as (c & Hc & Hb).
  apply repeat_spec in Hb. subst b. now apply Ha.
Qed.

(** Sorting [p] copies of an increasing grid puts the [p] copies of each
    point side by side. *)
Lemma np_sort_tile (v : vector) (p : nat) :
  strictly_increasing v ->
  np_sort (tile v p) = flat_map (fun a => repeat a p) v.
Proof.
  intros Hv. apply sorted_perm_unique.
  - apply np_sort_sorted.
  - now apply repeated_sorted, strictly_increasing_sorted.
  - rewrite np_sort_perm. apply tile_perm.
Qed.

(** ** Cartesian product: the columns of the column-major branch *)

Lemma column_app (i : nat) (M N : matrix) :
  column i (M ++ N) = column i M ++ column i N.
Proof. apply map_app. Qed.

Lemma stretch_app (p : nat) (M N : matrix) :
  stretch p (M ++ N) = stretch p M ++ stretch p N.
Proof. apply flat_map_app. Qed.

Lemma column_repeat (i p : nat) (row : vector) :
  column i (repeat row p) = repeat (nth i row 0) p.
Proof. unfold column. induction p; simpl; congruence. Qed.

Lemma stretch_1 (M : matrix) : stretch 1 M = M.
Proof.
  unfold stretch. induction M as [|row M IH]; simpl; [reflexivity|].
  f_equal. exact IH.
Qed.

Lemma repeat_mul {A : Type} (a : A) (p q : nat) :
  concat (repeat (repeat a p) q) = repeat a (q * p).
Proof.
  induction q as [|q IH]; simpl; [reflexivity|].
  rewrite IH. symmetry. apply repeat_app.
Qed.

(** Column 0 of the block of rows that extend [row] by the points of [a]. *)
Lemma column_0_block (p : nat) (a row : vector) :
  column 0 (stretch p (map (fun v => v :: row) a)) = repeated a p.
Proof.
  unfold repeated. induction a as [|v a IH]; [reflexivity|].
  cbn [map]. change (stretch p ((v :: row) :: map (fun v => v :: row) a))
    with (repeat (v :: row) p ++ stretch p (map (fun v => v :: row) a)).
  rewrite column_app, column_repeat, IH. reflexivity.
Qed.

Lemma column_S_block (i p : nat) (a row : vector) :
  column (S i) (stretch p (map (fun v => v :: row) a))
  = repeat (nth i row 0) (length a * p).
Proof.
  induction a as [|v a IH]; [reflexivity|].
  cbn [map]. change (stretch p ((v :: row) :: map (fun v => v :: row) a))
    with (repeat (v :: row) p ++ stretch p (map (fun v => v :: row) a)).
  rewrite column_app, column_repeat, IH. cbn [nth length].
  rewrite <- repeat_app. f_equal.
Qed.

Lemma length_first_fastest (arrays : list vector) :
  length (first_fastest arrays) = prod (map (@length R) arrays).
Proof.
  induction arrays as [|a rest IH]; [reflexivity|].
  cbn [first_fastest map prod fold_right]. fold (prod (map (@length R) rest)).
  rewrite <- IH. generalize (first_fastest rest). intros F.
  induction F as [|row F IHF]; simpl; [lia|].
  rewrite length_app, length_map, IHF. lia.
Qed.

Lemma column_0_first_fastest (p : nat) (a : vector) (F : matrix) :
  column 0 (stretch p (flat_map (fun row => map (fun v => v :: row) a) F))
  = tile (repeated a p) (length F).
Proof.
  unfold tile. induction F as [|row F IH]; [reflexivity|].
  cbn [flat_map length repeat concat].
  rewrite stretch_app, column_app, column_0_block, IH. reflexivity.
Qed.

Lemma column_S_first_fastest (i p : nat) (a : vector) (F : matrix) :
  column (S i) (stretch p (flat_map (fun row => map (fun v => v :: row) a) F))
  = column i (stretch (length a * p) F).
Proof.
  induction F as [|row F IH]; [reflexivity|].
  cbn [flat_map].
  change (stretch (length a * p) (row :: F))
    with (repeat row (length a * p) ++ stretch (length a * p) F).
  rewrite stretch_app, !column_app, column_S_block, IH, column_repeat.
  reflexivity.
Qed.

(** Column [i] of the enumeration with the first grid fastest, each row
    written [p] times: the points of grid [i], each one written as often as
    there are combinations of the grids before it, and the whole tiled over
    the combinations of the grids after it. *)
Lemma column_first_fastest (arrays : list vector) (p i : nat) :
  (i < length arrays)%nat ->
  column i (stretch p (first_fastest arrays))
  = tile (repeated (nth i arrays [])
            (prod (firstn i (map (@length R) arrays)) * p))
      (prod (skipn (S i) (map (@length R) arrays))).
Proof.
  revert p i. induction arrays as [|a rest IH]; intros p i Hi; [simpl in Hi; lia|].
  cbn [first_fastest]. destruct i as [|i].
  - rewrite column_0_first_fastest, length_first_fastest.
    cbn [map firstn skipn prod fold_right nth]. now rewrite Nat.mul_1_l.
  - rewrite column_S_first_fastest, IH by (simpl in Hi; lia).
    cbn [map firstn skipn prod fold_right nth].
    fold (prod (firstn i (map (@length R) rest))).
    f_equal. f_equal. lia.
Qed.

Lemma repeated_1 (v : vector) : repeated v 1 = v.
Proof.
  unfold repeated. induction v as [|a v IH]; simpl; [reflexivity|].
  f_equal. exact IH.
Qed.

Lemma strictly_increasing_nth (arrays : list vector) (i : nat) :
  Forall strictly_increasing arrays -> strictly_increasing (nth i arrays []).
Proof.
  intros H. destruct (lt_dec i (length arrays)) as [Hi|Hi].
  - rewrite Forall_forall in H. apply H. now apply nth_In.
  - rewrite nth_overflow by lia. constructor.
Qed.

(** On increasing grids the column that the column-major branch writes is
    column [i] of the enumeration with the first grid fastest. *)
Lemma col_major_column_spec (V : list vector) (i : nat) :
  Forall strictly_increasing V -> (i < length V)%nat ->
  col_major_column V (map (@length R) V) i = column i (first_fastest V).
Proof.
  intros HV Hi. rewrite <- (stretch_1 (first_fastest V)).
  rewrite column_first_fastest by assumption. rewrite Nat.mul_1_r.
  unfold col_major_column. destruct i as [|i].
  - cbn [firstn prod fold_right]. rewrite repeated_1.
    replace (0 + 1)%nat with 1%nat by lia. reflexivity.
  - rewrite np_sort_tile by now apply strictly_increasing_nth.
    replace (S i + 1)%nat with (S (S i)) by lia. reflexivity.
Qed.

(** ** Cartesian product: assembling the columns *)

Lemma nth_set_col (M : matrix) (i r : nat) (col : vector) :
  (r < length M)%nat ->
  nth r (set_col M i col) [] = upd i (nth r col 0) (nth r M []).
Proof.
  intros Hr. unfold set_col.
  set (f := fun '(r, row) => _).
  rewrite (nth_indep _ [] (f (0%nat, []))).
  - rewrite map_nth, nth_combine_seq by assumption. reflexivity.
  - rewrite length_map, length_combine, length_seq. lia.
Qed.

Lemma shape_set_col (M : matrix) (n m i : nat) (col : vector) :
  shape M n m -> shape (set_col M i col) n m.
Proof.
  intros [H1 H2]. split.
  - unfold set_col. rewrite length_map, length_combine, length_seq. lia.
  - intros r Hr. rewrite nth_set_col, length_upd by lia. now apply H2.
Qed.

Lemma get_set_col (M : matrix) (n m i r j : nat) (col : vector) :
  shape M n m -> (r < n)%nat -> (i < m)%nat ->
  get (set_col M i col) r j = if (j =? i)%nat then nth r col 0 else get M r j.
Proof.
  intros [H1 H2] Hr Hi. unfold get. rewrite nth_set_col by lia.
  apply nth_upd. rewrite H2; assumption.
Qed.

Lemma fill_cols (c : nat -> vector) (n m : nat) (cols : list nat) (M : matrix) :
  shape M n m -> (forall i, In i cols -> (i < m)%nat) ->
  shape (fold_left (fun S i => set_col S i (c i)) cols M) n m /\
  forall r j, (r < n)%nat ->
    get (fold_left (fun S i => set_col S i (c i)) cols M) r j =
    if existsb (Nat.eqb j) cols then nth r (c j) 0 else get M r j.
Proof.
  revert M. induction cols as [|i cols IH]; intros M HM Hcols.
  - split; [assumption|]. reflexivity.
  - cbn [fold_left].
    destruct (IH (set_col M i (c i))) as [Hs Hg].
    + now apply shape_set_col.
    + intros; apply Hcols; now right.
    + split; [exact Hs|]. intros r j Hr. rewrite Hg by assumption.
      rewrite (get_set_col M n m) by (try assumption; apply Hcols; now left).
      cbn [existsb].
      destruct (Nat.eqb_spec j i), (existsb (Nat.eqb j) cols); subst; reflexivity.
Qed.

(** ** Cartesian product: the two enumerations *)

Lemma in_first_fastest (arrays : list vector) (row : vector) :
  In row (first_fastest arrays) <-> combination row arrays.
Proof.
  unfold combination. revert row.
  induction arrays as [|a rest IH]; intros row; cbn [first_fastest].
  - split.
    + intros [<-|[]]. constructor.
    + intros H. inversion H. now left.
  - rewrite in_flat_map. split.
    + intros (row' & Hrow' & Hin). apply in_map_iff in Hin as (v & <- & Hv).
      constructor; [assumption|]. now apply IH.
    + intros H. inversion H as [|v a' row' rest' Hv Hrest]; subst.
      exists row'. split; [now apply IH|]. apply in_map_iff. now exists v.
Qed.

Lemma in_meshgrid_ij (arrays : list vector) (row : vector) :
  In row (meshgrid_ij arrays) <-> combination row arrays.
Proof.
  unfold combination. revert row.
  induction arrays as [|a rest IH]; intros row; cbn [meshgrid_ij].
  - split.
    + intros [<-|[]]. constructor.
    + intros H. inversion H. now left.
  - rewrite in_flat_map. split.
    + intros (v & Hv & Hin). apply in_map_iff in Hin as (row' & <- & Hrow').
      constructor; [assumption|]. now apply IH.
    + intros H. inversion H as [|v a' row' rest' Hv Hrest]; subst.
      exists v. split; [assumption|]. apply in_map_iff. exists row'.
      split; [reflexivity|]. now apply IH.
Qed.

Lemma length_meshgrid_ij (arrays : list vector) :
  length (meshgrid_ij arrays) = prod (map (@length R) arrays).
Proof.
  induction arrays as [|a rest IH]; [reflexivity|].
  cbn [meshgrid_ij map prod fold_right]. fold (prod (map (@length R) rest)).
  rewrite <- IH. generalize (meshgrid_ij rest). intros M.
  induction a as [|v a IHa]; simpl; [reflexivity|].
  rewrite length_app, length_map, IHa. reflexivity.
Qed.

Lemma NoDup_map_injective {A B : Type} (g : A -> B) (l : list A) :
  (forall x y, g x = g y -> x = y) -> NoDup l -> NoDup (map g l).
Proof.
  intros Hg. induction 1 as [|x l Hx Hl IH]; simpl; constructor; [|assumption].
  intros Hin. apply in_map_iff in Hin as (y & Hy & Hin).
  apply Hg in Hy. now subst.
Qed.

Lemma NoDup_flat_map_disjoint {A B : Type} (f : A -> list B) (l : list A) :
  NoDup l -> (forall x, In x l -> NoDup (f x)) ->
  (forall x y z, In x l -> In y l -> In z (f x) -> In z (f y) -> x = y) ->
  NoDup (flat_map f l).
Proof.
  induction 1 as [|x l Hx Hl IH]; intros Hf Hdisj; simpl; [constructor|].
  apply NoDup_app.
  - apply Hf. now left.
  - apply IH.
    + intros y Hy. apply Hf. now right.
    + intros y y' z Hy Hy'. apply Hdisj; now right.
  - intros z Hz Hz'. apply in_flat_map in Hz' as (y & Hy & Hzy).
    apply Hx. rewrite (Hdisj x y z); auto; [now left|now right].
Qed.

Lemma NoDup_first_fastest (arrays : list vector) :
  Forall (@NoDup R) arrays -> NoDup (first_fastest arrays).
Proof.
  induction 1 as [|a rest Ha Hrest IH]; cbn [first_fastest].
  - constructor; [intros []|constructor].
  - apply NoDup_flat_map_disjoint; [assumption| |].
    + intros row _. apply NoDup_map_injective; [|assumption]. now intros x y [= ->].
    + intros row row' z _ _ Hz Hz'.
      apply in_map_iff in Hz as (v & <- & _).
      apply in_map_iff in Hz' as (v' & [= _ ->] & _). reflexivity.
Qed.

Lemma NoDup_meshgrid_ij (arrays : list vector) :
  Forall (@NoDup R) arrays -> NoDup (meshgrid_ij arrays).
Proof.
  induction 1 as [|a rest Ha Hrest IH]; cbn [meshgrid_ij].
  - constructor; [intros []|constructor].
  - apply NoDup_flat_map_disjoint; [assumption| |].
    + intros v _. apply NoDup_map_injective; [|assumption]. now intros x y [= ->].
    + intros v v' z _ _ Hz Hz'.
      apply in_map_iff in Hz as (row & <- & _).
      apply in_map_iff in Hz' as (row' & [= -> _] & _). reflexivity.
Qed.

Lemma shape_first_fastest (arrays : list vector) :
  shape (first_fastest arrays) (prod (map (@length R) arrays)) (length arrays).
Proof.
  split; [apply length_first_fastest|].
  intros i Hi. rewrite <- length_first_fastest in Hi.
  assert (Hin : In (nth i (first_fastest arrays) []) (first_fastest arrays))
    by now apply nth_In.
  apply in_first_fastest in Hin. now apply Forall2_length in Hin.
Qed.

Lemma get_column (M : matrix) (r i : nat) : nth r (column i M) 0 = get M r i.
Proof.
  unfold column, get.
  replace 0 with ((fun row => nth i row 0) []) at 1 by now destruct i.
  apply (map_nth (fun row => nth i row 0)).
Qed.

(** On increasing grids the column-major branch returns the enumeration
    with the first grid fastest. *)
Lemma cartesian_product_col_major (arrays : list vector) :
  arrays <> [] -> Forall strictly_increasing arrays ->
  cartesian_product arrays false = Return (first_fastest arrays).
Proof.
  intros Hne Hinc. unfold cartesian_product.
  destruct arrays as [|a rest] eqn:E; [congruence|]. rewrite <- E in *.
  assert (Hgs : map (@length R) arrays <> []) by (rewrite E; discriminate).
  destruct (map (@length R) arrays) as [|g gs] eqn:Eg; [congruence|].
  rewrite <- Eg. f_equal.
  destruct (fill_cols (col_major_column arrays (map (@length R) arrays))
              (prod (map (@length R) arrays)) (length arrays)
              (seq 0 (length arrays))
              (zeros (prod (map (@length R) arrays)) (length arrays)))
    as [Hs Hg].
  - apply shape_zeros.
  - intros i Hi. apply in_seq in Hi. lia.
  - apply (matrix_ext _ _ (prod (map (@length R) arrays)) (length arrays)).
    + exact Hs.
    + apply shape_first_fastest.
    + intros r j Hr Hj. rewrite Hg, existsb_eqb_seq by assumption.
      destruct (Nat.leb_spec 0 j), (Nat.ltb_spec j (0 + length arrays));
        cbn [andb]; try lia.
      rewrite col_major_column_spec by assumption. apply get_column.
Qed.

Lemma cartesian_product_row_major (arrays : list vector) :
  arrays <> [] -> cartesian_product arrays true = Return (meshgrid_ij arrays).
Proof. intros H. unfold cartesian_product. now destruct arrays. Qed.

(** C4: on a non-empty list of strictly increasing grids both modes of
    [cartesian_product] return; the two outputs are permutations of each
    other, each has as many rows as the product of the grid sizes, no row
    occurs twice, and the rows are exactly the combinations of one value per
    grid. *)
Theorem cartesian_product_modes (arrays : list vector) :
  arrays <> [] -> Forall strictly_increasing arrays ->
  exists Sr Sc,
    cartesian_product arrays true = Return Sr
    /\ cartesian_product arrays false = Return Sc
    /\ Permutation Sr Sc
    /\ length Sr = prod (map (@length R) arrays)
    /\ length Sc = prod (map (@length R) arrays)
    /\ NoDup Sr /\ NoDup Sc
    /\ (forall row, In row Sr <-> combination row arrays)
    /\ (forall row, In row Sc <-> combination row arrays)
    /\ (forall row, combination row arrays ->
          count_occ (list_eq_dec Req_dec_T) Sr row = 1%nat
          /\ count_occ (list_eq_dec Req_dec_T) Sc row = 1%nat).
Proof.
  intros Hne Hinc.
  assert (Hnd : Forall (@NoDup R) arrays)
    by (eapply Forall_impl; [|exact Hinc]; apply strictly_increasing_NoDup).
  pose proof (NoDup_meshgrid_ij arrays Hnd) as Hr.
  pose proof (NoDup_first_fastest arrays Hnd) as Hc.
  exists (meshgrid_ij arrays), (first_fastest arrays).
  split; [now apply cartesian_product_row_major|].
  split; [now apply cartesian_product_col_major|].
  split.
  { apply NoDup_Permutation; try assumption.
    intros row. now rewrite in_meshgrid_ij, in_first_fastest. }
  split; [apply length_meshgrid_ij|].
  split; [apply length_first_fastest|].
  split; [assumption|]. split; [assumption|].
  split; [apply in_meshgrid_ij|]. split; [apply in_first_fastest|].
  intros row Hrow. split.
  - apply NoDup_count_occ'; [assumption|]. now apply in_meshgrid_ij.
  - apply NoDup_count_occ'; [assumption|]. now apply in_first_fastest.
Qed.

Lemma cartesian_product_modes_witness :
  exists Sr Sc,
    cartesian_product [[0; 1]; [0; 1; 2]] true = Return Sr
    /\ cartesian_product [[0; 1]; [0; 1; 2]] false = Return Sc
    /\ Permutation Sr Sc
    /\ length Sr = prod (map (@length R) [[0; 1]; [0; 1; 2]])
    /\ length Sc = prod (map (@length R) [[0; 1]; [0; 1; 2]])
    /\ NoDup Sr /\ NoDup Sc
    /\ (forall row, In row Sr <-> combination row [[0; 1]; [0; 1; 2]])
    /\ (forall row, In row Sc <-> combination row [[0; 1]; [0; 1; 2]])
    /\ (forall row, combination row [[0; 1]; [0; 1; 2]] ->
          count_occ (list_eq_dec Req_dec_T) Sr row = 1%nat
          /\ count_occ (list_eq_dec Req_dec_T) Sc row = 1%nat).
Proof.
  apply (cartesian_product_modes [[0; 1]; [0; 1; 2]]).
  - discriminate.
  - repeat constructor; lra.
Defined.

(** The two orders on grids of sizes 2 and 3. *)
Example cartesian_product_2_3_row_major :
  cartesian_product [[0; 1]; [0; 1; 2]] true
  = Return [[0; 0]; [0; 1]; [0; 2]; [1; 0]; [1; 1]; [1; 2]].
Proof. reflexivity. Qed.

Example cartesian_product_2_3_col_major :
  cartesian_product [[0; 1]; [0; 1; 2]] false
  = Return [[0; 0]; [1; 0]; [0; 1]; [1; 1]; [0; 2]; [1; 2]].
Proof.
  rewrite cartesian_product_col_major; [reflexivity|discriminate|].
  repeat constructor; lra.
Qed.

(** ** The simulation: argmin *)

Lemma argmin_from_spec (pre t : vector) (best : R) (bi : nat) :
  (bi < length pre)%nat -> nth bi pre 0 = best ->
  (forall j, (j < length pre)%nat -> best <= nth j pre 0) ->
  (forall j, (j < bi)%nat -> best < nth j pre 0) ->
  let d := pre ++ t in
  let k := argmin_from best bi (length pre) t in
  (k < length d)%nat
  /\ (forall j, (j < length d)%nat -> nth k d 0 <= nth j d 0)
  /\ (forall j, (j < k)%nat -> nth k d 0 < nth j d 0).
Proof.
  revert pre best bi. induction t as [|v t IH]; intros pre best bi Hbi Hbest Hle Hlt.
  - cbn zeta. cbn [argmin_from]. rewrite app_nil_r. rewrite Hbest.
    repeat split; assumption.
  - cbn zeta. cbn [argmin_from].
    replace (pre ++ v :: t) with ((pre ++ [v]) ++ t) by now rewrite <- app_assoc.
    replace (S (length pre)) with (length (pre ++ [v]))
      by (rewrite length_app; simpl; lia).
    destruct (Rlt_dec v best) as [Hv|Hv].
    + apply IH.
      * rewrite length_app. simpl. lia.
      * rewrite app_nth2, Nat.sub_diag by lia. reflexivity.
      * intros j Hj. rewrite length_app in Hj. simpl in Hj.
        destruct (Nat.eq_dec j (length pre)) as [->|Hne].
        -- rewrite app_nth2, Nat.sub_diag by lia. simpl. lra.
        -- rewrite app_nth1 by lia. specialize (Hle j ltac:(lia)). lra.
      * intros j Hj. rewrite app_nth1 by lia. specialize (Hle j Hj). lra.
    + apply IH.
      * rewrite length_app. simpl. lia.
      * rewrite app_nth1 by lia. assumption.
      * intros j Hj. rewrite length_app in Hj. simpl in Hj.
        destruct (Nat.eq_dec j (length pre)) as [->|Hne].
        -- rewrite app_nth2, Nat.sub_diag by lia. simpl. lra.
        -- rewrite app_nth1 by lia. apply Hle. lia.
      * intros j Hj. rewrite app_nth1 by lia. now apply Hlt.
Qed.

(** [argmin] raises only on an empty array; otherwise it returns the lowest
    index at which the minimum is attained. *)
Lemma argmin_spec (d : vector) :
  match argmin d with
  | Return k =>
      (k < length d)%nat
      /\ (forall j, (j < length d)%nat -> nth k d 0 <= nth j d 0)
      /\ (forall j, (j < k)%nat -> nth k d 0 < nth j d 0)
  | Raise _ => d = []
  | NonFinite => False
  end.
Proof.
  destruct d as [|v t]; [reflexivity|]. cbn [argmin].
  apply (argmin_from_spec [v] t v 0); simpl; try lia; try reflexivity.
  intros [|j] Hj; [lra|lia].
Qed.

Lemma argmin_returns (d : vector) :
  d <> [] -> exists k, argmin d = Return k /\ (k < length d)%nat.
Proof.
  intros Hd. pose proof (argmin_spec d) as H.
  destruct (argmin d) as [k|e|]; [|congruence|contradiction].
  exists k. split; [reflexivity|apply H].
Qed.

(** ** The simulation: the count matrix and the trace *)

Lemma nth_upd_ne {A : Type} (i i' : nat) (v d : A) (l : list A) :
  i' <> i -> nth i' (upd i v l) d = nth i' l d.
Proof.
  revert i i'. induction l as [|a l IH]; intros [|i] [|i'] H; simpl;
    try reflexivity; try lia.
  apply IH. lia.
Qed.

Lemma vsum_upd (j : nat) (v : R) (l : vector) :
  (j < length l)%nat -> vsum (upd j v l) = vsum l + (v - nth j l 0).
Proof.
  revert j. induction l as [|a l IH]; intros [|j] Hj; simpl in *; try lia.
  - lra.
  - rewrite IH by lia. lra.
Qed.

Lemma map_upd {A B : Type} (f : A -> B) (i : nat) (v : A) (l : list A) :
  map f (upd i v l) = upd i (f v) (map f l).
Proof.
  revert i. induction l as [|a l IH]; intros [|i]; simpl; try reflexivity.
  now rewrite IH.
Qed.

Lemma total_set_entry (M : matrix) (n m i j : nat) (v : R) :
  shape M n m -> (i < n)%nat -> (j < m)%nat ->
  total (set_entry M i j v) = total M + (v - get M i j).
Proof.
  intros [H1 H2] Hi Hj. unfold total, set_entry.
  rewrite map_upd, vsum_upd by (rewrite length_map; lia).
  replace (nth i (map vsum M) 0) with (vsum (nth i M []))
    by (symmetry; apply (map_nth vsum M [] i)).
  rewrite vsum_upd by (rewrite H2; assumption).
  unfold get. lra.
Qed.

Lemma get_set_col_other (M : matrix) (i j r : nat) (col : vector) :
  j <> i -> get (set_col M i col) r j = get M r j.
Proof.
  intros Hne. destruct (lt_dec r (length M)) as [Hr|Hr].
  - unfold get. rewrite nth_set_col by assumption. now apply nth_upd_ne.
  - rewrite !get_overflow_row; [reflexivity|lia|].
    unfold set_col. rewrite length_map, length_combine, length_seq. lia.
Qed.

Lemma length_sq_dists (S : matrix) (xx : vector) :
  length (sq_dists S xx) = length S.
Proof. unfold sq_dists. apply length_map. Qed.

Lemma foldS_seq_inv {St : Type} (body : St -> nat -> sim St)
    (Inv : nat -> St -> rng_state -> Prop) (lo len : nat) (st : St) (g : rng_state) :
  Inv lo st g ->
  (forall t st g, (lo <= t < lo + len)%nat -> Inv t st g ->
     exists st' g', body st t g = (Return st', g') /\ Inv (S t) st' g') ->
  exists st' g', foldS body (seq lo len) st g = (Return st', g')
                 /\ Inv (lo + len)%nat st' g'.
Proof.
  revert lo st g. induction len as [|len IH]; intros lo st g H0 Hstep.
  - exists st, g. rewrite Nat.add_0_r. split; [reflexivity|assumption].
  - destruct (Hstep lo st g) as (st1 & g1 & Hrun & Hinv); [lia|assumption|].
    destruct (IH (S lo) st1 g1 Hinv) as (st2 & g2 & Hrun2 & Hinv2).
    + intros t st' g' Ht. apply Hstep. lia.
    + exists st2, g2. split.
      * cbn [seq foldS]. unfold sim_bind at 1. rewrite Hrun. exact Hrun2.
      * replace (lo + S len)%nat with (S lo + len)%nat by lia. exact Hinv2.
Qed.

Lemma total_zeros (n m : nat) : total (zeros n m) = 0.
Proof.
  unfold total, zeros, mk_matrix. rewrite map_map.
  assert (Hrow : vsum (mk_vector m (fun _ => 0)) = 0).
  { unfold mk_vector. generalize (seq 0 m). intros l.
    induction l as [|a l IH]; simpl; [reflexivity|]. rewrite IH. ring. }
  generalize (seq 0 n). intros l.
  induction l as [|a l IH]; simpl; [reflexivity|]. rewrite IH, Hrow. ring.
Qed.

Section VARFacts.

Variable gauss : Z -> nat -> R.

(** One iteration, on a non-empty state space: the new continuous state
    [x], its nearest grid point [k], and the arrays, touched only when
    [t > burn_in]. *)
Lemma run_sim_body_eq (A C S : matrix) (burn_in m : nat) (st : sim_vars)
    (t : nat) (g : rng_state) :
  S <> [] ->
  exists x k,
    (k < length S)%nat
    /\ run_sim_body gauss A C S burn_in m st t g =
       (Return (if (burn_in <? t)%nat then
                  mkVars x k
                    (set_entry (sv_Pi st) (sv_ind_i st) k
                       (get (sv_Pi st) (sv_ind_i st) k + 1))
                    (set_col (sv_Xvec st) (t - burn_in) x)
                else mkVars x k (sv_Pi st) (sv_Xvec st)),
        mkRng (rng_seed g) (rng_pos g + m)).
Proof.
  intros HS. unfold run_sim_body, sim_bind, np_random_randn, lift.
  set (x := vec_add _ _).
  destruct (argmin_returns (sq_dists S x)) as (k & Hk & Hlt).
  { intros Hd. apply (f_equal (@length R)) in Hd.
    rewrite length_sq_dists in Hd. destruct S; [congruence|discriminate]. }
  rewrite length_sq_dists in Hlt.
  exists x, k. split; [assumption|]. rewrite Hk.
  destruct (burn_in <? t)%nat; reflexivity.
Qed.

Lemma count_invariant_step (A C S : matrix) (burn_in m n : nat) (Pi0 : matrix)
    (st : sim_vars) (t : nat) (g : rng_state) :
  S <> [] -> (length S <= n)%nat -> count_invariant n burn_in Pi0 t st g ->
  exists st' g', run_sim_body gauss A C S burn_in m st t g = (Return st', g')
                 /\ count_invariant n burn_in Pi0 (Datatypes.S t) st' g'.
Proof.
  intros HS Hn (Hshape & Hind & Htot).
  destruct (run_sim_body_eq A C S burn_in m st t g HS) as (x & k & Hk & Hrun).
  rewrite Hrun. eexists. eexists. split; [reflexivity|].
  unfold count_invariant.
  destruct (Nat.ltb_spec burn_in t) as [Hlt|Hle]; cbn [sv_Pi sv_ind_i].
  - split; [now apply shape_set_entry|]. split; [lia|].
    rewrite (total_set_entry _ n n) by (assumption || lia). rewrite Htot.
    replace (Datatypes.S t - Datatypes.S burn_in)%nat
      with (Datatypes.S (t - Datatypes.S burn_in)) by lia.
    rewrite S_INR. ring.
  - split; [assumption|]. split; [lia|]. rewrite Htot.
    replace (Datatypes.S t - Datatypes.S burn_in)%nat
      with (t - Datatypes.S burn_in)%nat by lia.
    reflexivity.
Qed.

Lemma trace_invariant_step (A C S : matrix) (burn_in m : nat) (seed : Z)
    (Xvec0 : matrix) (st : sim_vars) (t : nat) (g : rng_state) :
  S <> [] -> trace_invariant seed m Xvec0 t st g ->
  exists st' g', run_sim_body gauss A C S burn_in m st t g = (Return st', g')
                 /\ trace_invariant seed m Xvec0 (Datatypes.S t) st' g'.
Proof.
  intros HS (Hcol & Hg).
  destruct (run_sim_body_eq A C S burn_in m st t g HS) as (x & k & Hk & Hrun).
  rewrite Hrun. eexists. eexists. split; [reflexivity|].
  unfold trace_invariant. split.
  - intros r. destruct (Nat.ltb_spec burn_in t) as [Hlt|Hle]; cbn [sv_Xvec].
    + rewrite get_set_col_other by lia. apply Hcol.
    + apply Hcol.
  - subst g. cbn [rng_seed rng_pos]. f_equal. lia.
Qed.

Lemma first_argmin_returns (S : matrix) :
  S <> [] ->
  exists k, argmin (row_sums (map (map (fun a => a ^ 2)) S)) = Return k
            /\ (k < length S)%nat.
Proof.
  intros HS.
  destruct (argmin_returns (row_sums (map (map (fun a => a ^ 2)) S)))
    as (k & Hk & Hlt).
  - destruct S; [congruence|discriminate].
  - exists k. split; [assumption|].
    unfold row_sums in Hlt. now rewrite !length_map in Hlt.
Qed.

(** The simulation on a non-empty state space returns; it has counted
    [sim_length - 1] transitions. *)
Lemma run_sim_counts (A C Pi0 Xvec0 S : matrix) (sim_length burn_in n : nat)
    (seed : Z) (g : rng_state) :
  S <> [] -> (length S <= n)%nat -> shape Pi0 n n ->
  exists Pi Xvec g',
    _run_sim gauss A C Pi0 Xvec0 S sim_length burn_in seed g
    = (Return (Pi, Xvec), g')
    /\ shape Pi n n
    /\ total Pi = total Pi0 + INR (sim_length - 1).
Proof.
  intros HS Hn HPi. unfold _run_sim, sim_bind at 1 2, np_random_seed, lift.
  destruct (first_argmin_returns S HS) as (k0 & Hk0 & Hlt0). rewrite Hk0.
  destruct (foldS_seq_inv (run_sim_body gauss A C S burn_in (length A))
              (count_invariant n burn_in Pi0) 0 (sim_length + burn_in)
              (mkVars (repeat 0 (length A)) k0 Pi0 Xvec0) (mkRng seed 0))
    as (st & g' & Hrun & Hshape & _ & Htot).
  - repeat split; cbn [sv_Pi sv_ind_i]; try apply HPi; try lia.
    simpl. ring.
  - intros t st g0 _ Hinv. now apply count_invariant_step.
  - unfold sim_bind. rewrite Hrun. unfold sim_ret.
    exists (sv_Pi st), (sv_Xvec st), g'. split; [reflexivity|].
    split; [assumption|]. rewrite Htot.
    replace (0 + (sim_length + burn_in) - Datatypes.S burn_in)%nat
      with (sim_length - 1)%nat by lia.
    reflexivity.
Qed.

(** The simulation never writes column 0 of the trace, and it leaves the
    generator seeded and advanced by [m] draws per step. *)
Lemma run_sim_trace (A C Pi0 Xvec0 S : matrix) (sim_length burn_in : nat)
    (seed : Z) (g : rng_state) :
  S <> [] ->
  exists Pi Xvec,
    _run_sim gauss A C Pi0 Xvec0 S sim_length burn_in seed g
    = (Return (Pi, Xvec), mkRng seed (length A * (sim_length + burn_in)))
    /\ forall r, get Xvec r 0 = get Xvec0 r 0.
Proof.
  intros HS. unfold _run_sim, sim_bind at 1 2, np_random_seed, lift.
  destruct (first_argmin_returns S HS) as (k0 & Hk0 & Hlt0). rewrite Hk0.
  destruct (foldS_seq_inv (run_sim_body gauss A C S burn_in (length A))
              (trace_invariant seed (length A) Xvec0) 0 (sim_length + burn_in)
              (mkVars (repeat 0 (length A)) k0 Pi0 Xvec0) (mkRng seed 0))
    as (st & g' & Hrun & Hcol & Hg).
  - split; [reflexivity|]. now rewrite Nat.mul_0_r.
  - intros t st g0 _ Hinv. now apply trace_invariant_step.
  - unfold sim_bind. rewrite Hrun. unfold sim_ret. subst g'.
    exists (sv_Pi st), (sv_Xvec st). split; [reflexivity|assumption].
Qed.

Lemma run_sim_empty (A C Pi0 Xvec0 : matrix) (sim_length burn_in : nat)
    (seed : Z) (g : rng_state) :
  _run_sim gauss A C Pi0 Xvec0 [] sim_length burn_in seed g
  = (Raise (ValueError "attempt to get argmin of an empty sequence"),
     mkRng seed 0).
Proof. reflexivity. Qed.

(** The generator is seeded first: what [_run_sim] does, and the state it
    leaves, do not depend on the state it finds. *)
Lemma run_sim_reseeds (A C Pi0 Xvec0 S : matrix) (sim_length burn_in : nat)
    (seed : Z) (g g' : rng_state) :
  _run_sim gauss A C Pi0 Xvec0 S sim_length burn_in seed g
  = _run_sim gauss A C Pi0 Xvec0 S sim_length burn_in seed g'.
Proof. reflexivity. Qed.

End VARFacts.

(** ** The VAR discretizer as a whole *)

(** A call that returns has gone through the simulation on a non-empty
    state space: the generator is left seeded and advanced, and column 0
    of the trace still holds the zeros of its allocation. *)
Lemma discrete_var_returns_inv
    (solve_discrete_lyapunov : matrix -> matrix -> outcome matrix)
    (sqrtm : matrix -> outcome matrix) (gauss : Z -> nat -> R)
    (A Omega : matrix) (grid_sizes : option (list nat)) (std_devs : R)
    (seed : Z) (sim_length burn_in : nat) (row_major return_sim : bool)
    (g g' : rng_state) (res : var_result) :
  discrete_var solve_discrete_lyapunov sqrtm gauss A Omega grid_sizes std_devs
    seed sim_length burn_in row_major return_sim g = (Return res, g') ->
  g' = mkRng seed (length A * (sim_length + burn_in))
  /\ exists Xvec,
       res_Xvec res = (if return_sim then Some Xvec else None)
       /\ forall r, get Xvec r 0 = 0.
Proof.
  unfold discrete_var, sim_bind at 1 2 3 4 5, lift.
  destruct (solve_discrete_lyapunov A Omega) as [Sigma| |]; try discriminate.
  destruct (mapM np_sqrt _) as [sigma_vector| |]; try discriminate.
  destruct (mapM _ (seq 0 (length A))) as [V| |]; try discriminate.
  destruct (cartesian_product V row_major) as [S| |]; try discriminate.
  destruct (sqrtm Omega) as [C| |]; try discriminate.
  unfold sim_bind.
  destruct S as [|s S].
  { rewrite run_sim_empty. discriminate. }
  set (n := prod _).
  destruct (run_sim_trace gauss A C (zeros n n) (zeros (length A) sim_length)
              (s :: S) sim_length burn_in seed g) as (Pi & Xvec & Hrun & Hcol);
    [discriminate|].
  rewrite Hrun. cbn [fst snd].
  destruct return_sim; unfold sim_ret; intros [= <- <-];
    (split; [reflexivity|]); exists Xvec; cbn [res_Xvec];
    (split; [reflexivity|]); intros r; rewrite Hcol; apply get_zeros.
Qed.

(** The outcome of [discrete_var] (the result or the exception) does not
    depend on the state the generator is in before the call. *)
Lemma discrete_var_ignores_generator
    (solve_discrete_lyapunov : matrix -> matrix -> outcome matrix)
    (sqrtm : matrix -> outcome matrix) (gauss : Z -> nat -> R)
    (A Omega : matrix) (grid_sizes : option (list nat)) (std_devs : R)
    (seed : Z) (sim_length burn_in : nat) (row_major return_sim : bool)
    (g g' : rng_state) :
  fst (discrete_var solve_discrete_lyapunov sqrtm gauss A Omega grid_sizes
         std_devs seed sim_length burn_in row_major return_sim g)
  = fst (discrete_var solve_discrete_lyapunov sqrtm gauss A Omega grid_sizes
           std_devs seed sim_length burn_in row_major return_sim g').
Proof.
  unfold discrete_var, sim_bind at 1 2 3 4 5 7 8 9 10 11, lift.
  destruct (solve_discrete_lyapunov A Omega) as [Sigma| |]; try reflexivity.
  destruct (mapM np_sqrt _) as [sigma_vector| |]; try reflexivity.
  destruct (mapM _ (seq 0 (length A))) as [V| |]; try reflexivity.
  destruct (cartesian_product V row_major) as [S| |]; try reflexivity.
  destruct (sqrtm Omega) as [C| |]; reflexivity.
Qed.

(** ** A run that ends on a state not seen before *)

Lemma linspace_2 (a b : R) : linspace a b 2 = [a; b].
Proof.
  unfold linspace, mk_vector. cbn [seq map INR].
  f_equal; [|f_equal]; field.
Qed.

(** Two steps, no burn-in, grid [-1, 1]: the states 0.47... and -1.19...
    are quantized to the indices 1 and 0; only the second step is counted,
    as a transition from 1 to 0. *)
Lemma run_sim_example (g : rng_state) :
  _run_sim draws_1234 [[0]] [[1]] (zeros 2 2) (zeros 1 2) [[-1]; [1]]
    2 0 1234 g
  = (Return ([[0; 0]; [1; 0]], [[0; - 1.19097569]]), mkRng 1234 2).
Proof.
  unfold _run_sim, sim_bind, np_random_seed, lift, argmin, row_sums.
  cbn [map vsum fold_right argmin_from length repeat seq Nat.add foldS].
  decide_reals.
  unfold run_sim_body, sim_bind, np_random_randn, lift, sim_ret, draws_1234.
  cbn [rng_seed rng_pos mk_vector seq map Nat.add matvec vec_add map2
       vsum fold_right sq_dists sv_x0 sv_ind_i sv_Pi sv_Xvec argmin argmin_from
       Nat.ltb Nat.leb Nat.sub].
  decide_reals.
  cbn [rng_seed rng_pos mk_vector seq map Nat.add matvec vec_add map2
       vsum fold_right sq_dists sv_x0 sv_ind_i sv_Pi sv_Xvec argmin argmin_from
       Nat.ltb Nat.leb Nat.sub].
  decide_reals.
  unfold set_entry, set_col, zeros, mk_matrix, mk_vector, get.
  cbn [seq map nth upd length combine].
  do 2 f_equal. apply f_equal2; reals_lists.
Qed.

Lemma discrete_var_example :
  discrete_var lyapunov_of_zero_A sqrtm_of_identity draws_1234
    [[0]] [[1]] (Some [2%nat]) 1 1234 2 0 true true (mkRng 0 0)
  = (Return (mkResult [[NaN]] [[-1]] (Some [[0; - 1.19097569]])), mkRng 1234 2).
Proof.
  unfold discrete_var, lyapunov_of_zero_A, sqrtm_of_identity.
  unfold sim_bind at 1, lift.
  cbn [length mk_vector seq map mapM get nth].
  rewrite np_sqrt_ok by lra. cbn [bind mapM].
  unfold sim_bind at 1. cbn [map mapM seq py_index nth_error bind length].
  rewrite sqrt_1, linspace_2.
  unfold sim_bind at 1. cbn [cartesian_product meshgrid_ij flat_map map app].
  unfold sim_bind at 1 2.
  replace (- (1 * 1)) with (-1) by ring. replace (1 * 1) with 1 by ring.
  change (prod [2%nat]) with 2%nat.
  unfold sim_bind. rewrite run_sim_example. cbn [fst snd]. unfold sim_ret. f_equal.
  unfold col_sums, where_pos, mk_vector.
  cbn [seq map nth vsum fold_right length filter].
  decide_reals.
  unfold normalize_rows, row_sums, take_rows, take_cols.
  cbn [map nth vsum fold_right map2]. unfold np_divide.
  decide_reals. reflexivity.
Qed.

(** C5: an iteration of the loop of [_run_sim] with [t <= burn_in] leaves
    the count matrix and the trace as they are, an iteration with
    [t > burn_in] adds 1 to the cell of the pair (previous index, current
    index); so a run on the zero matrix counts exactly [sim_length - 1]
    transitions, one less than the samples after the nominal burn-in. *)
Theorem counting_starts_after_burn_in (gauss : Z -> nat -> R)
    (A C S Xvec0 : matrix) (sim_length burn_in : nat) (seed : Z) (g : rng_state) :
  S <> [] ->
  (forall st t g0 st' g1,
     run_sim_body gauss A C S burn_in (length A) st t g0 = (Return st', g1) ->
     ((t <= burn_in)%nat -> sv_Pi st' = sv_Pi st /\ sv_Xvec st' = sv_Xvec st)
     /\ ((burn_in < t)%nat ->
         sv_Pi st' = set_entry (sv_Pi st) (sv_ind_i st) (sv_ind_i st')
                       (get (sv_Pi st) (sv_ind_i st) (sv_ind_i st') + 1)))
  /\ exists Pi Xvec g',
       _run_sim gauss A C (zeros (length S) (length S)) Xvec0 S
         sim_length burn_in seed g = (Return (Pi, Xvec), g')
       /\ total Pi = INR (sim_length - 1).
Proof.
  intros HS. split.
  - intros st t g0 st' g1 Hrun.
    destruct (run_sim_body_eq gauss A C S burn_in (length A) st t g0 HS)
      as (x & k & Hk & Heq).
    rewrite Heq in Hrun. injection Hrun as <- _.
    destruct (Nat.ltb_spec burn_in t); split; intros; try lia;
      cbn [sv_Pi sv_Xvec sv_ind_i]; auto.
  - destruct (run_sim_counts gauss A C (zeros (length S) (length S)) Xvec0 S
                sim_length burn_in (length S) seed g HS)
      as (Pi & Xvec & g' & Hrun & _ & Htot);
      [lia|apply shape_zeros|].
    exists Pi, Xvec, g'. split; [assumption|].
    rewrite Htot, total_zeros. ring.
Qed.

Lemma counting_starts_after_burn_in_witness :
  (forall st t g0 st' g1,
     run_sim_body draws_1234 [[0]] [[1]] [[-1]; [1]] 0 (length [[0]])
       st t g0 = (Return st', g1) ->
     ((t <= 0)%nat -> sv_Pi st' = sv_Pi st /\ sv_Xvec st' = sv_Xvec st)
     /\ ((0 < t)%nat ->
         sv_Pi st' = set_entry (sv_Pi st) (sv_ind_i st) (sv_ind_i st')
                       (get (sv_Pi st) (sv_ind_i st) (sv_ind_i st') + 1)))
  /\ exists Pi Xvec g',
       _run_sim draws_1234 [[0]] [[1]]
         (zeros (length [[-1]; [1]]) (length [[-1]; [1]])) (zeros 1 2)
         [[-1]; [1]] 2 0 1234 (mkRng 0 0) = (Return (Pi, Xvec), g')
       /\ total Pi = INR (2 - 1).
Proof.
  apply (counting_starts_after_burn_in draws_1234 [[0]] [[1]] [[-1]; [1]]
           (zeros 1 2) 2 0 1234 (mkRng 0 0)).
  discriminate.
Defined.

(** ** Normalisation *)



Lemma np_divide_zero_zero : np_divide 0 0 = NaN.
Proof. unfold np_divide. decide_reals. reflexivity. Qed.

Lemma np_divide_finite (a b : R) : b <> 0 -> np_divide a b = Finite (a / b).
Proof. intros H. unfold np_divide. now destruct (Req_dec_T b 0). Qed.



(** ** The trace and the generator *)

(** C8 fails on the code: whenever [discrete_var] returns with
    [return_sim = True], column 0 of [Xvec] is the zeros of
    [np.zeros((m, sim_length))], never a simulated draw; the loop writes
    the columns [t - burn_in] for [t > burn_in] only. *)
Theorem trace_first_column_unwritten
    (solve_discrete_lyapunov : matrix -> matrix -> outcome matrix)
    (sqrtm : matrix -> outcome matrix) (gauss : Z -> nat -> R)
    (A Omega : matrix) (grid_sizes : option (list nat)) (std_devs : R)
    (seed : Z) (sim_length burn_in : nat) (row_major : bool)
    (g g' : rng_state) (res : var_result) :
  discrete_var solve_discrete_lyapunov sqrtm gauss A Omega grid_sizes std_devs
    seed sim_length burn_in row_major true g = (Return res, g') ->
  exists Xvec, res_Xvec res = Some Xvec /\ forall r, get Xvec r 0 = 0.
Proof.
  intros Hrun.
  now apply discrete_var_returns_inv in Hrun as (_ & Xvec & HX & Hcol); eauto.
Qed.

Lemma trace_first_column_unwritten_witness :
  exists Xvec,
    res_Xvec (mkResult [[NaN]] [[-1]] (Some [[0; - 1.19097569]])) = Some Xvec
    /\ forall r, get Xvec r 0 = 0.
Proof.
  apply (trace_first_column_unwritten lyapunov_of_zero_A sqrtm_of_identity
           draws_1234 [[0]] [[1]] (Some [2%nat]) 1 1234 2 0 true
           (mkRng 0 0) (mkRng 1234 2)).
  exact discrete_var_example.
Defined.

(** C9, as stated, fails: the call below finds the generator in the state
    (seed 0, no draw consumed) and leaves it in another one. *)
Lemma generator_state_changed :
  snd (discrete_var lyapunov_of_zero_A sqrtm_of_identity draws_1234
         [[0]] [[1]] (Some [2%nat]) 1 1234 2 0 true true (mkRng 0 0))
  = mkRng 1234 2
  /\ mkRng 1234 2 <> mkRng 0 0.
Proof.
  rewrite discrete_var_example. split; [reflexivity|discriminate].
Qed.

(** * Further properties of the constructors *)

(** ** Rouwenhorst: errors, states, corner probabilities *)

Lemma row_build_mat_unfold (k : nat) (p q : R) :
  row_build_mat (S (S (S k))) p q =
  (new_mat <- row_build_mat (S (S k)) p q ;;
   Return (row_build_step (S (S (S k))) p q new_mat)).
Proof. reflexivity. Qed.

Lemma row_build_mat_returns (k : nat) (p q : R) :
  exists theta, row_build_mat (S (S k)) p q = Return theta.
Proof.
  induction k as [|k [theta IH]].
  - eexists. reflexivity.
  - rewrite row_build_mat_unfold, IH. eexists. reflexivity.
Qed.

Lemma nth_shifted_linspace (a b c : R) (n i : nat) :
  (i < n)%nat ->
  nth i (map (fun y => y + c) (linspace a b n)) 0
  = a + INR i * ((b - a) / (INR n - 1)) + c.
Proof.
  intros Hi. unfold linspace, mk_vector. rewrite map_map.
  change (map (fun x => a + INR x * ((b - a) / (INR n - 1)) + c) (seq 0 n))
    with (mk_vector n (fun x => a + INR x * ((b - a) / (INR n - 1)) + c)).
  now apply nth_mk_vector.
Qed.

Lemma length_shifted_linspace (a b c : R) (n : nat) :
  length (map (fun y => y + c) (linspace a b n)) = n.
Proof. unfold linspace. now rewrite length_map, length_mk_vector. Qed.

(** On a stable process, fewer than two states are refused, with the
    [ValueError] of [row_build_mat]. *)
Theorem rouwenhorst_too_few_states (n : nat) (ybar sigma rho : R) :
  (n < 2)%nat -> -1 < rho < 1 ->
  rouwenhorst n ybar sigma rho = Raise (ValueError states_msg).
Proof.
  intros Hn Hrho. rewrite rouwenhorst_stable by assumption.
  destruct n as [|[|n]]; [reflexivity|reflexivity|lia].
Qed.

Lemma rouwenhorst_too_few_states_witness :
  rouwenhorst 1 0 1 (1 / 2) = Raise (ValueError states_msg).
Proof.
  apply (rouwenhorst_too_few_states 1 0 1 (1 / 2)).
  - lia.
  - lra.
Defined.

(** The states of the Rouwenhorst chain: [n] evenly spaced points from
    [mean - psi] to [mean + psi], mirror images of each other about
    [mean = ybar / (1 - rho)], where
    [psi = sqrt(sigma**2 / (1 - rho**2)) * sqrt(n - 1)]. *)
Theorem rouwenhorst_state_values (n : nat) (ybar sigma rho : R) :
  (2 <= n)%nat -> -1 < rho < 1 ->
  exists mc,
    rouwenhorst n ybar sigma rho = Return mc
    /\ length (state_values mc) = n
    /\ nth 0 (state_values mc) 0
       = ybar / (1 - rho) - sqrt (sigma ^ 2 / (1 - rho ^ 2)) * sqrt (INR n - 1)
    /\ nth (n - 1) (state_values mc) 0
       = ybar / (1 - rho) + sqrt (sigma ^ 2 / (1 - rho ^ 2)) * sqrt (INR n - 1)
    /\ (forall i, (S i < n)%nat ->
          nth (S i) (state_values mc) 0 - nth i (state_values mc) 0
          = 2 * (sqrt (sigma ^ 2 / (1 - rho ^ 2)) * sqrt (INR n - 1))
            / (INR n - 1))
    /\ (forall i, (i < n)%nat ->
          nth i (state_values mc) 0 + nth (n - 1 - i) (state_values mc) 0
          = 2 * (ybar / (1 - rho))).
Proof.
  intros Hn Hrho. rewrite rouwenhorst_stable by assumption.
  destruct n as [|[|k]]; try lia.
  destruct (row_build_mat_returns k ((1 + rho) / 2) ((1 + rho) / 2)) as [theta Hrun].
  rewrite Hrun. cbn [bind]. eexists. split; [reflexivity|]. cbn [state_values].
  set (psi := sqrt (sigma ^ 2 / (1 - rho ^ 2)) * sqrt (INR (S (S k)) - 1)).
  pose proof (INR_minus_1_pos (S (S k)) Hn) as HN.
  split; [apply length_shifted_linspace|]. split; [|split; [|split]].
  - rewrite nth_shifted_linspace by lia. simpl INR at 1. lra.
  - rewrite nth_shifted_linspace by lia.
    replace (INR (S (S k) - 1)) with (INR (S (S k)) - 1)
      by (rewrite minus_INR by lia; simpl; ring).
    field. lra.
  - intros i Hi. rewrite !nth_shifted_linspace by lia. rewrite S_INR. field. lra.
  - intros i Hi. rewrite !nth_shifted_linspace by lia.
    replace (INR (S (S k) - 1 - i)) with (INR (S (S k)) - 1 - INR i)
      by (rewrite !minus_INR by lia; simpl; ring).
    field. lra.
Qed.

Lemma rouwenhorst_state_values_witness :
  exists mc,
    rouwenhorst 3 1 2 (1 / 2) = Return mc
    /\ length (state_values mc) = 3%nat
    /\ nth 0 (state_values mc) 0
       = 1 / (1 - 1 / 2) - sqrt (2 ^ 2 / (1 - (1 / 2) ^ 2)) * sqrt (INR 3 - 1)
    /\ nth (3 - 1) (state_values mc) 0
       = 1 / (1 - 1 / 2) + sqrt (2 ^ 2 / (1 - (1 / 2) ^ 2)) * sqrt (INR 3 - 1)
    /\ (forall i, (S i < 3)%nat ->
          nth (S i) (state_values mc) 0 - nth i (state_values mc) 0
          = 2 * (sqrt (2 ^ 2 / (1 - (1 / 2) ^ 2)) * sqrt (INR 3 - 1))
            / (INR 3 - 1))
    /\ (forall i, (i < 3)%nat ->
          nth i (state_values mc) 0 + nth (3 - 1 - i) (state_values mc) 0
          = 2 * (1 / (1 - 1 / 2))).
Proof.
  apply (rouwenhorst_state_values 3 1 2 (1 / 2)).
  - lia.
  - lra.
Defined.

Lemma row_build_step_corners (k : nat) (p q : R) (M : matrix) :
  (1 <= k)%nat -> shape M k k ->
  get (row_build_step (S k) p q M) 0 0 = p * get M 0 0
  /\ get (row_build_step (S k) p q M) 0 k = (1 - p) * get M 0 (k - 1)
  /\ get (row_build_step (S k) p q M) k 0 = (1 - q) * get M (k - 1) 0
  /\ get (row_build_step (S k) p q M) k k = q * get M (k - 1) (k - 1).
Proof.
  intros Hk HM.
  rewrite !get_row_build_step by (assumption || lia). cbv zeta.
  replace (1 <=? 0)%nat with false by reflexivity.
  replace (k <? k)%nat with false by (symmetry; apply Nat.ltb_irrefl).
  rewrite andb_false_r. cbn [andb].
  rewrite !(pad_overflow_row M k), !(pad_overflow_col M k) by assumption.
  destruct k as [|k]; [lia|]. cbn [pad].
  replace (S k - 1)%nat with k by lia.
  repeat split; ring.
Qed.

Lemma row_build_mat_corners (k : nat) (p q : R) (theta : matrix) :
  row_build_mat (S (S k)) p q = Return theta ->
  get theta 0 0 = p ^ S k
  /\ get theta 0 (S k) = (1 - p) ^ S k
  /\ get theta (S k) 0 = (1 - q) ^ S k
  /\ get theta (S k) (S k) = q ^ S k.
Proof.
  revert theta. induction k as [|k IH]; intros theta.
  - simpl. intros [= <-]. unfold get. simpl. repeat split; ring.
  - rewrite row_build_mat_unfold.
    destruct (row_build_mat (S (S k)) p q) as [M| |] eqn:E; simpl bind;
      try discriminate.
    intros [= <-].
    destruct (IH M eq_refl) as (H1 & H2 & H3 & H4).
    destruct (row_build_step_corners (S (S k)) p q M) as (C1 & C2 & C3 & C4);
      [lia|now apply (row_build_mat_shape k p q)|].
    replace (S (S k) - 1)%nat with (S k) in * by lia.
    rewrite C1, C2, C3, C4, H1, H2, H3, H4. simpl. repeat split; ring.
Qed.

(** The corner probabilities of the Rouwenhorst matrix: staying in the
    lowest state has probability [((1 + rho) / 2) ^ (n - 1)], jumping from
    the lowest to the highest state [((1 - rho) / 2) ^ (n - 1)], and the
    same from the highest state. *)
Theorem rouwenhorst_corner_probabilities (n : nat) (ybar sigma rho : R) :
  (2 <= n)%nat -> -1 < rho < 1 ->
  exists mc,
    rouwenhorst n ybar sigma rho = Return mc
    /\ get (mc_P mc) 0 0 = ((1 + rho) / 2) ^ (n - 1)
    /\ get (mc_P mc) 0 (n - 1) = ((1 - rho) / 2) ^ (n - 1)
    /\ get (mc_P mc) (n - 1) 0 = ((1 - rho) / 2) ^ (n - 1)
    /\ get (mc_P mc) (n - 1) (n - 1) = ((1 + rho) / 2) ^ (n - 1).
Proof.
  intros Hn Hrho. rewrite rouwenhorst_stable by assumption.
  destruct n as [|[|k]]; try lia.
  destruct (row_build_mat_returns k ((1 + rho) / 2) ((1 + rho) / 2)) as [theta Hrun].
  rewrite Hrun. cbn [bind]. eexists. split; [reflexivity|]. cbn [mc_P].
  replace (S (S k) - 1)%nat with (S k) by lia.
  destruct (row_build_mat_corners k _ _ theta Hrun) as (H1 & H2 & H3 & H4).
  rewrite H1, H2, H3, H4.
  replace (1 - (1 + rho) / 2) with ((1 - rho) / 2) by field.
  repeat split; reflexivity.
Qed.

Lemma rouwenhorst_corner_probabilities_witness :
  exists mc,
    rouwenhorst 4 0 1 (1 / 2) = Return mc
    /\ get (mc_P mc) 0 0 = ((1 + 1 / 2) / 2) ^ (4 - 1)
    /\ get (mc_P mc) 0 (4 - 1) = ((1 - 1 / 2) / 2) ^ (4 - 1)
    /\ get (mc_P mc) (4 - 1) 0 = ((1 - 1 / 2) / 2) ^ (4 - 1)
    /\ get (mc_P mc) (4 - 1) (4 - 1) = ((1 + 1 / 2) / 2) ^ (4 - 1).
Proof.
  apply (rouwenhorst_corner_probabilities 4 0 1 (1 / 2)).
  - lia.
  - lra.
Defined.

(** ** Tauchen: states, edge cases *)

(** The states of the Tauchen chain: [n] evenly spaced points from
    [mu - m * std_y] to [mu + m * std_y], mirror images of each other about
    [mu = b / (1 - rho)], where [std_y = sqrt(sigma_u**2 / (1 - rho**2))]. *)
Theorem tauchen_state_values (erfc : R -> R) (rho sigma_u b m : R) (n : nat) :
  -1 < rho < 1 -> sigma_u <> 0 -> (2 <= n)%nat ->
  exists mc,
    tauchen erfc rho sigma_u b m n = Return mc
    /\ length (state_values mc) = n
    /\ nth 0 (state_values mc) 0
       = b / (1 - rho) - m * sqrt (sigma_u ^ 2 / (1 - rho ^ 2))
    /\ nth (n - 1) (state_values mc) 0
       = b / (1 - rho) + m * sqrt (sigma_u ^ 2 / (1 - rho ^ 2))
    /\ (forall i, (S i < n)%nat ->
          nth (S i) (state_values mc) 0 - nth i (state_values mc) 0
          = 2 * (m * sqrt (sigma_u ^ 2 / (1 - rho ^ 2))) / (INR n - 1))
    /\ (forall i, (i < n)%nat ->
          nth i (state_values mc) 0 + nth (n - 1 - i) (state_values mc) 0
          = 2 * (b / (1 - rho))).
Proof.
  intros Hrho Hs Hn. rewrite tauchen_stable by assumption.
  eexists. split; [reflexivity|]. cbn [state_values].
  unfold tauchen_grid, tauchen_std_y.
  pose proof (INR_minus_1_pos n Hn) as HN.
  split; [apply length_shifted_linspace|]. split; [|split; [|split]].
  - rewrite nth_shifted_linspace by lia. simpl INR at 1. lra.
  - rewrite nth_shifted_linspace by lia.
    replace (INR (n - 1)) with (INR n - 1)
      by (rewrite minus_INR by lia; simpl; ring).
    field. lra.
  - intros i Hi. rewrite !nth_shifted_linspace by lia. rewrite S_INR. field. lra.
  - intros i Hi. rewrite !nth_shifted_linspace by lia.
    replace (INR (n - 1 - i)) with (INR n - 1 - INR i)
      by (rewrite !minus_INR by lia; simpl; ring).
    field. lra.
Qed.

Lemma tauchen_state_values_witness :
  exists mc,
    tauchen erfc_like (1 / 2) 1 2 3 7 = Return mc
    /\ length (state_values mc) = 7%nat
    /\ nth 0 (state_values mc) 0
       = 2 / (1 - 1 / 2) - 3 * sqrt (1 ^ 2 / (1 - (1 / 2) ^ 2))
    /\ nth (7 - 1) (state_values mc) 0
       = 2 / (1 - 1 / 2) + 3 * sqrt (1 ^ 2 / (1 - (1 / 2) ^ 2))
    /\ (forall i, (S i < 7)%nat ->
          nth (S i) (state_values mc) 0 - nth i (state_values mc) 0
          = 2 * (3 * sqrt (1 ^ 2 / (1 - (1 / 2) ^ 2))) / (INR 7 - 1))
    /\ (forall i, (i < 7)%nat ->
          nth i (state_values mc) 0 + nth (7 - 1 - i) (state_values mc) 0
          = 2 * (2 / (1 - 1 / 2))).
Proof.
  apply (tauchen_state_values erfc_like (1 / 2) 1 2 3 7).
  - lra.
  - lra.
  - lia.
Defined.

Lemma fill_tauchen_zero_sigma (erfc : R -> R) (x : vector) (P : matrix) (n : nat)
    (rho half_step : R) :
  (1 <= n)%nat ->
  _fill_tauchen erfc x P n rho 0 half_step = Raise ZeroDivisionError.
Proof.
  intros Hn. destruct n as [|n]; [lia|].
  unfold _fill_tauchen. cbn [seq foldM].
  rewrite py_div_zero by reflexivity. reflexivity.
Qed.

(** A zero innovation standard deviation passes the variance computation
    and stops in the fill kernel, at the first division by [sigma], with a
    [ZeroDivisionError]. *)
Theorem tauchen_zero_sigma (erfc : R -> R) (rho b m : R) (n : nat) :
  -1 < rho < 1 -> (2 <= n)%nat ->
  tauchen erfc rho 0 b m n = Raise ZeroDivisionError.
Proof.
  intros Hrho Hn. unfold tauchen.
  rewrite py_div_ok by nra. cbn [bind].
  rewrite np_sqrt_ok by now apply variance_nonneg. cbn [bind].
  rewrite np_div_ok by (pose proof (INR_minus_1_pos n Hn); lra). cbn [bind].
  rewrite fill_tauchen_zero_sigma by lia. reflexivity.
Qed.

Lemma tauchen_zero_sigma_witness :
  tauchen erfc_like (1 / 2) 0 0 3 7 = Raise ZeroDivisionError.
Proof.
  apply (tauchen_zero_sigma erfc_like (1 / 2) 0 3 7).
  - lra.
  - lia.
Defined.

(** For [rho = 0] the Tauchen chain forgets its state: all rows of the
    transition matrix are equal. *)
Theorem tauchen_white_noise_rows (erfc : R -> R) (sigma_u b m : R) (n : nat) :
  sigma_u <> 0 -> (2 <= n)%nat ->
  exists mc,
    tauchen erfc 0 sigma_u b m n = Return mc
    /\ forall i i' j, (i < n)%nat -> (i' < n)%nat -> (j < n)%nat ->
         get (mc_P mc) i j = get (mc_P mc) i' j.
Proof.
  intros Hs Hn. rewrite tauchen_stable by (assumption || lra).
  eexists. split; [reflexivity|]. cbn [mc_P].
  destruct (fill_tauchen_spec erfc (tauchen_grid 0 sigma_u m n) n 0 sigma_u
              (tauchen_half_step 0 sigma_u m n) (np_empty n n) Hn)
    as [_ Hg]; [apply shape_zeros|].
  intros i i' j Hi Hi' Hj. rewrite !Hg by assumption.
  unfold tauchen_closed_form. rewrite !Rmult_0_l. reflexivity.
Qed.

Lemma tauchen_white_noise_rows_witness :
  exists mc,
    tauchen erfc_like 0 1 0 3 3 = Return mc
    /\ forall i i' j, (i < 3)%nat -> (i' < 3)%nat -> (j < 3)%nat ->
         get (mc_P mc) i j = get (mc_P mc) i' j.
Proof.
  apply (tauchen_white_noise_rows erfc_like 1 0 3 3).
  - lra.
  - lia.
Defined.

(** ** Cartesian product: shape, columns, order *)

Lemma shape_meshgrid_ij (arrays : list vector) :
  shape (meshgrid_ij arrays) (prod (map (@length R) arrays)) (length arrays).
Proof.
  split; [apply length_meshgrid_ij|].
  intros i Hi. rewrite <- length_meshgrid_ij in Hi.
  assert (Hin : In (nth i (meshgrid_ij arrays) []) (meshgrid_ij arrays))
    by now apply nth_In.
  apply in_meshgrid_ij in Hin. now apply Forall2_length in Hin.
Qed.

(** The column-major branch, on any grids: an array of the full shape whose
    column [j] is the column computed for [j]. *)
Lemma cartesian_product_col_major_columns (arrays : list vector) :
  arrays <> [] ->
  exists S,
    cartesian_product arrays false = Return S
    /\ shape S (prod (map (@length R) arrays)) (length arrays)
    /\ forall r j, (r < prod (map (@length R) arrays))%nat ->
         (j < length arrays)%nat ->
         get S r j = nth r (col_major_column arrays (map (@length R) arrays) j) 0.
Proof.
  intros Hne. unfold cartesian_product.
  destruct arrays as [|a rest] eqn:E; [congruence|]. rewrite <- E in *.
  assert (Hgs : map (@length R) arrays <> []) by (rewrite E; discriminate).
  destruct (map (@length R) arrays) as [|g gs] eqn:Eg; [congruence|].
  rewrite <- Eg.
  destruct (fill_cols (col_major_column arrays (map (@length R) arrays))
              (prod (map (@length R) arrays)) (length arrays)
              (seq 0 (length arrays))
              (zeros (prod (map (@length R) arrays)) (length arrays)))
    as [Hs Hg].
  - apply shape_zeros.
  - intros i Hi. apply in_seq in Hi. lia.
  - eexists. split; [reflexivity|]. split; [exact Hs|].
    intros r j Hr Hj. rewrite Hg, existsb_eqb_seq by assumption.
    destruct (Nat.leb_spec 0 j), (Nat.ltb_spec j (0 + length arrays));
      cbn [andb]; try lia.
    reflexivity.
Qed.

(** Whatever the grids hold, sorted or not, both modes return an array with
    one row per combination of indices and one column per grid; with an
    empty grid among them the array has no row. *)
Theorem cartesian_product_shape (arrays : list vector) (row_major : bool) :
  arrays <> [] ->
  exists S,
    cartesian_product arrays row_major = Return S
    /\ length S = prod (map (@length R) arrays)
    /\ (forall row, In row S -> length row = length arrays)
    /\ (In [] arrays -> S = []).
Proof.
  intros Hne.
  assert (Hshape : exists S, cartesian_product arrays row_major = Return S
            /\ shape S (prod (map (@length R) arrays)) (length arrays)).
  { destruct row_major.
    - exists (meshgrid_ij arrays).
      split; [now apply cartesian_product_row_major|apply shape_meshgrid_ij].
    - destruct (cartesian_product_col_major_columns arrays Hne) as (S & HS & Hs & _).
      now exists S. }
  destruct Hshape as (S & HS & Hlen & Hrows).
  exists S. split; [assumption|]. split; [assumption|]. split.
  - intros row Hin. apply (In_nth _ _ []) in Hin as (i & Hi & <-).
    apply Hrows. lia.
  - intros Hin. apply length_zero_iff_nil. rewrite Hlen.
    clear - Hin. induction arrays as [|a rest IH]; [contradiction|].
    cbn [map prod fold_right]. destruct Hin as [->|Hin]; [reflexivity|].
    fold (prod (map (@length R) rest)). rewrite IH by assumption. lia.
Qed.

Lemma cartesian_product_shape_witness :
  exists S,
    cartesian_product [[1; 0]; []; [2]] false = Return S
    /\ length S = prod (map (@length R) [[1; 0]; []; [2]])
    /\ (forall row, In row S -> length row = length [[1; 0]; []; [2]])
    /\ (In [] [[1; 0]; []; [2]] -> S = []).
Proof.
  apply (cartesian_product_shape [[1; 0]; []; [2]] false). discriminate.
Defined.

Lemma length_tile (v : vector) (k : nat) : length (tile v k) = (k * length v)%nat.
Proof.
  unfold tile. induction k as [|k IH]; simpl; [reflexivity|].
  rewrite length_app, IH. reflexivity.
Qed.

Lemma in_tile (v : vector) (k : nat) (a : R) :
  (0 < k)%nat -> In a (tile v k) <-> In a v.
Proof.
  intros Hk. unfold tile. split.
  - intros Hin. apply in_concat in Hin as (l & Hl & Ha).
    apply repeat_spec in Hl. now subst.
  - intros Hin. destruct k as [|k]; [lia|]. simpl. apply in_or_app. now left.
Qed.

Lemma in_np_sort (l : vector) (a : R) : In a (np_sort l) <-> In a l.
Proof.
  split; apply Permutation_in; [|symmetry]; apply np_sort_perm.
Qed.

Lemma length_np_sort (l : vector) : length (np_sort l) = length l.
Proof. apply Permutation_length, np_sort_perm. Qed.

Lemma prod_split (gs : list nat) (i : nat) :
  (i < length gs)%nat ->
  prod gs = (prod (firstn i gs) * (nth i gs 0%nat * prod (skipn (S i) gs)))%nat.
Proof.
  revert i. induction gs as [|g gs IH]; intros i Hi; [simpl in Hi; lia|].
  destruct i as [|i].
  - cbn [firstn skipn nth prod fold_right]. lia.
  - change (skipn (S (S i)) (g :: gs)) with (skipn (S i) gs).
    cbn [firstn nth prod fold_right].
    fold (prod gs). fold (prod (firstn i gs)).
    rewrite (IH i) by (simpl in Hi; lia). lia.
Qed.

Lemma prod_firstn_pos (gs : list nat) (i : nat) :
  Forall (fun g => (0 < g)%nat) gs -> (0 < prod (firstn i gs))%nat.
Proof.
  intros H. revert i. induction H as [|g gs Hg Hgs IH]; intros [|i]; simpl; try lia.
  specialize (IH i). fold (prod (firstn i gs)). nia.
Qed.

Lemma prod_skipn_pos (gs : list nat) (i : nat) :
  Forall (fun g => (0 < g)%nat) gs -> (0 < prod (skipn i gs))%nat.
Proof.
  intros H. revert i. induction H as [|g gs Hg Hgs IH]; intros [|i]; simpl; try lia.
  - fold (prod gs). specialize (IH 0%nat). simpl in IH. fold (prod gs) in IH. nia.
  - apply IH.
Qed.

Lemma nth_map_length (arrays : list vector) (i : nat) :
  nth i (map (@length R) arrays) 0%nat = length (nth i arrays []).
Proof. apply (map_nth (@length R) arrays [] i). Qed.

Lemma length_col_major_column (V : list vector) (i : nat) :
  (i < length V)%nat ->
  length (col_major_column V (map (@length R) V) i) = prod (map (@length R) V).
Proof.
  intros Hi.
  rewrite (prod_split (map (@length R) V) i) by now rewrite length_map.
  rewrite nth_map_length. unfold col_major_column. destruct i as [|i].
  - rewrite length_tile. cbn [firstn prod fold_right].
    replace (0 + 1)%nat with 1%nat by lia. lia.
  - rewrite length_tile, length_np_sort, length_tile.
    replace (S i + 1)%nat with (S (S i)) by lia. lia.
Qed.

Lemma in_col_major_column (V : list vector) (i : nat) (a : R) :
  Forall (fun v => v <> []) V ->
  In a (col_major_column V (map (@length R) V) i) <-> In a (nth i V []).
Proof.
  intros Hne.
  assert (Hpos : Forall (fun g => (0 < g)%nat) (map (@length R) V)).
  { apply Forall_map. eapply Forall_impl; [|exact Hne].
    intros v Hv. destruct v; [congruence|simpl; lia]. }
  unfold col_major_column. destruct i as [|i].
  - apply in_tile. now apply prod_skipn_pos.
  - rewrite in_tile by now apply prod_skipn_pos.
    rewrite in_np_sort. apply in_tile. now apply prod_firstn_pos.
Qed.

Lemma in_column (M : matrix) (i : nat) (a : R) :
  In a (column i M) <-> exists r, (r < length M)%nat /\ get M r i = a.
Proof.
  unfold column. split.
  - intros Hin. apply in_map_iff in Hin as (row & <- & Hrow).
    apply (In_nth _ _ []) in Hrow as (r & Hr & <-). now exists r.
  - intros (r & Hr & <-). apply in_map_iff. exists (nth r M []).
    split; [reflexivity|now apply nth_In].
Qed.

Lemma combination_nth (row : vector) (arrays : list vector) (i : nat) :
  combination row arrays -> (i < length arrays)%nat ->
  In (nth i row 0) (nth i arrays []).
Proof.
  unfold combination. intros H. revert i.
  induction H as [|v a row rest Hv Hrest IH]; intros i Hi; [simpl in Hi; lia|].
  destruct i as [|i]; [exact Hv|]. apply IH. simpl in Hi. lia.
Qed.

Lemma combination_exists (arrays : list vector) :
  Forall (fun a => a <> []) arrays -> exists row, combination row arrays.
Proof.
  unfold combination. induction 1 as [|a rest Ha Hrest [row IH]].
  - exists []. constructor.
  - destruct a as [|v a]; [congruence|]. exists (v :: row).
    constructor; [now left|assumption].
Qed.

Lemma combination_through (arrays : list vector) (i : nat) (v : R) :
  Forall (fun a => a <> []) arrays -> (i < length arrays)%nat ->
  In v (nth i arrays []) ->
  exists row, combination row arrays /\ nth i row 0 = v.
Proof.
  unfold combination. intros H. revert i.
  induction H as [|a rest Ha Hrest IH]; intros i Hi Hv; [simpl in Hi; lia|].
  destruct i as [|i].
  - destruct (combination_exists rest Hrest) as [row Hrow].
    exists (v :: row). split; [now constructor|reflexivity].
  - destruct (IH i) as (row & Hrow & Hnth); [simpl in Hi; lia|exact Hv|].
    destruct a as [|w a]; [congruence|]. exists (w :: row).
    split; [constructor; [now left|assumption]|exact Hnth].
Qed.

(** When no grid is empty, the values found in column [i] of the output
    are the points of grid [i], in either mode and whether or not the grids
    are sorted: the grids can be read back from the columns. *)
Theorem cartesian_product_columns (arrays : list vector) (row_major : bool) (i : nat) :
  Forall (fun a => a <> []) arrays -> (i < length arrays)%nat ->
  exists S,
    cartesian_product arrays row_major = Return S
    /\ forall v, In v (column i S) <-> In v (nth i arrays []).
Proof.
  intros Hne Hi.
  assert (Harr : arrays <> []) by (destruct arrays; [simpl in Hi; lia|discriminate]).
  destruct row_major.
  - exists (meshgrid_ij arrays).
    split; [now apply cartesian_product_row_major|].
    intros v. unfold column. rewrite in_map_iff. split.
    + intros (row & <- & Hrow). apply in_meshgrid_ij in Hrow.
      now apply combination_nth.
    + intros Hv. destruct (combination_through arrays i v Hne Hi Hv)
        as (row & Hrow & Hnth).
      exists row. split; [assumption|now apply in_meshgrid_ij].
  - destruct (cartesian_product_col_major_columns arrays Harr)
      as (S & HS & [Hlen _] & Hget).
    exists S. split; [assumption|]. intros v.
    rewrite in_column, <- (in_col_major_column arrays i v Hne). rewrite Hlen. split.
    + intros (r & Hr & <-). rewrite Hget by assumption.
      apply nth_In. now rewrite length_col_major_column.
    + intros Hin. apply (In_nth _ _ 0) in Hin as (r & Hr & <-).
      rewrite length_col_major_column in Hr by assumption.
      exists r. split; [assumption|]. now apply Hget.
Qed.

Lemma cartesian_product_columns_witness :
  exists S,
    cartesian_product [[3; 1]; [2; 5; 4]] false = Return S
    /\ forall v, In v (column 1 S) <-> In v (nth 1 [[3; 1]; [2; 5; 4]] []).
Proof.
  apply (cartesian_product_columns [[3; 1]; [2; 5; 4]] false 1).
  - repeat constructor; discriminate.
  - simpl. lia.
Defined.

Lemma StronglySorted_app_intro {A : Type} (rel : A -> A -> Prop) (l1 l2 : list A) :
  StronglySorted rel l1 -> StronglySorted rel l2 ->
  (forall x y, In x l1 -> In y l2 -> rel x y) ->
  StronglySorted rel (l1 ++ l2).
Proof.
  induction 1 as [|a l1 Hl1 IH Ha]; intros Hl2 Hcross; simpl; [assumption|].
  constructor.
  - apply IH; [assumption|]. intros x y Hx Hy. apply Hcross; [now right|assumption].
  - apply Forall_app. split; [assumption|].
    rewrite Forall_forall. intros y Hy. apply Hcross; [now left|assumption].
Qed.

Lemma StronglySorted_map_intro {A B : Type} (relA : A -> A -> Prop)
    (relB : B -> B -> Prop) (f : A -> B) (l : list A) :
  (forall x y, relA x y -> relB (f x) (f y)) ->
  StronglySorted relA l -> StronglySorted relB (map f l).
Proof.
  intros Hf. induction 1 as [|a l Hl IH Ha]; simpl; constructor; [assumption|].
  apply Forall_map. eapply Forall_impl; [|exact Ha]. intros y. apply Hf.
Qed.

Lemma StronglySorted_flat_map {A B : Type} (relA : A -> A -> Prop)
    (relB : B -> B -> Prop) (f : A -> list B) (l : list A) :
  StronglySorted relA l ->
  (forall x, In x l -> StronglySorted relB (f x)) ->
  (forall x y u w, relA x y -> In u (f x) -> In w (f y) -> relB u w) ->
  StronglySorted relB (flat_map f l).
Proof.
  intros Hl Hblock Hcross. induction Hl as [|a l Hl IH Ha]; simpl; [constructor|].
  apply StronglySorted_app_intro.
  - apply Hblock. now left.
  - apply IH. intros x Hx. apply Hblock. now right.
  - intros u w Hu Hw. apply in_flat_map in Hw as (y & Hy & Hw).
    rewrite Forall_forall in Ha. apply (Hcross a y); auto.
Qed.

Lemma meshgrid_ij_lex_sorted (arrays : list vector) :
  Forall strictly_increasing arrays -> StronglySorted lex_lt (meshgrid_ij arrays).
Proof.
  induction 1 as [|a rest Ha Hrest IH]; cbn [meshgrid_ij].
  - repeat constructor.
  - apply (StronglySorted_flat_map Rlt); [exact Ha| |].
    + intros v _. apply (StronglySorted_map_intro lex_lt); [|exact IH].
      intros x y. apply lex_lt_tail.
    + intros v v' u w Hv Hu Hw.
      apply in_map_iff in Hu as (r & <- & _).
      apply in_map_iff in Hw as (r' & <- & _). now apply lex_lt_head.
Qed.

Lemma first_fastest_colex_sorted (arrays : list vector) :
  Forall strictly_increasing arrays ->
  StronglySorted colex_lt (first_fastest arrays).
Proof.
  induction 1 as [|a rest Ha Hrest IH]; cbn [first_fastest].
  - repeat constructor.
  - apply (StronglySorted_flat_map colex_lt); [exact IH| |].
    + intros row _. apply (StronglySorted_map_intro Rlt); [|exact Ha].
      intros x y. apply colex_lt_head.
    + intros row row' u w Hrow Hu Hw.
      apply in_map_iff in Hu as (v & <- & _).
      apply in_map_iff in Hw as (v' & <- & _). now apply colex_lt_tail.
Qed.

(** The two orders, on strictly increasing grids: the row-major output is
    strictly increasing in the lexicographic order (first grid most
    significant), the column-major output in the order that compares the
    last entries first (first grid least significant, varying fastest). *)
Theorem cartesian_product_orders (arrays : list vector) :
  arrays <> [] -> Forall strictly_increasing arrays ->
  exists Sr Sc,
    cartesian_product arrays true = Return Sr
    /\ cartesian_product arrays false = Return Sc
    /\ StronglySorted lex_lt Sr
    /\ StronglySorted colex_lt Sc.
Proof.
  intros Hne Hinc. exists (meshgrid_ij arrays), (first_fastest arrays).
  split; [now apply cartesian_product_row_major|].
  split; [now apply cartesian_product_col_major|].
  split; [now apply meshgrid_ij_lex_sorted|now apply first_fastest_colex_sorted].
Qed.

Lemma cartesian_product_orders_witness :
  exists Sr Sc,
    cartesian_product [[0; 1]; [0; 1; 2]] true = Return Sr
    /\ cartesian_product [[0; 1]; [0; 1; 2]] false = Return Sc
    /\ StronglySorted lex_lt Sr
    /\ StronglySorted colex_lt Sc.
Proof.
  apply (cartesian_product_orders [[0; 1]; [0; 1; 2]]).
  - discriminate.
  - repeat constructor; lra.
Defined.

Lemma tile_perm_compat (v w : vector) (p : nat) :
  Permutation v w -> Permutation (tile v p) (tile w p).
Proof.
  intros H. unfold tile. induction p as [|p IH]; simpl; [constructor|].
  now apply Permutation_app.
Qed.

Lemma np_sort_tile_sorted (v : vector) (p : nat) :
  np_sort (tile (np_sort v) p) = np_sort (tile v p).
Proof.
  apply sorted_perm_unique; try apply np_sort_sorted.
  eapply Permutation_trans; [apply np_sort_perm|].
  eapply Permutation_trans; [|symmetry; apply np_sort_perm].
  apply tile_perm_compat, np_sort_perm.
Qed.

Lemma col_major_column_sorted_rest (a : vector) (rest : list vector) (j : nat) :
  col_major_column (a :: map np_sort rest)
    (map (@length R) (a :: map np_sort rest)) j
  = col_major_column (a :: rest) (map (@length R) (a :: rest)) j.
Proof.
  assert (Hgs : map (@length R) (a :: map np_sort rest)
                = map (@length R) (a :: rest)).
  { cbn [map]. f_equal. rewrite map_map. apply map_ext. apply length_np_sort. }
  rewrite Hgs. unfold col_major_column. destruct j as [|j]; [reflexivity|].
  cbn [nth].
  replace (nth j (map np_sort rest) []) with (np_sort (nth j rest []))
    by (symmetry; apply (map_nth np_sort rest [] j)).
  now rewrite np_sort_tile_sorted.
Qed.

(** The column-major mode sorts every grid but the first: its output on
    the grids as given is its output on the grids with all but the first
    sorted, while the first grid is read in the order given. *)
Theorem cartesian_product_col_major_sorts (a : vector) (rest : list vector) :
  cartesian_product (a :: rest) false
  = cartesian_product (a :: map np_sort rest) false.
Proof.
  destruct (cartesian_product_col_major_columns (a :: rest))
    as (S & HS & Hs & Hg); [discriminate|].
  destruct (cartesian_product_col_major_columns (a :: map np_sort rest))
    as (S' & HS' & Hs' & Hg'); [discriminate|].
  rewrite HS, HS'. f_equal.
  assert (Hgs : map (@length R) (a :: map np_sort rest)
                = map (@length R) (a :: rest)).
  { cbn [map]. f_equal. rewrite map_map. apply map_ext. apply length_np_sort. }
  assert (Hm : length (a :: map np_sort rest) = length (a :: rest))
    by (cbn [length]; now rewrite length_map).
  rewrite Hgs, Hm in Hs'.
  apply (matrix_ext _ _ _ _ Hs Hs').
  intros r j Hr Hj. rewrite Hg by assumption.
  rewrite Hg' by (rewrite ?Hgs, ?Hm; assumption).
  now rewrite col_major_column_sorted_rest.
Qed.

(** ** The simulation: the counted transitions form a path *)

Lemma row_sum_set_entry (M : matrix) (n m i j k : nat) (v : R) :
  shape M n m -> (i < n)%nat -> (j < m)%nat ->
  row_sum (set_entry M i j v) k
  = row_sum M k + (if (k =? i)%nat then v - get M i j else 0).
Proof.
  intros [H1 H2] Hi Hj. unfold row_sum, set_entry.
  rewrite nth_upd by lia.
  destruct (Nat.eqb_spec k i) as [->|Hne]; [|ring].
  rewrite vsum_upd by (rewrite H2; assumption). reflexivity.
Qed.

Lemma col_sum_set_entry (M : matrix) (n m i j k : nat) (v : R) :
  shape M n m -> (i < n)%nat -> (j < m)%nat ->
  col_sum (set_entry M i j v) k
  = col_sum M k + (if (k =? j)%nat then v - get M i j else 0).
Proof.
  intros [H1 H2] Hi Hj. unfold col_sum, set_entry.
  rewrite map_upd, vsum_upd by (rewrite length_map; lia).
  replace (nth i (map (fun row => nth k row 0) M) 0) with (nth k (nth i M []) 0).
  2:{ replace 0 with ((fun row => nth k row 0) []) at 2 by now destruct k.
      symmetry. apply (map_nth (fun row => nth k row 0)). }
  rewrite nth_upd by (rewrite H2; assumption).
  destruct (Nat.eqb_spec k j) as [->|Hne]; [reflexivity|]. ring.
Qed.

Lemma nonneg_set_entry (M : matrix) (n m i j : nat) (v : R) :
  shape M n m -> (i < n)%nat -> (j < m)%nat -> 0 <= v ->
  (forall a b, 0 <= get M a b) ->
  forall a b, 0 <= get (set_entry M i j v) a b.
Proof.
  intros HM Hi Hj Hv Hpos a b.
  rewrite (get_set_entry M n m) by assumption.
  destruct (_ && _); [assumption|apply Hpos].
Qed.

Lemma row_sum_zeros (n m k : nat) : row_sum (zeros n m) k = 0.
Proof.
  unfold row_sum. rewrite vsum_sumn.
  rewrite (sumn_ext _ (fun _ => 0)).
  - generalize (length (nth k (zeros n m) [])). intros l.
    induction l; simpl; lra.
  - intros j _. apply (get_zeros n m k j).
Qed.

Lemma col_sum_zeros (n m k : nat) : col_sum (zeros n m) k = 0.
Proof.
  unfold col_sum. rewrite vsum_sumn, length_map.
  rewrite (sumn_ext _ (fun _ => 0)).
  - generalize (length (zeros n m)). intros l. induction l; simpl; lra.
  - intros i _.
    replace 0 with ((fun row => nth k row 0) []) at 1 by now destruct k.
    rewrite (map_nth (fun row => nth k row 0)). apply (get_zeros n m i k).
Qed.

Lemma path_invariant_step (gauss : Z -> nat -> R) (A C S : matrix)
    (burn_in m n : nat) (st : sim_vars) (t : nat) (g : rng_state) :
  S <> [] -> (length S <= n)%nat -> path_invariant n burn_in t st g ->
  exists st' g', run_sim_body gauss A C S burn_in m st t g = (Return st', g')
                 /\ path_invariant n burn_in (Datatypes.S t) st' g'.
Proof.
  intros HS Hn (Hshape & Hind & Hpos & Hzero & i0 & Hpath).
  destruct (run_sim_body_eq gauss A C S burn_in m st t g HS) as (x & k & Hk & Hrun).
  rewrite Hrun. eexists. eexists. split; [reflexivity|].
  unfold path_invariant.
  destruct (Nat.ltb_spec burn_in t) as [Hlt|Hle]; cbn [sv_Pi sv_ind_i].
  - split; [now apply shape_set_entry|]. split; [lia|]. split.
    { apply (nonneg_set_entry _ n n); try assumption; try lia.
      pose proof (Hpos (sv_ind_i st) k). lra. }
    split; [intros; lia|].
    exists i0. intros a Ha.
    rewrite (row_sum_set_entry _ n n), (col_sum_set_entry _ n n)
      by (assumption || lia).
    specialize (Hpath a Ha). unfold delta in *.
    destruct (Nat.eqb_spec a (sv_ind_i st)), (Nat.eqb_spec a k); lra.
  - split; [assumption|]. split; [lia|]. split; [assumption|].
    split; [intros _; apply Hzero; lia|].
    exists k. intros a Ha.
    destruct (Hzero ltac:(lia) a) as [-> ->]. reflexivity.
Qed.

(** After the whole run on a zeroed count matrix: for some last state
    [ind] and first state [i0], every state's row sum plus [delta k ind]
    is its column sum plus [delta k i0]. *)
Lemma run_sim_path (gauss : Z -> nat -> R) (A C Xvec0 S : matrix)
    (sim_length burn_in n : nat) (seed : Z) (g : rng_state) :
  S <> [] -> (length S <= n)%nat ->
  exists Pi Xvec g' ind i0,
    _run_sim gauss A C (zeros n n) Xvec0 S sim_length burn_in seed g
    = (Return (Pi, Xvec), g')
    /\ shape Pi n n
    /\ (forall i j, 0 <= get Pi i j)
    /\ forall k, (k < n)%nat ->
         row_sum Pi k + delta k ind = col_sum Pi k + delta k i0.
Proof.
  intros HS Hn. unfold _run_sim, sim_bind at 1 2, np_random_seed, lift.
  destruct (first_argmin_returns S HS) as (k0 & Hk0 & Hlt0). rewrite Hk0.
  destruct (foldS_seq_inv (run_sim_body gauss A C S burn_in (length A))
              (path_invariant n burn_in) 0 (sim_length + burn_in)
              (mkVars (repeat 0 (length A)) k0 (zeros n n) Xvec0) (mkRng seed 0))
    as (st & g' & Hrun & Hshape & _ & Hpos & _ & i0 & Hpath).
  - unfold path_invariant. cbn [sv_Pi sv_ind_i].
    split; [apply shape_zeros|]. split; [lia|].
    split; [intros i j; rewrite get_zeros; lra|].
    split; [intros _ k; now rewrite row_sum_zeros, col_sum_zeros|].
    exists k0. intros k _. now rewrite row_sum_zeros, col_sum_zeros.
  - intros t st g0 _ Hinv. now apply path_invariant_step.
  - unfold sim_bind. rewrite Hrun. unfold sim_ret.
    exists (sv_Pi st), (sv_Xvec st), g', (sv_ind_i st), i0.
    split; [reflexivity|]. split; [assumption|]. split; assumption.
Qed.

(** ** The VAR discretizer: what a call that returns went through *)

Lemma mapM_Return_inv {A B : Type} (f : A -> outcome B) (l : list A) (bs : list B) :
  mapM f l = Return bs -> Forall2 (fun a b => f a = Return b) l bs.
Proof.
  revert bs. induction l as [|a l IH]; intros bs; simpl.
  - intros [= <-]. constructor.
  - destruct (f a) as [b| |] eqn:Ea; simpl; try discriminate.
    destruct (mapM f l) as [bs'| |]; simpl; try discriminate.
    intros [= <-]. constructor; [assumption|]. now apply IH.
Qed.

Lemma skipn_nth_error {A : Type} (l : list A) (i : nat) (a : A) :
  nth_error l i = Some a -> skipn i l = a :: skipn (S i) l.
Proof.
  revert i. induction l as [|b l IH]; intros [|i] H; simpl in *; try discriminate.
  - now injection H as ->.
  - now apply IH.
Qed.

Lemma lengths_from_indices (gs : list nat) (lo len : nat) (V : list vector) :
  Forall2 (fun i v => nth_error gs i = Some (length v)) (seq lo len) V ->
  map (@length R) V = firstn len (skipn lo gs).
Proof.
  revert lo V. induction len as [|len IH]; intros lo V H; simpl in H.
  - inversion H. reflexivity.
  - inversion H as [|i v rest V' Hv Hrest]; subst.
    rewrite (skipn_nth_error gs lo (length v) Hv). cbn [map firstn].
    f_equal. now apply IH.
Qed.

Lemma length_linspace (a b : R) (n : nat) : length (linspace a b n) = n.
Proof. unfold linspace. apply length_mk_vector. Qed.

(** The stages of a call of [discrete_var] that returns. *)
Lemma discrete_var_returns_structure
    (solve_discrete_lyapunov : matrix -> matrix -> outcome matrix)
    (sqrtm : matrix -> outcome matrix) (gauss : Z -> nat -> R)
    (A Omega : matrix) (grid_sizes : option (list nat)) (std_devs : R)
    (seed : Z) (sim_length burn_in : nat) (row_major return_sim : bool)
    (g g' : rng_state) (res : var_result) :
  discrete_var solve_discrete_lyapunov sqrtm gauss A Omega grid_sizes std_devs
    seed sim_length burn_in row_major return_sim g = (Return res, g') ->
  exists V S C Pi Xvec,
    map (@length R) V
    = firstn (length A) (grid_sizes_or_default grid_sizes (length A))
    /\ length V = length A
    /\ cartesian_product V row_major = Return S
    /\ _run_sim gauss A C
         (zeros (prod (grid_sizes_or_default grid_sizes (length A)))
            (prod (grid_sizes_or_default grid_sizes (length A))))
         (zeros (length A) sim_length) S sim_length burn_in seed g
       = (Return (Pi, Xvec), g')
    /\ res_Pi res
       = normalize_rows
           (pruned_counts Pi (prod (grid_sizes_or_default grid_sizes (length A))))
    /\ res_S res
       = take_rows S
           (kept_states Pi (prod (grid_sizes_or_default grid_sizes (length A)))).
Proof.
  unfold discrete_var, sim_bind at 1 2 3 4 5, lift.
  fold (grid_sizes_or_default grid_sizes (length A)).
  set (gs := grid_sizes_or_default grid_sizes (length A)).
  destruct (solve_discrete_lyapunov A Omega) as [Sigma| |]; try discriminate.
  destruct (mapM np_sqrt _) as [sigma_vector| |]; try discriminate.
  destruct (mapM _ (seq 0 (length A))) as [V| |] eqn:EV; try discriminate.
  destruct (cartesian_product V row_major) as [S| |] eqn:ES; try discriminate.
  destruct (sqrtm Omega) as [C| |]; try discriminate.
  unfold sim_bind.
  destruct (_run_sim gauss A C _ _ S sim_length burn_in seed g)
    as [[[Pi Xvec]| |] g1] eqn:Erun; try discriminate.
  cbn [fst snd]. intros Hres.
  exists V, S, C, Pi, Xvec.
  apply mapM_Return_inv in EV.
  assert (Hlen : Forall2 (fun i v => nth_error gs i = Some (length v))
                   (seq 0 (length A)) V).
  { eapply Forall2_impl; [|exact EV]. intros i v Hv. cbv beta in Hv.
    unfold py_index in Hv.
    destruct (nth_error (map (Rmult std_devs) sigma_vector) i); try discriminate.
    cbn [bind] in Hv.
    destruct (nth_error gs i) as [gsz|]; try discriminate.
    cbn [bind] in Hv. injection Hv as <-. now rewrite length_linspace. }
  split; [now rewrite (lengths_from_indices gs 0 (length A) V Hlen)|].
  split.
  { apply Forall2_length in EV. rewrite length_seq in EV. now symmetry. }
  split; [exact ES|].
  destruct return_sim; unfold sim_ret in Hres; injection Hres as <- <-;
    (split; [exact Erun|]); split; reflexivity.
Qed.

(** ** The VAR discretizer: the returned matrix *)

Lemma map2_map_r {A B C : Type} (f : A -> B -> C) (g : A -> B) (l : list A) :
  map2 f l (map g l) = map (fun x => f x (g x)) l.
Proof. induction l as [|a l IH]; simpl; congruence. Qed.

Lemma normalize_rows_map (M : matrix) :
  normalize_rows M = map (fun r => map (fun v => np_divide v (vsum r)) r) M.
Proof. unfold normalize_rows, row_sums. apply map2_map_r. Qed.

Lemma pruned_counts_map (Pi : matrix) (n : nat) :
  pruned_counts Pi n
  = map (fun k => map (fun j => get Pi k j) (kept_states Pi n)) (kept_states Pi n).
Proof.
  unfold pruned_counts, take_cols, take_rows. rewrite map_map. reflexivity.
Qed.

(** The matrix returned by [discrete_var] is square, with one row and one
    column per state of the returned state space. *)
Theorem discrete_var_result_square
    (solve_discrete_lyapunov : matrix -> matrix -> outcome matrix)
    (sqrtm : matrix -> outcome matrix) (gauss : Z -> nat -> R)
    (A Omega : matrix) (grid_sizes : option (list nat)) (std_devs : R)
    (seed : Z) (sim_length burn_in : nat) (row_major return_sim : bool)
    (g g' : rng_state) (res : var_result) :
  discrete_var solve_discrete_lyapunov sqrtm gauss A Omega grid_sizes std_devs
    seed sim_length burn_in row_major return_sim g = (Return res, g') ->
  length (res_Pi res) = length (res_S res)
  /\ forall row, In row (res_Pi res) -> length row = length (res_S res).
Proof.
  intros Hrun.
  apply discrete_var_returns_structure in Hrun
    as (V & S & C & Pi & Xvec & _ & _ & _ & _ & HPi & HS).
  rewrite HPi, HS, normalize_rows_map, pruned_counts_map.
  unfold take_rows. rewrite !length_map. split; [reflexivity|].
  intros row Hrow. apply in_map_iff in Hrow as (r & <- & Hr).
  apply in_map_iff in Hr as (k & <- & _). now rewrite !length_map.
Qed.

Lemma discrete_var_result_square_witness :
  length (res_Pi (mkResult [[NaN]] [[-1]] (Some [[0; - 1.19097569]])))
  = length (res_S (mkResult [[NaN]] [[-1]] (Some [[0; - 1.19097569]])))
  /\ forall row,
       In row (res_Pi (mkResult [[NaN]] [[-1]] (Some [[0; - 1.19097569]]))) ->
       length row
       = length (res_S (mkResult [[NaN]] [[-1]] (Some [[0; - 1.19097569]]))).
Proof.
  apply (discrete_var_result_square lyapunov_of_zero_A sqrtm_of_identity
           draws_1234 [[0]] [[1]] (Some [2%nat]) 1 1234 2 0 true true
           (mkRng 0 0) (mkRng 1234 2)).
  exact discrete_var_example.
Defined.

Lemma nth_upd_gen {A : Type} (i i' : nat) (v d : A) (l : list A) :
  nth i' (upd i v l) d
  = if (i' =? i)%nat && (i <? length l)%nat then v else nth i' l d.
Proof.
  destruct (Nat.ltb_spec i (length l)) as [Hi|Hi].
  - rewrite nth_upd by assumption. now rewrite andb_true_r.
  - rewrite andb_false_r.
    revert i i' Hi. induction l as [|a l IH]; intros i i' Hi;
      [now destruct i|].
    destruct i as [|i]; [simpl in Hi; lia|].
    destruct i' as [|i']; [reflexivity|]. simpl. apply IH. simpl in Hi. lia.
Qed.

Lemma nonneg_set_entry_gen (M : matrix) (i j : nat) (v : R) :
  0 <= v -> (forall a b, 0 <= get M a b) ->
  forall a b, 0 <= get (set_entry M i j v) a b.
Proof.
  intros Hv Hpos a b. unfold get, set_entry. rewrite nth_upd_gen.
  destruct (_ && _); [|apply Hpos].
  rewrite nth_upd_gen. destruct (_ && _); [assumption|apply Hpos].
Qed.

(** The counts are never negative. *)
Lemma run_sim_nonneg (gauss : Z -> nat -> R) (A C Pi0 Xvec0 S : matrix)
    (sim_length burn_in : nat) (seed : Z) (g : rng_state) :
  S <> [] -> (forall i j, 0 <= get Pi0 i j) ->
  exists Pi Xvec g',
    _run_sim gauss A C Pi0 Xvec0 S sim_length burn_in seed g
    = (Return (Pi, Xvec), g')
    /\ forall i j, 0 <= get Pi i j.
Proof.
  intros HS Hpos0. unfold _run_sim, sim_bind at 1 2, np_random_seed, lift.
  destruct (first_argmin_returns S HS) as (k0 & Hk0 & Hlt0). rewrite Hk0.
  destruct (foldS_seq_inv (run_sim_body gauss A C S burn_in (length A))
              (fun _ st _ => forall i j, 0 <= get (sv_Pi st) i j)
              0 (sim_length + burn_in)
              (mkVars (repeat 0 (length A)) k0 Pi0 Xvec0) (mkRng seed 0))
    as (st & g' & Hrun & Hpos).
  - exact Hpos0.
  - intros t st g0 _ Hinv.
    destruct (run_sim_body_eq gauss A C S burn_in (length A) st t g0 HS)
      as (x & k & Hk & Heq).
    rewrite Heq. eexists. eexists. split; [reflexivity|].
    destruct (burn_in <? t)%nat; cbn [sv_Pi]; [|assumption].
    apply nonneg_set_entry_gen; [|assumption].
    pose proof (Hinv (sv_ind_i st) k). lra.
  - unfold sim_bind. rewrite Hrun. unfold sim_ret.
    exists (sv_Pi st), (sv_Xvec st), g'. split; [reflexivity|assumption].
Qed.

Lemma nonneg_sum_zero (r : vector) :
  Forall (fun v => 0 <= v) r -> vsum r = 0 -> Forall (fun v => v = 0) r.
Proof.
  induction 1 as [|a r Ha Hr IH]; intros Hsum; [constructor|].
  simpl in Hsum.
  assert (0 <= vsum r).
  { clear - Hr. induction Hr as [|b r Hb Hr IH]; simpl; lra. }
  constructor; [lra|]. apply IH. lra.
Qed.

Lemma nonneg_le_sum (r : vector) :
  Forall (fun v => 0 <= v) r -> Forall (fun v => v <= vsum r) r.
Proof.
  induction 1 as [|a r Ha Hr IH]; [constructor|].
  assert (0 <= vsum r).
  { clear - Hr. induction Hr as [|b r Hb Hr IH]; simpl; lra. }
  simpl. constructor; [lra|].
  eapply Forall_impl; [|exact IH]. intros v Hv. simpl in Hv. lra.
Qed.

Lemma vsum_map_div (r : vector) (s : R) :
  vsum (map (fun v => v / s) r) = vsum r / s.
Proof.
  induction r as [|a r IH]; simpl; [unfold Rdiv; ring|].
  rewrite IH. unfold Rdiv. ring.
Qed.

(** A row of non-negative counts divided by its sum: all NaN when the sum
    is zero, a probability vector otherwise. *)
Lemma normalized_row_cases (r : vector) :
  Forall (fun v => 0 <= v) r ->
  map (fun v => np_divide v (vsum r)) r = repeat NaN (length r)
  \/ exists probs,
       map (fun v => np_divide v (vsum r)) r = map Finite probs
       /\ vsum probs = 1
       /\ Forall (fun p => 0 <= p <= 1) probs.
Proof.
  intros Hpos. destruct (Req_dec_T (vsum r) 0) as [Hz|Hnz].
  - left. rewrite Hz. pose proof (nonneg_sum_zero r Hpos Hz) as Hall.
    clear - Hall. induction Hall as [|a r Ha Hr IH]; [reflexivity|].
    cbn [map length repeat]. rewrite IH, Ha, np_divide_zero_zero. reflexivity.
  - right. exists (map (fun v => v / vsum r) r). split; [|split].
    + rewrite map_map. apply map_ext. intros v. now apply np_divide_finite.
    + rewrite vsum_map_div. now field.
    + pose proof (nonneg_le_sum r Hpos) as Hle.
      assert (Hs : 0 < vsum r).
      { assert (0 <= vsum r)
          by (clear - Hpos; induction Hpos as [|b r Hb Hr IH]; simpl; lra).
        lra. }
      apply Forall_map. rewrite Forall_forall in *. intros v Hv.
      specialize (Hpos v Hv). specialize (Hle v Hv).
      assert (0 < / vsum r) by now apply Rinv_0_lt_compat.
      unfold Rdiv. split; [apply Rmult_le_pos; lra|].
      replace 1 with (vsum r * / vsum r) by now field.
      apply Rmult_le_compat_r; lra.
Qed.

(** Every row of the matrix returned by [discrete_var] is either a
    probability vector (entries in [0, 1] that sum to 1) or consists of NaN
    throughout. *)
Theorem discrete_var_rows
    (solve_discrete_lyapunov : matrix -> matrix -> outcome matrix)
    (sqrtm : matrix -> outcome matrix) (gauss : Z -> nat -> R)
    (A Omega : matrix) (grid_sizes : option (list nat)) (std_devs : R)
    (seed : Z) (sim_length burn_in : nat) (row_major return_sim : bool)
    (g g' : rng_state) (res : var_result) :
  discrete_var solve_discrete_lyapunov sqrtm gauss A Omega grid_sizes std_devs
    seed sim_length burn_in row_major return_sim g = (Return res, g') ->
  forall row, In row (res_Pi res) ->
    row = repeat NaN (length row)
    \/ exists probs,
         row = map Finite probs
         /\ vsum probs = 1
         /\ Forall (fun p => 0 <= p <= 1) probs.
Proof.
  intros Hrun row Hrow.
  apply discrete_var_returns_structure in Hrun
    as (V & S & C & Pi & Xvec & _ & _ & _ & Hsim & HPi & _).
  assert (Hpos : forall i j, 0 <= get Pi i j).
  { destruct S as [|s S]; [rewrite run_sim_empty in Hsim; discriminate|].
    destruct (run_sim_nonneg gauss A C
                (zeros (prod (grid_sizes_or_default grid_sizes (length A)))
                   (prod (grid_sizes_or_default grid_sizes (length A))))
                (zeros (length A) sim_length) (s :: S) sim_length burn_in seed g)
      as (Pi' & Xvec' & g1 & Hsim' & Hpos'); [discriminate| |].
    - intros i j. rewrite get_zeros. lra.
    - rewrite Hsim in Hsim'. now injection Hsim' as -> _ _. }
  rewrite HPi, normalize_rows_map, pruned_counts_map in Hrow.
  apply in_map_iff in Hrow as (r & <- & Hr).
  apply in_map_iff in Hr as (k & <- & _).
  set (r := map (fun j => get Pi k j) _).
  assert (Hr : Forall (fun v => 0 <= v) r).
  { apply Forall_map. rewrite Forall_forall. intros j _. apply Hpos. }
  destruct (normalized_row_cases r Hr) as [Hnan|Hprob].
  - left. now rewrite length_map.
  - now right.
Qed.

Lemma discrete_var_rows_witness :
  [NaN] = repeat NaN (length [NaN])
  \/ exists probs,
       [NaN] = map Finite probs
       /\ vsum probs = 1
       /\ Forall (fun p => 0 <= p <= 1) probs.
Proof.
  apply (discrete_var_rows lyapunov_of_zero_A sqrtm_of_identity
           draws_1234 [[0]] [[1]] (Some [2%nat]) 1 1234 2 0 true true
           (mkRng 0 0) (mkRng 1234 2)
           (mkResult [[NaN]] [[-1]] (Some [[0; - 1.19097569]]))).
  - exact discrete_var_example.
  - left. reflexivity.
Defined.

(** ** The VAR discretizer: at most one degenerate row *)

Lemma in_where_pos (v : vector) (k : nat) :
  In k (where_pos v) <-> (k < length v)%nat /\ 0 < nth k v 0.
Proof.
  unfold where_pos. rewrite filter_In, in_seq.
  destruct (Rlt_dec 0 (nth k v 0)) as [Hp|Hn]; split; intros [H1 H2].
  - split; [lia|assumption].
  - split; [lia|reflexivity].
  - discriminate H2.
  - contradiction.
Qed.

Lemma NoDup_where_pos (v : vector) : NoDup (where_pos v).
Proof. unfold where_pos. apply NoDup_filter, seq_NoDup. Qed.

Lemma length_col_sums (Pi : matrix) (n : nat) : length (col_sums Pi n) = n.
Proof. unfold col_sums. apply length_mk_vector. Qed.

Lemma nth_col_sums (Pi : matrix) (n k : nat) :
  (k < n)%nat -> nth k (col_sums Pi n) 0 = col_sum Pi k.
Proof. intros Hk. unfold col_sums. now rewrite nth_mk_vector. Qed.

Lemma in_kept_states (Pi : matrix) (n k : nat) :
  In k (kept_states Pi n) <-> (k < n)%nat /\ 0 < col_sum Pi k.
Proof.
  unfold kept_states. rewrite in_where_pos, length_col_sums. split.
  - intros [Hk Hpos]. rewrite nth_col_sums in Hpos by assumption. now split.
  - intros [Hk Hpos]. rewrite nth_col_sums by assumption. now split.
Qed.

Lemma vsum_map_filter (f : nat -> R) (p : nat -> bool) (l : list nat) :
  (forall x, In x l -> p x = false -> f x = 0) ->
  vsum (map f (filter p l)) = vsum (map f l).
Proof.
  induction l as [|a l IH]; intros H; [reflexivity|].
  cbn [filter map]. destruct (p a) eqn:Ea.
  - cbn [map]. simpl. rewrite IH; [reflexivity|].
    intros x Hx. apply H. now right.
  - simpl. rewrite (H a) by (assumption || now left).
    rewrite IH; [ring|]. intros x Hx. apply H. now right.
Qed.

Lemma map_nth_seq_id (row : vector) :
  map (fun j => nth j row 0) (seq 0 (length row)) = row.
Proof.
  apply (nth_ext _ _ 0 0).
  - now rewrite length_map, length_seq.
  - intros j Hj. rewrite length_map, length_seq in Hj.
    change (map (fun j => nth j row 0) (seq 0 (length row)))
      with (mk_vector (length row) (fun j => nth j row 0)).
    now rewrite nth_mk_vector.
Qed.

Lemma entry_le_col_sum (Pi : matrix) (k j : nat) :
  (forall a b, 0 <= get Pi a b) -> (k < length Pi)%nat ->
  get Pi k j <= col_sum Pi j.
Proof.
  intros Hpos Hk. unfold col_sum. rewrite vsum_sumn, length_map.
  assert (Hnth : forall a, nth a (map (fun row => nth j row 0) Pi) 0 = get Pi a j).
  { intros a. replace 0 with ((fun row => nth j row 0) []) at 1 by now destruct j.
    apply (map_nth (fun row => nth j row 0)). }
  rewrite (sumn_ext _ (fun a => get Pi a j)) by (intros; apply Hnth).
  apply (sumn_ge_term (fun a => get Pi a j)); [|assumption].
  intros; apply Hpos.
Qed.

(** Cutting the columns of unvisited states does not change a row sum:
    those columns hold zeros. *)
Lemma pruned_row_sum (Pi : matrix) (n k : nat) :
  shape Pi n n -> (forall a b, 0 <= get Pi a b) -> (k < n)%nat ->
  vsum (map (fun j => get Pi k j) (kept_states Pi n)) = row_sum Pi k.
Proof.
  intros [H1 H2] Hpos Hk. unfold kept_states, where_pos.
  rewrite length_col_sums, vsum_map_filter.
  - unfold row_sum, get. rewrite <- (H2 k Hk) at 1. now rewrite map_nth_seq_id.
  - intros j Hj Hp. apply in_seq in Hj.
    rewrite nth_col_sums in Hp by lia.
    destruct (Rlt_dec 0 (col_sum Pi j)) as [|Hn]; [discriminate|].
    pose proof (entry_le_col_sum Pi k j Hpos ltac:(lia)).
    pose proof (Hpos k j). lra.
Qed.

Lemma np_divide_nan (a b : R) : np_divide a b = NaN -> b = 0.
Proof.
  unfold np_divide. destruct (Req_dec_T b 0); [trivial|discriminate].
Qed.

Lemma delta_range (a b : nat) : 0 <= delta a b <= 1.
Proof. unfold delta. destruct (a =? b)%nat; lra. Qed.

Lemma delta_pos (a b : nat) : 0 < delta a b -> a = b.
Proof. unfold delta. destruct (Nat.eqb_spec a b); [trivial|lra]. Qed.

(** When [grid_sizes] has one entry per dimension, at most one row of the
    matrix returned by [discrete_var] holds NaN: the only state that can be
    entered without ever being left is the one the simulation ends in. *)
Theorem discrete_var_at_most_one_nan_row
    (solve_discrete_lyapunov : matrix -> matrix -> outcome matrix)
    (sqrtm : matrix -> outcome matrix) (gauss : Z -> nat -> R)
    (A Omega : matrix) (grid_sizes : option (list nat)) (std_devs : R)
    (seed : Z) (sim_length burn_in : nat) (row_major return_sim : bool)
    (g g' : rng_state) (res : var_result) :
  (forall gs, grid_sizes = Some gs -> length gs = length A) ->
  discrete_var solve_discrete_lyapunov sqrtm gauss A Omega grid_sizes std_devs
    seed sim_length burn_in row_major return_sim g = (Return res, g') ->
  forall a b, (a < length (res_Pi res))%nat -> (b < length (res_Pi res))%nat ->
    In NaN (nth a (res_Pi res) []) -> In NaN (nth b (res_Pi res) []) -> a = b.
Proof.
  intros Hgs Hrun.
  apply discrete_var_returns_structure in Hrun
    as (V & S & C & Pi & Xvec & HV & HlenV & HS & Hsim & HPi & _).
  set (gs := grid_sizes_or_default grid_sizes (length A)) in *.
  set (n := prod gs) in *.
  assert (Hlen : length gs = length A).
  { unfold gs, grid_sizes_or_default. destruct grid_sizes as [l|].
    - now apply Hgs.
    - apply repeat_length. }
  rewrite <- Hlen, firstn_all in HV.
  assert (HSlen : length S = n).
  { destruct V as [|v V]; [destruct row_major; discriminate|].
    destruct (cartesian_product_shape (v :: V) row_major)
      as (S' & HS' & Hl & _); [discriminate|].
    rewrite HS in HS'. injection HS' as <-. now rewrite Hl, HV. }
  assert (HSne : S <> []).
  { intros ->. rewrite run_sim_empty in Hsim. discriminate. }
  destruct (run_sim_path gauss A C (zeros (length A) sim_length) S
              sim_length burn_in n seed g HSne ltac:(lia))
    as (Pi' & Xvec' & g1 & ind & i0 & Hsim' & Hshape & Hpos & Hpath).
  rewrite Hsim in Hsim'. injection Hsim' as <- _ _.
  assert (Hkey : forall a, (a < length (kept_states Pi n))%nat ->
            In NaN (nth a (res_Pi res) []) -> nth a (kept_states Pi n) 0%nat = ind).
  { intros a Ha Hnan.
    assert (Hin : In (nth a (kept_states Pi n) 0%nat) (kept_states Pi n))
      by now apply nth_In.
    apply in_kept_states in Hin as [Hk Hcol].
    rewrite HPi, normalize_rows_map, pruned_counts_map, map_map in Hnan.
    set (f := fun k => map (fun v => np_divide v
                 (vsum (map (fun j => get Pi k j) (kept_states Pi n))))
               (map (fun j => get Pi k j) (kept_states Pi n))) in Hnan.
    rewrite (nth_indep _ [] (f 0%nat)) in Hnan by now rewrite length_map.
    rewrite (map_nth f) in Hnan. unfold f in Hnan.
    apply in_map_iff in Hnan as (v & Hv & _). apply np_divide_nan in Hv.
    rewrite (pruned_row_sum Pi n) in Hv by assumption.
    specialize (Hpath _ Hk). rewrite Hv in Hpath.
    pose proof (delta_range (nth a (kept_states Pi n) 0%nat) i0).
    apply delta_pos. lra. }
  intros a b Ha Hb Hna Hnb.
  rewrite HPi, normalize_rows_map, pruned_counts_map, !length_map in Ha, Hb.
  pose proof (Hkey a Ha Hna) as Ea. pose proof (Hkey b Hb Hnb) as Eb.
  apply (NoDup_nth (kept_states Pi n) 0%nat); try assumption.
  - apply NoDup_where_pos.
  - congruence.
Qed.

Lemma discrete_var_at_most_one_nan_row_witness :
  In NaN (nth 0 (res_Pi (mkResult [[NaN]] [[-1]] (Some [[0; - 1.19097569]]))) [])
  /\ 0%nat = 0%nat.
Proof.
  split; [left; reflexivity|].
  apply (discrete_var_at_most_one_nan_row lyapunov_of_zero_A sqrtm_of_identity
           draws_1234 [[0]] [[1]] (Some [2%nat]) 1 1234 2 0 true true
           (mkRng 0 0) (mkRng 1234 2)
           (mkResult [[NaN]] [[-1]] (Some [[0; - 1.19097569]]))).
  - intros gs [= <-]. reflexivity.
  - exact discrete_var_example.
  - simpl. lia.
  - simpl. lia.
  - left. reflexivity.
  - left. reflexivity.
Defined.

(** ** The VAR discretizer: too few grid sizes *)

Lemma mapM_raises {A B : Type} (f : A -> outcome B) (e : exn) (l : list A) :
  (forall a, In a l -> (exists b, f a = Return b) \/ f a = Raise e) ->
  (exists a, In a l /\ f a = Raise e) ->
  mapM f l = Raise e.
Proof.
  induction l as [|a l IH]; intros Hall (x & Hx & Ex); [destruct Hx|].
  cbn [mapM]. destruct (Hall a (or_introl eq_refl)) as [[b Eb]|Ea].
  - rewrite Eb. cbn [bind]. destruct Hx as [->|Hx]; [congruence|].
    rewrite IH; [reflexivity| |now exists x].
    intros y Hy. apply Hall. now right.
  - now rewrite Ea.
Qed.

Lemma py_index_cases {A : Type} (l : list A) (i : nat) :
  (exists a, py_index l i = Return a) \/ py_index l i = Raise IndexError.
Proof.
  unfold py_index. destruct (nth_error l i) as [a|]; [left; now exists a|now right].
Qed.

(** A [grid_sizes] with fewer entries than the process has dimensions makes
    [discrete_var] raise IndexError while it builds the grids, as soon as the
    stationary standard deviations could be computed; the generator has not
    been touched by then. *)
Theorem discrete_var_too_few_grid_sizes
    (solve_discrete_lyapunov : matrix -> matrix -> outcome matrix)
    (sqrtm : matrix -> outcome matrix) (gauss : Z -> nat -> R)
    (A Omega Sigma : matrix) (sigma_vector : vector) (gs : list nat)
    (std_devs : R) (seed : Z) (sim_length burn_in : nat)
    (row_major return_sim : bool) (g : rng_state) :
  solve_discrete_lyapunov A Omega = Return Sigma ->
  mapM np_sqrt (mk_vector (length Sigma) (fun i => get Sigma i i))
    = Return sigma_vector ->
  (length gs < length A)%nat ->
  discrete_var solve_discrete_lyapunov sqrtm gauss A Omega (Some gs) std_devs
    seed sim_length burn_in row_major return_sim g = (Raise IndexError, g).
Proof.
  intros HSigma Hsv Hlen. unfold discrete_var.
  unfold sim_bind at 1, lift. rewrite HSigma.
  unfold sim_bind at 1. rewrite Hsv.
  unfold sim_bind at 1.
  rewrite (mapM_raises _ IndexError); [reflexivity| |].
  - intros i _.
    destruct (py_index_cases (map (Rmult std_devs) sigma_vector) i)
      as [[ub ->] | ->]; [|now right].
    destruct (py_index_cases gs i) as [[gsz ->] | ->]; [|now right].
    left. eexists. reflexivity.
  - exists (length gs). split; [apply in_seq; lia|].
    destruct (py_index_cases (map (Rmult std_devs) sigma_vector) (length gs))
      as [[ub ->] | ->]; [|reflexivity].
    unfold py_index at 1.
    now rewrite (proj2 (nth_error_None gs (length gs)) (le_n _)).
Qed.

Lemma discrete_var_too_few_grid_sizes_witness :
  discrete_var lyapunov_of_zero_A sqrtm_of_identity draws_1234
    [[0; 0]; [0; 0]] [[1; 0]; [0; 1]] (Some [3%nat]) 3 1234 10 2 true false
    (mkRng 7 5)
  = (Raise IndexError, mkRng 7 5).
Proof.
  apply (discrete_var_too_few_grid_sizes lyapunov_of_zero_A sqrtm_of_identity
           draws_1234 [[0; 0]; [0; 0]] [[1; 0]; [0; 1]] [[1; 0]; [0; 1]] [1; 1]).
  - reflexivity.
  - cbn [length mk_vector seq map mapM get nth].
    rewrite np_sqrt_ok by lra. cbn [bind]. now rewrite sqrt_1.
  - simpl. lia.
Defined.

(** * The VAR discretizer: determinism, degenerate rows, generator *)

Lemma lowest_argmin_unique (d : vector) (k k' : nat) :
  lowest_argmin d k -> lowest_argmin d k' -> k = k'.
Proof.
  intros (Hk & Hmin & Hlow) (Hk' & Hmin' & Hlow').
  destruct (Nat.lt_trichotomy k k') as [H|[H|H]]; [|assumption|].
  - specialize (Hlow' k H). specialize (Hmin k' Hk'). lra.
  - specialize (Hlow k' H). specialize (Hmin' k Hk). lra.
Qed.











(** C9, amended: [discrete_var] seeds the generator with [seed] and draws
    from it.  After a call that returns, the generator is in the state
    reached from [seed] by [m * (sim_length + burn_in)] draws; and the call
    would have returned the same result and left the same state from any
    other state of the generator. *)
Theorem discrete_var_reseeds_generator
    (solve_discrete_lyapunov : matrix -> matrix -> outcome matrix)
    (sqrtm : matrix -> outcome matrix) (gauss : Z -> nat -> R)
    (A Omega : matrix) (grid_sizes : option (list nat)) (std_devs : R)
    (seed : Z) (sim_length burn_in : nat) (row_major return_sim : bool)
    (g g0 g' : rng_state) (res : var_result) :
  discrete_var solve_discrete_lyapunov sqrtm gauss A Omega grid_sizes std_devs
    seed sim_length burn_in row_major return_sim g = (Return res, g') ->
  g' = mkRng seed (length A * (sim_length + burn_in))
  /\ discrete_var solve_discrete_lyapunov sqrtm gauss A Omega grid_sizes std_devs
       seed sim_length burn_in row_major return_sim g0 = (Return res, g').
Proof.
  intros Hrun.
  pose proof (discrete_var_returns_inv _ _ _ _ _ _ _ _ _ _ _ _ _ _ _ Hrun)
    as [Hg' _].
  split; [exact Hg'|].
  pose proof (discrete_var_ignores_generator solve_discrete_lyapunov sqrtm gauss
                A Omega grid_sizes std_devs seed sim_length burn_in row_major
                return_sim g0 g) as Hfst.
  rewrite Hrun in Hfst. cbn [fst] in Hfst.
  destruct (discrete_var solve_discrete_lyapunov sqrtm gauss A Omega grid_sizes
              std_devs seed sim_length burn_in row_major return_sim g0)
    as [out g1] eqn:Hrun0.
  cbn [fst] in Hfst. subst out.
  pose proof (discrete_var_returns_inv _ _ _ _ _ _ _ _ _ _ _ _ _ _ _ Hrun0)
    as [Hg1 _].
  now rewrite Hg1, Hg'.
Qed.

Lemma discrete_var_reseeds_generator_witness :
  mkRng 1234 2 = mkRng 1234 (length [[0]] * (2 + 0))
  /\ discrete_var lyapunov_of_zero_A sqrtm_of_identity draws_1234
       [[0]] [[1]] (Some [2%nat]) 1 1234 2 0 true true (mkRng 99 17)
     = (Return (mkResult [[NaN]] [[-1]] (Some [[0; - 1.19097569]])),
        mkRng 1234 2).
Proof.
  apply (discrete_var_reseeds_generator lyapunov_of_zero_A sqrtm_of_identity
           draws_1234 [[0]] [[1]] (Some [2%nat]) 1 1234 2 0 true true
           (mkRng 0 0) (mkRng 99 17) (mkRng 1234 2)
           (mkResult [[NaN]] [[-1]] (Some [[0; - 1.19097569]]))).
  exact discrete_var_example.
Defined.






(** * Rounding: the Rouwenhorst matrix in binary64 *)

(** C10, as stated, fails on the floats the code computes: for
    [rouwenhorst(4, ybar, sigma, 1/3)] the mirrored cells [theta[1, 2]] and
    [theta[2, 1]] are the same four products added in opposite order, and
    their roundings differ in the last bit (0.33333333333333337 against
    0.33333333333333331). *)
Lemma rouwenhorst_mirrored_entries_differ :
  exists theta,
    Binary64.rouwenhorst_theta 4 (1 / 3)%float = Return theta
    /\ Binary64.get theta 1 2 = 0x1.5555555555556p-2%float
    /\ Binary64.get theta (4 - 1 - 1) (4 - 1 - 2) = 0x1.5555555555555p-2%float
    /\ Binary64.get theta 1 2 <> Binary64.get theta (4 - 1 - 1) (4 - 1 - 2).
Proof.
  eexists. split; [vm_compute; reflexivity|].
  split; [vm_compute; reflexivity|]. split; [vm_compute; reflexivity|].
  intros H.
  apply (f_equal (fun x => PrimFloat.eqb x 0x1.5555555555555p-2%float)) in H.
  vm_compute in H. discriminate H.
Qed.

Lemma row_eqb_eq (r r' : list float) : row_eqb r r' = true -> r = r'.
Proof.
  revert r'. induction r as [|a t IH]; intros [|b t'] H; try discriminate H.
  - reflexivity.
  - cbn [row_eqb] in H. apply andb_prop in H as [Hab Ht].
    apply FloatAxioms.Leibniz.eqb_spec in Hab. now rewrite Hab, (IH t' Ht).
Qed.

Lemma forallb_row_eqb_repeat (r : list float) (M : list (list float)) :
  forallb (row_eqb r) M = true -> M = repeat r (length M).
Proof.
  induction M as [|r' M IH]; intros H; [reflexivity|].
  cbn [forallb] in H. apply andb_prop in H as [Hr HM].
  apply row_eqb_eq in Hr. cbn [length repeat]. now rewrite <- Hr, <- IH.
Qed.

(** For [rho = 0] and up to 57 states all rows of the matrix the code
    computes are equal, bit for bit: [p = q = 0.5] and every entry is a
    binomial coefficient over a power of two, which binary64 holds without
    rounding as long as the coefficients stay below [2^53]. *)
Theorem rouwenhorst_white_noise_rows_binary64 (n : nat) :
  (2 <= n <= 57)%nat ->
  exists theta row,
    Binary64.rouwenhorst_theta n 0%float = Return theta
    /\ theta = repeat row n.
Proof.
  intros Hn.
  assert (Hall : forallb (fun k => equal_rows_check k 0%float) (seq 2 56) = true)
    by (vm_compute; reflexivity).
  rewrite forallb_forall in Hall.
  specialize (Hall n ltac:(apply in_seq; lia)). unfold equal_rows_check in Hall.
  destruct (Binary64.rouwenhorst_theta n 0%float) as [theta| |];
    try discriminate Hall.
  apply andb_prop in Hall as [Hlen Hrows]. apply Nat.eqb_eq in Hlen.
  exists theta, (nth 0 theta []). split; [reflexivity|].
  rewrite <- Hlen. now apply forallb_row_eqb_repeat.
Qed.

Lemma rouwenhorst_white_noise_rows_binary64_witness :
  exists theta row,
    Binary64.rouwenhorst_theta 5 0%float = Return theta
    /\ theta = repeat row 5.
Proof.
  apply (rouwenhorst_white_noise_rows_binary64 5). lia.
Defined.

(** The bound is sharp: with 58 states the rows are no longer equal. *)
Example rouwenhorst_white_noise_rows_58 :
  equal_rows_check 57 0%float = true /\ equal_rows_check 58 0%float = false.
Proof. split; vm_compute; reflexivity. Qed.
